(** * Differentiable tensor operators of [src/modules.py]

    A shallow embedding of the hand-written forward/backward pairs
    (cross entropy, layer normalisation, GELU, addition, embedding) together
    with the part of the tensor library they call.

    Scalars are modelled as mathematical reals: rounding of the floating
    point formats is abstracted away, so every equation below is an equation
    of exact arithmetic.  Division is the total division of [R]: where the
    floats would give inf or nan (a mean over no entry), the model has the
    value [R] gives to [x / 0].  Division of Python integers raises.

    Tensors carry their shape explicitly and store their entries row-major,
    as contiguous tensors do.  Index tensors are one-dimensional vectors of
    integers.  Operations that raise in Python return an [Err]. *)

From Stdlib Require Import String Ascii.
From Stdlib Require Import Reals Lra Lia ZArith Bool Arith List.
Import ListNotations.

Open Scope R_scope.

(** ** Errors *)

Inductive error : Type :=
| ValueError        (* unpacking a shape of the wrong rank *)
| IndexError        (* index out of range, or index tensors not broadcastable *)
| RuntimeError      (* shapes of operands not broadcastable *)
| AssertionError    (* a failed [assert] *)
| ZeroDivisionError (* Python scalar division by zero *).

Inductive result (A : Type) : Type :=
| Ok (a : A)
| Err (e : error).
Arguments Ok {A} a.
Arguments Err {A} e.

Definition bind {A B : Type} (m : result A) (k : A -> result B) : result B :=
  match m with
  | Ok a => k a
  | Err e => Err e
  end.

Notation "x <- m ;; k" := (bind m (fun x => k))
  (at level 61, m at next level, right associativity).
Notation "' pat <- m ;; k" := (bind m (fun x => match x with pat => k end))
  (at level 61, pat pattern, m at next level, right associativity).

(** ** Finite sums of reals *)

Definition Rsum (n : nat) (f : nat -> R) : R :=
  fold_right (fun k acc => f k + acc) 0 (seq 0 n).

Definition Rprod (l : list R) : R := fold_right Rmult 1 l.

(** ** Tensors *)

Record tensor : Type := mkT { shape : list nat; data : list R }.

(** Integer tensors are only used as one-dimensional index vectors. *)
Definition itensor : Type := list Z.

Definition numel (s : list nat) : nat := fold_right Nat.mul 1%nat s.

Definition wf (t : tensor) : Prop := length (data t) = numel (shape t).

(** Row-major position of a multi-index. *)
Fixpoint offset (s idx : list nat) : nat :=
  match s, idx with
  | _ :: s', i :: idx' => (i * numel s' + offset s' idx')%nat
  | _, _ => 0%nat
  end.

Definition get (t : tensor) (idx : list nat) : R :=
  nth (offset (shape t) idx) (data t) 0.

(** The entries of the tensor of shape [s] whose entry at [idx] is [f idx]. *)
Fixpoint tabulate (s : list nat) (f : list nat -> R) : list R :=
  match s with
  | [] => [f []]
  | n :: s' => flat_map (fun i => tabulate s' (fun idx => f (i :: idx))) (seq 0 n)
  end.

Definition tinit (s : list nat) (f : list nat -> R) : tensor :=
  mkT s (tabulate s f).

Definition in_range (s idx : list nat) : Prop := Forall2 lt idx s.

Definition scalar (r : R) : tensor := mkT [] [r].

(** *** Broadcasting *)

(** Shapes are aligned at their last dimension; the fixpoints below work on
    reversed shapes. *)
Fixpoint bshape_rev (a b : list nat) : option (list nat) :=
  match a, b with
  | [], _ => Some b
  | _, [] => Some a
  | x :: a', y :: b' =>
      match bshape_rev a' b' with
      | None => None
      | Some s =>
          if (x =? y)%nat then Some (x :: s)
          else if (x =? 1)%nat then Some (y :: s)
          else if (y =? 1)%nat then Some (x :: s)
          else None
      end
  end.

Definition broadcast_shapes (a b : list nat) : option (list nat) :=
  option_map (@rev nat) (bshape_rev (rev a) (rev b)).

Fixpoint bidx_rev (s idx : list nat) : list nat :=
  match s, idx with
  | d :: s', i :: idx' => (if (d =? 1)%nat then 0%nat else i) :: bidx_rev s' idx'
  | _, _ => []
  end.

(** The index at which an operand of shape [s] is read when the broadcast
    result is read at [idx]. *)
Definition bidx (s idx : list nat) : list nat :=
  rev (bidx_rev (rev s) (rev idx)).

Definition binop (f : R -> R -> R) (a b : tensor) : result tensor :=
  match broadcast_shapes (shape a) (shape b) with
  | None => Err RuntimeError
  | Some s =>
      Ok (tinit s (fun idx => f (get a (bidx (shape a) idx))
                                (get b (bidx (shape b) idx))))
  end.

Definition tadd := binop Rplus.
Definition tsub := binop Rminus.
Definition tmul := binop Rmult.
Definition tdiv := binop Rdiv.

(** Elementwise unary operations and operations with a Python scalar. *)
Definition tmap (f : R -> R) (t : tensor) : tensor :=
  mkT (shape t) (map f (data t)).

(** *** Reductions and reshaping *)

Definition insert_at (d k : nat) (idx : list nat) : list nat :=
  firstn d idx ++ k :: skipn d idx.

Definition remove_at (d : nat) (s : list nat) : list nat :=
  firstn d s ++ skipn (S d) s.

(** [t.sum(d)] *)
Definition tsum (d : nat) (t : tensor) : result tensor :=
  if (d <? length (shape t))%nat then
    Ok (tinit (remove_at d (shape t))
          (fun idx => Rsum (nth d (shape t) 0%nat)
                        (fun k => get t (insert_at d k idx))))
  else Err IndexError.

(** [t.mean(d)]: the sum along [d] divided by the size of [d]. *)
Definition tmean (d : nat) (t : tensor) : result tensor :=
  s <- tsum d t ;;
  Ok (tmap (fun v => v / INR (nth d (shape t) 0%nat)) s).

(** [t.unsqueeze(d)] *)
Definition unsqueeze (d : nat) (t : tensor) : result tensor :=
  if (d <=? length (shape t))%nat then
    Ok (mkT (insert_at d 1%nat (shape t)) (data t))
  else Err IndexError.

(** *** Python scalars and shapes *)

(** [T, C = x.shape] *)
Definition unpack2 (s : list nat) : result (nat * nat) :=
  match s with
  | [a; b] => Ok (a, b)
  | _ => Err ValueError
  end.

(** [a / b] on Python integers (true division). *)
Definition pydiv (a b : nat) : result R :=
  if (b =? 0)%nat then Err ZeroDivisionError else Ok (INR a / INR b).

Fixpoint shape_eqb (a b : list nat) : bool :=
  match a, b with
  | [], [] => true
  | x :: a', y :: b' => (x =? y)%nat && shape_eqb a' b'
  | _, _ => false
  end.

(** Two sizes that are read together: equal, or one of them is 1. *)
Definition merge_dim (a b : nat) : option nat :=
  if (a =? b)%nat then Some a
  else if (a =? 1)%nat then Some b
  else if (b =? 1)%nat then Some a
  else None.

(** *** Constructors *)

Definition arange (n : nat) : itensor := map Z.of_nat (seq 0 n).

Definition eye (n : nat) : tensor :=
  tinit [n; n] (fun idx => if (nth 0 idx 0 =? nth 1 idx 0)%nat then 1 else 0).

Definition zeros_like (t : tensor) : tensor := tinit (shape t) (fun _ => 0).

Definition full (s : list nat) (r : R) : tensor := tinit s (fun _ => r).

(** *** Indexing with integer tensors *)

(** An index into a dimension of size [n]; negative indices count from the
    end, as Python indexing does. *)
Definition norm_index (n : nat) (i : Z) : result nat :=
  if ((0 <=? i) && (i <? Z.of_nat n))%Z then Ok (Z.to_nat i)
  else if ((- Z.of_nat n <=? i) && (i <? 0))%Z then Ok (Z.to_nat (i + Z.of_nat n))
  else Err IndexError.

(** An index that has to lie in [0, n). *)
Definition strict_index (n : nat) (i : Z) : result nat :=
  if ((0 <=? i) && (i <? Z.of_nat n))%Z then Ok (Z.to_nat i)
  else Err IndexError.

Fixpoint mapM {A B : Type} (f : A -> result B) (l : list A) : result (list B) :=
  match l with
  | [] => Ok []
  | a :: l' => b <- f a ;; bs <- mapM f l' ;; Ok (b :: bs)
  end.

(** [t[y]]: rows of [t] gathered at the positions [y]. *)
Definition getitem1 (t : tensor) (y : itensor) : result tensor :=
  match shape t with
  | n :: s' =>
      rows <- mapM (norm_index n) y ;;
      Ok (tinit (length y :: s')
            (fun idx => get t (nth (nth 0 idx 0%nat) rows 0%nat :: tl idx)))
  | [] => Err IndexError
  end.

(** [t[i, j]]: the two index tensors are broadcast against each other and
    read pairwise. *)
Definition getitem2 (t : tensor) (i j : itensor) : result tensor :=
  match shape t with
  | n0 :: n1 :: s' =>
      rs <- mapM (norm_index n0) i ;;
      cs <- mapM (norm_index n1) j ;;
      match merge_dim (length i) (length j) with
      | None => Err IndexError
      | Some n =>
          Ok (tinit (n :: s')
                (fun idx =>
                   let k := nth 0 idx 0%nat in
                   get t (nth (if (length i =? 1)%nat then 0%nat else k) rs 0%nat
                          :: nth (if (length j =? 1)%nat then 0%nat else k) cs 0%nat
                          :: tl idx)))
      end
  | _ => Err IndexError
  end.

Definition replace_at (d k : nat) (idx : list nat) : list nat :=
  firstn d idx ++ k :: skipn (S d) idx.

(** [torch.index_add(self, dim, index, source)]: slice [t] of [source]
    along [dim] is added to slice [index[t]] of [self], one after the
    other. *)
Definition index_add_step (s : list nat) (dim : nat) (source : tensor)
    (acc : tensor) (tk : nat * nat) : tensor :=
  tinit s (fun idx =>
    if (nth dim idx 0 =? snd tk)%nat
    then get acc idx + get source (replace_at dim (fst tk) idx)
    else get acc idx).

Definition index_add (self : tensor) (dim : nat) (index : itensor)
    (source : tensor) : result tensor :=
  if negb (dim <? length (shape self))%nat then Err IndexError
  else if negb (shape_eqb (shape source)
                  (replace_at dim (length index) (shape self)))
  then Err RuntimeError
  else
    ks <- mapM (strict_index (nth dim (shape self) 0%nat)) index ;;
    Ok (fold_left (index_add_step (shape self) dim source)
          (combine (seq 0 (length ks)) ks) self).

(** *** Einstein summation *)

Definition env : Type := list (ascii * nat).

Fixpoint lookup (l : ascii) (e : env) : option nat :=
  match e with
  | [] => None
  | (l', n) :: e' => if Ascii.eqb l l' then Some n else lookup l e'
  end.

Fixpoint update (l : ascii) (n : nat) (e : env) : env :=
  match e with
  | [] => [(l, n)]
  | (l', m) :: e' =>
      if Ascii.eqb l l' then (l, n) :: e' else (l', m) :: update l n e'
  end.

Definition mem (l : ascii) (ls : list ascii) : bool :=
  existsb (Ascii.eqb l) ls.

(** ["tc,tc,t->c"] is read as the operand subscripts [tc], [tc], [t] and the
    output subscripts [c]. *)
Fixpoint parse_eq (s : string) (cur : list ascii) (ins : list (list ascii))
  : list (list ascii) * list ascii :=
  match s with
  | EmptyString => (ins, cur)
  | String c s' =>
      if Ascii.eqb c "," then parse_eq s' [] (ins ++ [cur])
      else if Ascii.eqb c "-" then parse_eq s' [] (ins ++ [cur])
      else if Ascii.eqb c ">" then parse_eq s' cur ins
      else parse_eq s' (cur ++ [c]) ins
  end.

(** The size of every subscript, collected over one operand. *)
Fixpoint bind_labels (ls : list ascii) (s : list nat) (e : env) : result env :=
  match ls, s with
  | [], [] => Ok e
  | l :: ls', n :: s' =>
      match lookup l e with
      | None => bind_labels ls' s' (update l n e)
      | Some m =>
          match merge_dim m n with
          | Some k => bind_labels ls' s' (update l k e)
          | None => Err RuntimeError
          end
      end
  | _, _ => Err RuntimeError
  end.

Fixpoint bind_all (ops : list (list ascii * tensor)) (e : env) : result env :=
  match ops with
  | [] => Ok e
  | (ls, t) :: ops' => e' <- bind_labels ls (shape t) e ;; bind_all ops' e'
  end.

Fixpoint out_shape (out : list ascii) (e : env) : result (list nat) :=
  match out with
  | [] => Ok []
  | l :: out' =>
      match lookup l e with
      | Some n => s <- out_shape out' e ;; Ok (n :: s)
      | None => Err RuntimeError
      end
  end.

(** Sum over all values of the subscripts that do not occur in the output. *)
Fixpoint esum (ls : env) (e : env) (body : env -> R) : R :=
  match ls with
  | [] => body e
  | (l, n) :: ls' => Rsum n (fun k => esum ls' ((l, k) :: e) body)
  end.

Definition eread (e : env) (op : list ascii * tensor) : R :=
  get (snd op)
    (bidx (shape (snd op))
       (map (fun l => match lookup l e with Some k => k | None => 0%nat end)
          (fst op))).

Definition einsum (eq : string) (ops : list tensor) : result tensor :=
  let '(ins, out) := parse_eq eq [] [] in
  if negb (length ins =? length ops)%nat then Err RuntimeError
  else
    e <- bind_all (combine ins ops) [] ;;
    s <- out_shape out e ;;
    Ok (tinit s (fun idx =>
          esum (filter (fun p => negb (mem (fst p) out)) e)
            (combine out idx)
            (fun e' => Rprod (map (eread e') (combine ins ops))))).

(** *** Matrix product, transposition, expansion *)

(** [t.T]: the dimensions in reverse order. *)
Definition transpose (t : tensor) : tensor :=
  tinit (rev (shape t)) (fun idx => get t (rev idx)).

(** [a @ b].  A one-dimensional left operand is read as one row and a
    one-dimensional right operand as one column, and the added dimension is
    dropped from the result; leading dimensions are batch dimensions and are
    broadcast. *)
Definition matmul (a b : tensor) : result tensor :=
  let ra := length (shape a) in
  let rb := length (shape b) in
  if ((ra =? 0) || (rb =? 0))%nat then Err RuntimeError
  else
    let sa := if (ra =? 1)%nat then 1%nat :: shape a else shape a in
    let sb := if (rb =? 1)%nat then shape b ++ [1%nat] else shape b in
    let ba := firstn (length sa - 2) sa in
    let bb := firstn (length sb - 2) sb in
    let n := nth (length sa - 2) sa 0%nat in
    let k := nth (length sa - 1) sa 0%nat in
    let k' := nth (length sb - 2) sb 0%nat in
    let p := nth (length sb - 1) sb 0%nat in
    if negb (k =? k')%nat then Err RuntimeError
    else
      match broadcast_shapes ba bb with
      | None => Err RuntimeError
      | Some batch =>
          let out :=
            tabulate (batch ++ [n; p])
              (fun idx =>
                 let bi := firstn (length batch) idx in
                 let i := nth (length batch) idx 0%nat in
                 let l := nth (S (length batch)) idx 0%nat in
                 Rsum k (fun j =>
                   get (mkT sa (data a)) (bidx ba bi ++ [i; j])
                   * get (mkT sb (data b)) (bidx bb bi ++ [j; l]))) in
          Ok (mkT (batch ++ (if (ra =? 1)%nat then [] else [n])
                         ++ (if (rb =? 1)%nat then [] else [p])) out)
      end.

Fixpoint expandable_rev (ts s : list nat) : bool :=
  match ts, s with
  | [], _ => true
  | _ :: _, [] => false
  | d :: ts', n :: s' => ((d =? n) || (d =? 1))%nat && expandable_rev ts' s'
  end.

(** [t.expand_as(other)]: dimensions of size 1 are repeated, new leading
    dimensions are added. *)
Definition expand_as (t other : tensor) : result tensor :=
  if expandable_rev (rev (shape t)) (rev (shape other))
  then Ok (tinit (shape other) (fun idx => get t (bidx (shape t) idx)))
  else Err RuntimeError.

(** [t.reshape(s)]: the same entries under another shape with as many
    entries. *)
Definition reshape (t : tensor) (s : list nat) : result tensor :=
  if (numel (shape t) =? numel s)%nat then Ok (mkT s (data t))
  else Err RuntimeError.

Definition swap_at (i j : nat) (l : list nat) : list nat :=
  map (fun k => nth (if (k =? i)%nat then j
                     else if (k =? j)%nat then i else k) l 0%nat)
    (seq 0 (length l)).

(** [t.transpose(i, j)]: two dimensions exchanged. *)
Definition transpose_dims (i j : nat) (t : tensor) : result tensor :=
  if ((i <? length (shape t)) && (j <? length (shape t)))%nat
  then Ok (tinit (swap_at i j (shape t)) (fun idx => get t (swap_at i j idx)))
  else Err IndexError.

(** [H, C, Ca = w.shape] *)
Definition unpack3 (s : list nat) : result (nat * nat * nat) :=
  match s with
  | [a; b; c] => Ok (a, b, c)
  | _ => Err ValueError
  end.

(** ** The operators *)

(** [Fn.apply(...)] runs [forward] and hands back its output; the saved
    context stays with the autograd engine. *)
Definition apply {A C : Type} (r : result (A * C)) : result A :=
  '(y, _) <- r ;; Ok y.

Module CrossEntropyFn.

Record ctx : Type := save_for_backward
    { saved_x : tensor; saved_y : itensor; saved_s : tensor }.

Definition forward (x : tensor) (y : itensor) : result (tensor * ctx) :=
    '(T, C) <- unpack2 (shape x) ;;
    let ex := tmap exp x in
    ex_sum <- tsum 1 ex ;;
    ex_sum1 <- unsqueeze 1 ex_sum ;;
    s <- tdiv ex ex_sum1 ;;
    let c := save_for_backward x y s in
    p <- getitem2 s (arange T) y ;;
    m <- tmean 0 (tmap ln p) ;;
    Ok (tmap Ropp m, c).

Definition backward (c : ctx) (y_grad : tensor)
    : result (option tensor * option tensor) :=
    let '(save_for_backward x y s) := c in
    '(T, C) <- unpack2 (shape x) ;;
    onehot <- getitem1 (eye C) y ;;
    d <- tsub s onehot ;;
    g <- tmul y_grad d ;;
    let dx := tmap (fun v => v / INR T) g in
    Ok (Some dx, None).

End CrossEntropyFn.

Module LayerNormFn.

Record ctx : Type := save_for_backward
    { saved_x : tensor; saved_gamma : tensor; saved_beta : tensor;
      saved_m : tensor; saved_mu : tensor; saved_v : tensor;
      saved_sigma : tensor; saved_y : tensor }.

Definition eps : R := 1 / 100000.

Definition rsqrt (a : R) : R := 1 / sqrt a.

Definition forward (x gamma beta : tensor) : result (tensor * ctx) :=
    m <- tmean 1 x ;;
    m1 <- unsqueeze 1 m ;;
    mu <- tsub x m1 ;;
    v <- tmean 1 (tmap (fun a => a ^ 2) mu) ;;
    let sigma := tmap rsqrt (tmap (fun a => a + eps) v) in
    sigma1 <- unsqueeze 1 sigma ;;
    xhat <- tmul mu sigma1 ;;
    gamma0 <- unsqueeze 0 gamma ;;
    scaled <- tmul xhat gamma0 ;;
    beta0 <- unsqueeze 0 beta ;;
    y <- tadd scaled beta0 ;;
    Ok (y, save_for_backward x gamma beta m mu v sigma y).

Definition backward (c : ctx) (y_grad : tensor)
    : result (tensor * tensor * tensor) :=
    let '(save_for_backward x gamma beta m mu v sigma y) := c in
    '(T, C) <- unpack2 (shape x) ;;
    dgamma <- einsum "tc,tc,t->c" [y_grad; mu; sigma] ;;
    dbeta <- tsum 0 y_grad ;;
    (* the direct term *)
    gamma0 <- unsqueeze 0 gamma ;;
    a1 <- tmul y_grad gamma0 ;;
    sigma1 <- unsqueeze 1 sigma ;;
    a <- tmul a1 sigma1 ;;
    (* the mean correction *)
    k1 <- pydiv 1 C ;;
    e1 <- einsum "tc,c,t->t" [y_grad; gamma; sigma] ;;
    e1u <- unsqueeze 1 e1 ;;
    let b := tmap (fun w => k1 * w) e1u in
    ab <- tsub a b ;;
    (* the variance correction *)
    k2 <- pydiv 1 C ;;
    let kmu := tmap (fun w => k2 * w) mu in
    e2 <- einsum "tc,c,tc,t->t" [y_grad; gamma; mu; tmap (fun w => w ^ 3) sigma] ;;
    e2u <- unsqueeze 1 e2 ;;
    d <- tmul kmu e2u ;;
    dx <- tsub ab d ;;
    Ok (dx, dgamma, dbeta).

End LayerNormFn.

Module LayerNorm.

Record t : Type := { gamma : tensor; beta : tensor }.

  (** [torch.empty] allocates without initialising: [junk] stands for
      whatever the memory held. *)
Definition empty (s : list nat) (junk : list nat -> R) : tensor :=
    tinit s junk.

Definition ones_ (p : tensor) : tensor := full (shape p) 1.
Definition zeros_ (p : tensor) : tensor := full (shape p) 0.

Definition init (c_dim : nat) (junk : list nat -> R) : t :=
    {| gamma := ones_ (empty [c_dim] junk);
       beta := zeros_ (empty [c_dim] junk) |}.

Definition forward (self : t) (x : tensor) : result tensor :=
    apply (LayerNormFn.forward x (gamma self) (beta self)).

End LayerNorm.

Module GELUFn.

Record ctx : Type := save_for_backward
    { saved_x : tensor; saved_a : tensor; saved_b : tensor }.

Definition forward (x : tensor) : result (tensor * ctx) :=
    let a := scalar (sqrt (2 / PI)) in
    inner <- tadd x (tmap (fun v => (44715 / 1000000) * v) (tmap (fun v => v ^ 3) x)) ;;
    b <- tmul a inner ;;
    let c := save_for_backward x a b in
    y <- tmul (tmap (fun v => (1 / 2) * v) x)
              (tmap (fun v => 1 + v) (tmap tanh b)) ;;
    Ok (y, c).

Definition backward (c : ctx) (y_grad : tensor) : result tensor :=
    let '(save_for_backward x a b) := c in
    db <- tmul a (tmap (fun v => 1 + v)
                    (tmap (fun v => (3 * (44715 / 1000000)) * v)
                       (tmap (fun v => v ^ 2) x))) ;;
    q <- tdiv x (tmap (fun v => v ^ 2) (tmap cosh b)) ;;
    qdb <- tmul q db ;;
    inner <- tadd (tmap (fun v => 1 + v) (tmap tanh b)) qdb ;;
    tmul (tmap (fun v => v * (1 / 2)) y_grad) inner.

End GELUFn.

Module AddFn.

Definition forward (a b : tensor) : result (tensor * unit) :=
    if shape_eqb (shape a) (shape b)
    then y <- tadd a b ;; Ok (y, tt)
    else Err AssertionError.

Definition backward (c : unit) (y_grad : tensor) : result (tensor * tensor) :=
    Ok (y_grad, y_grad).

End AddFn.

Module EmbeddingFn.

Record ctx : Type := save_for_backward
    { saved_x : itensor; saved_emb : tensor }.

Definition forward (x : itensor) (emb : tensor) : result (tensor * ctx) :=
    let c := save_for_backward x emb in
    y <- getitem1 emb x ;;
    Ok (y, c).

Definition backward (c : ctx) (y_grad : tensor)
    : result (option tensor * option tensor) :=
    let '(save_for_backward x emb) := c in
    demb <- index_add (zeros_like emb) 0 x y_grad ;;
    Ok (None, Some demb).

End EmbeddingFn.

Module LinearFn.

Record ctx : Type := save_for_backward
  { saved_x : tensor; saved_weight : tensor; saved_bias : tensor }.

Definition forward (x weight bias : tensor) : result (tensor * ctx) :=
  let c := save_for_backward x weight bias in
  out <- matmul x (transpose weight) ;;
  bias0 <- unsqueeze 0 bias ;;
  bias_e <- expand_as bias0 out ;;
  y <- tadd out bias_e ;;
  Ok (y, c).

Definition backward (c : ctx) (y_grad : tensor)
  : result (tensor * tensor * tensor) :=
  let '(save_for_backward x weight bias) := c in
  dx <- matmul y_grad weight ;;
  dw <- matmul (transpose y_grad) x ;;
  db <- tsum 0 y_grad ;;
  Ok (dx, dw, db).

End LinearFn.

(** The attention operator is unfinished in the source: it computes the
    queries, keys, values and scores and returns nothing. *)
Module MHAttentionFn.

Definition forward (x : tensor) (w_qkvo : list tensor) : result unit :=
  match w_qkvo with
  | [w_q; w_k; w_v; w_o] =>
      '(H, C, Ca) <- unpack3 (shape w_q) ;;
      '(T, C') <- unpack2 (shape x) ;;
      x' <- reshape x [H; T; Ca] ;;
      q <- matmul x' w_q ;;
      k <- matmul x' w_k ;;
      v <- matmul x' w_v ;;
      qt <- transpose_dims 1 2 q ;;
      s <- matmul k qt ;;
      Ok tt
  | _ => Err ValueError
  end.

End MHAttentionFn.

(** The modules own their parameters and hand them to the operator. *)

Module CrossEntropy.

Definition forward (x : tensor) (y : itensor) : result tensor :=
  apply (CrossEntropyFn.forward x y).

End CrossEntropy.

Module Linear.

Record t : Type := { weight : tensor; bias : tensor }.

Definition forward (self : t) (x : tensor) : result tensor :=
  apply (LinearFn.forward x (weight self) (bias self)).

End Linear.

Module GELU.

Definition forward (x : tensor) : result tensor :=
  apply (GELUFn.forward x).

End GELU.

Module Add.

Definition forward (a b : tensor) : result tensor :=
  apply (AddFn.forward a b).

End Add.

Module Embedding.

Record t : Type := { emb : tensor }.

Definition forward (self : t) (x : itensor) : result tensor :=
  apply (EmbeddingFn.forward x (emb self)).

End Embedding.

(** ** Specifications of tensors *)

(** [tspec t s g]: [t] is a well-formed tensor of shape [s] whose entry at
    every index [idx] is [g idx]. *)
Definition tspec (t : tensor) (s : list nat) (g : list nat -> R) : Prop :=
  shape t = s /\ wf t /\ forall idx, in_range s idx -> get t idx = g idx.

Definition is_mat (t : tensor) (T C : nat) (f : nat -> nat -> R) : Prop :=
  tspec t [T; C] (fun idx => f (nth 0 idx 0%nat) (nth 1 idx 0%nat)).

Definition is_vec (t : tensor) (n : nat) (f : nat -> R) : Prop :=
  tspec t [n] (fun idx => f (nth 0 idx 0%nat)).

Definition is_scalar (t : tensor) (r : R) : Prop :=
  tspec t [] (fun _ => r).

(** A well-formed matrix, vector or scalar, with its entries unconstrained. *)
Definition matrix (t : tensor) (T C : nat) : Prop := shape t = [T; C] /\ wf t.
Definition vector (t : tensor) (n : nat) : Prop := shape t = [n] /\ wf t.

(** An index vector with all entries in [0, n). *)
Definition indices_in (y : itensor) (n : nat) : Prop :=
  Forall (fun i => (0 <= i < Z.of_nat n)%Z) y.

(** Class or row read at position [t] of an index vector. *)
Definition idx_at (y : itensor) (t : nat) : nat := Z.to_nat (nth t y 0%Z).

(** *** Quantities named by the specification of layer normalisation *)

Definition row_mean (x : tensor) (C t : nat) : R :=
  Rsum C (fun c => get x [t; c]) / INR C.

Definition centered (x : tensor) (C t c : nat) : R :=
  get x [t; c] - row_mean x C t.

Definition row_var (x : tensor) (C t : nat) : R :=
  Rsum C (fun c => centered x C t c ^ 2) / INR C.

Definition inv_std (x : tensor) (C t : nat) : R :=
  1 / sqrt (row_var x C t + LayerNormFn.eps).

(** The normalised value before the gain and the bias are applied. *)
Definition normalized (x : tensor) (C t c : nat) : R :=
  centered x C t c * inv_std x C t.

(** Mean and variance of a row given by its entries. *)
Definition mean_of (C : nat) (r : nat -> R) : R := Rsum C r / INR C.

Definition var_of (C : nat) (r : nat -> R) : R :=
  Rsum C (fun c => (r c - mean_of C r) ^ 2) / INR C.

(** The value of [mu * sigma.unsqueeze(1)] at row [t] and feature [c], read
    from what [forward] saved. *)
Definition pre_affine (k : LayerNormFn.ctx) (t c : nat) : R :=
  get (LayerNormFn.saved_mu k) [t; c] * get (LayerNormFn.saved_sigma k) [t].

(** *** Quantities named by the specification of cross entropy *)

Definition softmax (x : tensor) (C t c : nat) : R :=
  exp (get x [t; c]) / Rsum C (fun c' => exp (get x [t; c'])).

Definition indicator (c k : nat) : R := if (c =? k)%nat then 1 else 0.

(** [indicator[c == target]] for a class [c] and an integer target. *)
Definition target_indicator (c : nat) (k : Z) : R :=
  if (Z.of_nat c =? k)%Z then 1 else 0.

(** *** Quantities named by the specification of GELU *)

Definition gelu_a : R := sqrt (2 / PI).

Definition gelu_b (x : R) : R := gelu_a * (x + (44715 / 1000000) * x ^ 3).

Definition gelu_db (x : R) : R := gelu_a * (1 + 3 * (44715 / 1000000) * x ^ 2).

Definition sech (x : R) : R := / cosh x.

Definition gelu_derivative (x : R) : R :=
  (1 / 2) * (1 + tanh (gelu_b x) + x * (sech (gelu_b x)) ^ 2 * gelu_db x).

(** *** Quantities used to state further properties *)

(** Inner product of two T x C arrays of entries, and of two vectors. *)
Definition inner2 (T C : nat) (a b : nat -> nat -> R) : R :=
  Rsum T (fun t => Rsum C (fun c => a t c * b t c)).

Definition inner1 (n : nat) (a b : nat -> R) : R :=
  Rsum n (fun i => a i * b i).

(** The entries of a matrix and of a vector. *)
Definition entries2 (t : tensor) : nat -> nat -> R := fun i j => get t [i; j].
Definition entries1 (t : tensor) : nat -> R := fun i => get t [i].

(** The scalar function [GELUFn.forward] applies to every entry. *)
Definition gelu (x : R) : R := 1 / 2 * x * (1 + tanh (gelu_b x)).

(** The value of a zero-dimensional result, as [.item()] reads it; 0 when
    the computation raised. *)
Definition item (r : result tensor) : R :=
  match r with
  | Ok t => get t []
  | Err _ => 0
  end.

(** [t] with the entry at [idx] replaced by [v]. *)
Definition tset (t : tensor) (idx : list nat) (v : R) : tensor :=
  tinit (shape t) (fun j => if shape_eqb j idx then v else get t j).

(** Parts of the cross-entropy loss that do not move when the logit at
    row [t0] and class [c0] moves: the exponentials of the other classes of
    row [t0], and the terms of the other rows. *)
Definition other_exps (x : tensor) (C t0 c0 : nat) : R :=
  Rsum C (fun c => if (c =? c0)%nat then 0 else exp (get x [t0; c])).

Definition other_rows (x : tensor) (y : itensor) (T C t0 : nat) : R :=
  Rsum T (fun t => if (t =? t0)%nat then 0
                   else ln (softmax x C t (idx_at y t))).

(** The exponential at the target of row [t0] when the logit at [c0] is [h]. *)
Definition target_exp (x : tensor) (y : itensor) (t0 c0 : nat) (h : R) : R :=
  if (idx_at y t0 =? c0)%nat then exp h else exp (get x [t0; idx_at y t0]).

(** Row [t0] of [x] with the entry at [c0] replaced by [h]. *)
Definition row_with (x : tensor) (t0 c0 : nat) (h : R) : nat -> R :=
  fun c => if (c =? c0)%nat then h else get x [t0; c].

(** The normalisation of one row given by its entries. *)
Definition normalize_row (C : nat) (r : nat -> R) (c : nat) : R :=
  (r c - mean_of C r) * (1 / sqrt (var_of C r + LayerNormFn.eps)).

(** The inner product of an upstream gradient with an output; 0 when the
    computation raised. *)
Definition paired (T C : nat) (g : tensor) (r : result tensor) : R :=
  match r with
  | Ok y => inner2 T C (entries2 g) (entries2 y)
  | Err _ => 0
  end.

(** ** Concrete inputs used by the examples below *)

Module Ex.

(** One row of two equal entries. *)
Definition x_const : tensor := mkT [1; 2]%nat [1; 1].
Definition x_row : tensor := mkT [1; 2]%nat [1; 3].
Definition ones2 : tensor := mkT [2]%nat [1; 1].
Definition zeros2 : tensor := mkT [2]%nat [0; 0].
Definition g_row : tensor := mkT [1; 2]%nat [1; 2].

(** A matrix with one row and no feature, and vectors of length zero. *)
Definition x_nofeat : tensor := mkT [1; 0]%nat [].
Definition v_empty : tensor := mkT [0]%nat [].

(** Logits of one row, and of three rows, over two classes. *)
Definition logits1 : tensor := mkT [1; 2]%nat [0; 0].
Definition logits3 : tensor := mkT [3; 2]%nat [0; 0; 0; 0; 0; 0].
Definition logits2 : tensor := mkT [2; 2]%nat [0; 0; 0; 0].

(** An embedding table of two rows and an upstream gradient of three. *)
Definition table : tensor := mkT [2; 2]%nat [5; 6; 7; 8].
Definition g_rows : tensor := mkT [3; 2]%nat [1; 2; 3; 4; 5; 6].

Definition v3 : tensor := mkT [3]%nat [1; 2; 3].
Definition w3 : tensor := mkT [3]%nat [4; 5; 6].

End Ex.

(** ** Sums *)

Section Sums.

Lemma Rsum_seq_ext (f g : nat -> R) (a n : nat) :
    (forall k, (a <= k < a + n)%nat -> f k = g k) ->
    fold_right (fun k acc => f k + acc) 0 (seq a n)
    = fold_right (fun k acc => g k + acc) 0 (seq a n).
  Proof.
    revert a; induction n as [|n IH]; intros a H; simpl; [reflexivity|].
    rewrite H by lia. f_equal. apply IH. intros k Hk. apply H. lia.
  Qed.

Lemma Rsum_ext (n : nat) (f g : nat -> R) :
    (forall k, (k < n)%nat -> f k = g k) -> Rsum n f = Rsum n g.
  Proof.
    intros H. unfold Rsum. apply Rsum_seq_ext. intros k Hk. apply H. lia.
  Qed.

Lemma Rsum_S (n : nat) (f : nat -> R) :
    Rsum (S n) f = Rsum n f + f n.
  Proof.
    unfold Rsum. rewrite seq_S, fold_right_app. simpl.
    generalize (seq 0 n) as l. induction l as [|a l IH]; simpl.
    - lra.
    - rewrite IH. lra.
  Qed.

Lemma Rsum_0 (f : nat -> R) : Rsum 0 f = 0.
  Proof. reflexivity. Qed.

Lemma Rsum_plus (n : nat) (f g : nat -> R) :
    Rsum n (fun k => f k + g k) = Rsum n f + Rsum n g.
  Proof.
    induction n as [|n IH]; [rewrite !Rsum_0; lra|].
    rewrite !Rsum_S, IH. lra.
  Qed.

Lemma Rsum_minus (n : nat) (f g : nat -> R) :
    Rsum n (fun k => f k - g k) = Rsum n f - Rsum n g.
  Proof.
    induction n as [|n IH]; [rewrite !Rsum_0; lra|].
    rewrite !Rsum_S, IH. lra.
  Qed.

Lemma Rsum_scal_l (n : nat) (c : R) (f : nat -> R) :
    Rsum n (fun k => c * f k) = c * Rsum n f.
  Proof.
    induction n as [|n IH]; [rewrite !Rsum_0; lra|].
    rewrite !Rsum_S, IH. lra.
  Qed.

Lemma Rsum_scal_r (n : nat) (c : R) (f : nat -> R) :
    Rsum n (fun k => f k * c) = Rsum n f * c.
  Proof.
    induction n as [|n IH]; [rewrite !Rsum_0; lra|].
    rewrite !Rsum_S, IH. lra.
  Qed.

Lemma Rsum_const (n : nat) (c : R) : Rsum n (fun _ => c) = INR n * c.
  Proof.
    induction n as [|n IH]; [rewrite Rsum_0; simpl; lra|].
    rewrite Rsum_S, IH, S_INR. lra.
  Qed.

Lemma Rsum_opp (n : nat) (f : nat -> R) :
    Rsum n (fun k => - f k) = - Rsum n f.
  Proof.
    induction n as [|n IH]; [rewrite !Rsum_0; lra|].
    rewrite !Rsum_S, IH. lra.
  Qed.

Lemma Rsum_nonneg (n : nat) (f : nat -> R) :
    (forall k, (k < n)%nat -> 0 <= f k) -> 0 <= Rsum n f.
  Proof.
    induction n as [|n IH]; intros H; [rewrite Rsum_0; lra|].
    rewrite Rsum_S. specialize (H n (Nat.lt_succ_diag_r n)) as Hn.
    assert (0 <= Rsum n f) by (apply IH; intros; apply H; lia). lra.
  Qed.

Lemma Rsum_pos (n : nat) (f : nat -> R) :
    (0 < n)%nat -> (forall k, (k < n)%nat -> 0 < f k) -> 0 < Rsum n f.
  Proof.
    intros Hn H. destruct n as [|n]; [lia|]. rewrite Rsum_S.
    assert (0 <= Rsum n f).
    { apply Rsum_nonneg. intros k Hk. apply Rlt_le, H. lia. }
    specialize (H n (Nat.lt_succ_diag_r n)). lra.
  Qed.

  (** The indicator of one position sums to one. *)
Lemma Rsum_indicator (n j : nat) :
    (j < n)%nat -> Rsum n (fun k => if (j =? k)%nat then 1 else 0) = 1.
  Proof.
    induction n as [|n IH]; intros Hj; [lia|].
    rewrite Rsum_S. destruct (Nat.eq_dec j n) as [->|Hne].
    - rewrite Nat.eqb_refl.
      rewrite (Rsum_ext n _ (fun _ => 0)), Rsum_const; [lra|].
      intros k Hk. destruct (Nat.eqb_spec n k); [lia|reflexivity].
    - rewrite IH by lia. destruct (Nat.eqb_spec j n); [lia|lra].
  Qed.

  (** Only the selected positions contribute to a sum guarded by a test. *)
Lemma Rsum_indicator_mult (n j : nat) (f : nat -> R) :
    (j < n)%nat ->
    Rsum n (fun k => (if (j =? k)%nat then 1 else 0) * f k) = f j.
  Proof.
    induction n as [|n IH]; intros Hj; [lia|].
    rewrite Rsum_S. destruct (Nat.eq_dec j n) as [->|Hne].
    - rewrite Nat.eqb_refl.
      rewrite (Rsum_ext n _ (fun _ => 0)), Rsum_const; [lra|].
      intros k Hk. destruct (Nat.eqb_spec n k); [lia|lra].
    - rewrite IH by lia. destruct (Nat.eqb_spec j n); [lia|lra].
  Qed.

End Sums.

(** ** Row-major storage *)

Section Storage.

Lemma flat_map_ext_in {A B : Type} (f g : A -> list B) (l : list A) :
  (forall a, In a l -> f a = g a) -> flat_map f l = flat_map g l.
Proof.
  induction l as [|a l IH]; intros H; simpl; [reflexivity|].
  rewrite (H a) by (left; reflexivity). f_equal.
  apply IH. intros b Hb. apply H. right. exact Hb.
Qed.

Lemma length_flat_map_const {A B : Type} (g : A -> list B) (m : nat) (l : list A) :
  (forall a, length (g a) = m) -> length (flat_map g l) = (length l * m)%nat.
Proof.
  intros H. induction l as [|a l IH]; simpl; [reflexivity|].
  rewrite length_app, H, IH. reflexivity.
Qed.

Lemma nth_flat_map_block {A B : Type} (g : A -> list B) (m : nat) (da : A)
    (d : B) (l : list A) :
  (forall a, length (g a) = m) ->
  forall i j, (i < length l)%nat -> (j < m)%nat ->
  nth (i * m + j) (flat_map g l) d = nth j (g (nth i l da)) d.
Proof.
  intros Hlen. induction l as [|a l IH]; intros i j Hi Hj; simpl in Hi; [lia|].
  destruct i as [|i]; simpl.
  - rewrite app_nth1 by (rewrite Hlen; exact Hj). reflexivity.
  - rewrite app_nth2 by (rewrite Hlen; lia).
    rewrite Hlen. replace (m + i * m + j - m)%nat with (i * m + j)%nat by lia.
    apply IH; lia.
Qed.

Lemma length_tabulate (s : list nat) (f : list nat -> R) :
  length (tabulate s f) = numel s.
Proof.
  revert f. induction s as [|n s IH]; intros f; simpl; [reflexivity|].
  rewrite (length_flat_map_const _ (numel s)) by (intros; apply IH).
  rewrite length_seq. reflexivity.
Qed.

Lemma offset_lt (s idx : list nat) :
  in_range s idx -> (offset s idx < numel s)%nat.
Proof.
  intros H. induction H as [|i n idx s Hi _ IH]; simpl; [lia|].
  nia.
Qed.

Lemma nth_tabulate (s idx : list nat) (f : list nat -> R) :
  in_range s idx -> nth (offset s idx) (tabulate s f) 0 = f idx.
Proof.
  intros H. revert f. induction H as [|i n idx s Hi Hr IH]; intros f; simpl.
  - reflexivity.
  - rewrite (nth_flat_map_block _ (numel s) 0%nat).
    + rewrite seq_nth by exact Hi. simpl. apply IH.
    + intros a. apply length_tabulate.
    + rewrite length_seq. exact Hi.
    + apply offset_lt. exact Hr.
Qed.

Lemma tabulate_ext (s : list nat) (f g : list nat -> R) :
  (forall idx, in_range s idx -> f idx = g idx) -> tabulate s f = tabulate s g.
Proof.
  revert f g. induction s as [|n s IH]; intros f g H; simpl.
  - rewrite (H []) by constructor. reflexivity.
  - apply flat_map_ext_in. intros i Hi. apply in_seq in Hi.
    apply IH. intros idx Hidx. apply H. constructor; [lia|exact Hidx].
Qed.

Lemma tspec_tinit (s : list nat) (f : list nat -> R) : tspec (tinit s f) s f.
Proof.
  split; [reflexivity|]. split.
  - unfold wf. simpl. apply length_tabulate.
  - intros idx H. unfold get. simpl. apply nth_tabulate. exact H.
Qed.

Lemma tspec_ext (t : tensor) (s : list nat) (f g : list nat -> R) :
  tspec t s f -> (forall idx, in_range s idx -> f idx = g idx) -> tspec t s g.
Proof.
  intros (Hs & Hw & Hg) H. split; [exact Hs|]. split; [exact Hw|].
  intros idx Hi. rewrite Hg by exact Hi. apply H. exact Hi.
Qed.

Lemma tspec_get (t : tensor) (s : list nat) :
  shape t = s -> wf t -> tspec t s (get t).
Proof. intros Hs Hw. split; [exact Hs|]. split; [exact Hw|]. reflexivity. Qed.

Lemma tspec_tmap (h : R -> R) (t : tensor) (s : list nat) (g : list nat -> R) :
  tspec t s g -> tspec (tmap h t) s (fun idx => h (g idx)).
Proof.
  intros (Hs & Hw & Hg). split; [exact Hs|]. split.
  - unfold wf, tmap. simpl. rewrite length_map. exact Hw.
  - intros idx Hi. unfold get, tmap. simpl.
    rewrite <- (Hg idx Hi). unfold get.
    rewrite (nth_indep _ 0 (h 0)).
    + apply map_nth.
    + rewrite length_map, Hw, Hs. apply offset_lt. exact Hi.
Qed.

Lemma tinit_ext (s : list nat) (f g : list nat -> R) :
  (forall idx, in_range s idx -> f idx = g idx) -> tinit s f = tinit s g.
Proof. intros H. unfold tinit. f_equal. apply tabulate_ext. exact H. Qed.

End Storage.

(** ** Broadcasting *)

Section Broadcasting.

Lemma Forall2_rev_lt (idx s : list nat) :
  Forall2 lt idx s -> Forall2 lt (rev idx) (rev s).
Proof.
  intros H. induction H as [|i n idx s Hi _ IH]; simpl; [constructor|].
  apply Forall2_app; [exact IH|]. constructor; [exact Hi|constructor].
Qed.

Lemma bshape_rev_refl (s : list nat) : bshape_rev s s = Some s.
Proof.
  induction s as [|n s IH]; simpl; [reflexivity|].
  rewrite IH, Nat.eqb_refl. reflexivity.
Qed.

Lemma broadcast_shapes_refl (s : list nat) : broadcast_shapes s s = Some s.
Proof.
  unfold broadcast_shapes. rewrite bshape_rev_refl. simpl.
  rewrite rev_involutive. reflexivity.
Qed.

Lemma broadcast_shapes_nil_l (s : list nat) : broadcast_shapes [] s = Some s.
Proof.
  unfold broadcast_shapes. simpl. rewrite rev_involutive. reflexivity.
Qed.

Lemma bidx_rev_id (s idx : list nat) :
  Forall2 lt idx s -> bidx_rev s idx = idx.
Proof.
  intros H. induction H as [|i n idx s Hi _ IH]; simpl; [reflexivity|].
  rewrite IH. destruct (Nat.eqb_spec n 1) as [->|_]; [|reflexivity].
  f_equal. lia.
Qed.

Lemma bidx_id (s idx : list nat) : in_range s idx -> bidx s idx = idx.
Proof.
  intros H. unfold bidx. rewrite bidx_rev_id by (apply Forall2_rev_lt, H).
  apply rev_involutive.
Qed.

Lemma bidx_nil (idx : list nat) : bidx [] idx = [].
Proof. reflexivity. Qed.

Lemma in_range_nil (idx : list nat) : in_range [] idx -> idx = [].
Proof. intros H. inversion H. reflexivity. Qed.

Lemma in_range_1 (n : nat) (idx : list nat) :
  in_range [n] idx -> exists i, idx = [i] /\ (i < n)%nat.
Proof.
  intros H. inversion H as [|i ? idx' ? Hi Hr]; subst.
  apply in_range_nil in Hr. subst. exists i. split; [reflexivity|exact Hi].
Qed.

Lemma in_range_2 (T C : nat) (idx : list nat) :
  in_range [T; C] idx -> exists t c, idx = [t; c] /\ (t < T)%nat /\ (c < C)%nat.
Proof.
  intros H. inversion H as [|t ? idx' ? Ht Hr]; subst.
  apply in_range_1 in Hr. destruct Hr as (c & -> & Hc).
  exists t, c. repeat split; assumption.
Qed.

Lemma in_range_1_intro (n i : nat) : (i < n)%nat -> in_range [n] [i].
Proof. intros H. constructor; [exact H|constructor]. Qed.

Lemma in_range_2_intro (T C t c : nat) :
  (t < T)%nat -> (c < C)%nat -> in_range [T; C] [t; c].
Proof. intros Ht Hc. constructor; [exact Ht|]. apply in_range_1_intro, Hc. Qed.

Lemma broadcast_shapes_col (T C : nat) :
  broadcast_shapes [T; C] [T; 1%nat] = Some [T; C].
Proof.
  unfold broadcast_shapes. simpl. rewrite Nat.eqb_refl.
  destruct (C =? 1)%nat; reflexivity.
Qed.

Lemma broadcast_shapes_row (T C : nat) :
  broadcast_shapes [T; C] [1%nat; C] = Some [T; C].
Proof.
  unfold broadcast_shapes. simpl. rewrite Nat.eqb_refl.
  destruct (Nat.eqb_spec T 1) as [->|_]; reflexivity.
Qed.

Lemma bidx_col (T t c : nat) : (t < T)%nat -> bidx [T; 1%nat] [t; c] = [t; 0%nat].
Proof.
  intros Ht. unfold bidx. simpl.
  destruct (Nat.eqb_spec T 1) as [->|_]; [|reflexivity].
  f_equal. lia.
Qed.

Lemma bidx_row (C t c : nat) : (c < C)%nat -> bidx [1%nat; C] [t; c] = [0%nat; c].
Proof.
  intros Hc. unfold bidx. simpl.
  destruct (Nat.eqb_spec C 1) as [->|_]; [|reflexivity].
  do 2 f_equal. lia.
Qed.

Lemma binop_same (f : R -> R -> R) (a b : tensor) (s : list nat)
    (fa fb : list nat -> R) :
  tspec a s fa -> tspec b s fb ->
  exists r, binop f a b = Ok r /\ tspec r s (fun idx => f (fa idx) (fb idx)).
Proof.
  intros (Ha & _ & Hga) (Hb & _ & Hgb). unfold binop.
  rewrite Ha, Hb, broadcast_shapes_refl. eexists. split; [reflexivity|].
  eapply tspec_ext; [apply tspec_tinit|].
  intros idx Hi. simpl. rewrite bidx_id by exact Hi.
  rewrite Hga, Hgb by exact Hi. reflexivity.
Qed.

Lemma binop_scalar_l (f : R -> R -> R) (a b : tensor) (s : list nat)
    (r : R) (fb : list nat -> R) :
  is_scalar a r -> tspec b s fb ->
  exists y, binop f a b = Ok y /\ tspec y s (fun idx => f r (fb idx)).
Proof.
  intros (Ha & _ & Hga) (Hb & _ & Hgb). unfold binop.
  rewrite Ha, Hb, broadcast_shapes_nil_l. eexists. split; [reflexivity|].
  eapply tspec_ext; [apply tspec_tinit|].
  intros idx Hi. simpl. rewrite (bidx_id s) by exact Hi.
  rewrite bidx_nil, Hga by constructor. rewrite Hgb by exact Hi. reflexivity.
Qed.

Lemma binop_mat_col (f : R -> R -> R) (a b : tensor) (T C : nat)
    (fa fb : nat -> nat -> R) :
  is_mat a T C fa -> is_mat b T 1 fb ->
  exists r, binop f a b = Ok r /\ is_mat r T C (fun t c => f (fa t c) (fb t 0%nat)).
Proof.
  intros (Ha & _ & Hga) (Hb & _ & Hgb). unfold binop.
  rewrite Ha, Hb, broadcast_shapes_col. eexists. split; [reflexivity|].
  eapply tspec_ext; [apply tspec_tinit|].
  intros idx Hi. simpl. rewrite bidx_id by exact Hi.
  rewrite Hga by exact Hi.
  apply in_range_2 in Hi. destruct Hi as (t & c & -> & Ht & Hc).
  rewrite bidx_col by exact Ht.
  rewrite Hgb by (apply in_range_2_intro; lia). reflexivity.
Qed.

Lemma binop_mat_row (f : R -> R -> R) (a b : tensor) (T C : nat)
    (fa fb : nat -> nat -> R) :
  is_mat a T C fa -> is_mat b 1 C fb ->
  exists r, binop f a b = Ok r /\ is_mat r T C (fun t c => f (fa t c) (fb 0%nat c)).
Proof.
  intros (Ha & _ & Hga) (Hb & _ & Hgb). unfold binop.
  rewrite Ha, Hb, broadcast_shapes_row. eexists. split; [reflexivity|].
  eapply tspec_ext; [apply tspec_tinit|].
  intros idx Hi. simpl. rewrite bidx_id by exact Hi.
  rewrite Hga by exact Hi.
  apply in_range_2 in Hi. destruct Hi as (t & c & -> & Ht & Hc).
  rewrite bidx_row by exact Hc.
  rewrite Hgb by (apply in_range_2_intro; lia). reflexivity.
Qed.

End Broadcasting.

(** ** Reductions and reshaping *)

Section Reductions.

Lemma tsum1_mat (x : tensor) (T C : nat) (f : nat -> nat -> R) :
  is_mat x T C f ->
  exists r, tsum 1 x = Ok r /\ is_vec r T (fun t => Rsum C (fun c => f t c)).
Proof.
  intros (Hs & _ & Hg). unfold tsum. rewrite Hs. simpl.
  eexists. split; [reflexivity|].
  eapply tspec_ext; [apply tspec_tinit|].
  intros idx Hi. apply in_range_1 in Hi. destruct Hi as (t & -> & Ht).
  simpl. apply Rsum_ext. intros c Hc.
  unfold insert_at. simpl.
  rewrite Hg by (apply in_range_2_intro; assumption). reflexivity.
Qed.

Lemma tsum0_mat (x : tensor) (T C : nat) (f : nat -> nat -> R) :
  is_mat x T C f ->
  exists r, tsum 0 x = Ok r /\ is_vec r C (fun c => Rsum T (fun t => f t c)).
Proof.
  intros (Hs & _ & Hg). unfold tsum. rewrite Hs. simpl.
  eexists. split; [reflexivity|].
  eapply tspec_ext; [apply tspec_tinit|].
  intros idx Hi. apply in_range_1 in Hi. destruct Hi as (c & -> & Hc).
  simpl. apply Rsum_ext. intros t Ht.
  unfold insert_at. simpl.
  rewrite Hg by (apply in_range_2_intro; assumption). reflexivity.
Qed.

Lemma tsum0_vec (p : tensor) (n : nat) (f : nat -> R) :
  is_vec p n f -> exists r, tsum 0 p = Ok r /\ is_scalar r (Rsum n f).
Proof.
  intros (Hs & _ & Hg). unfold tsum. rewrite Hs. simpl.
  eexists. split; [reflexivity|].
  eapply tspec_ext; [apply tspec_tinit|].
  intros idx Hi. apply in_range_nil in Hi. subst idx.
  simpl. apply Rsum_ext. intros k Hk.
  unfold insert_at. simpl.
  rewrite Hg by (apply in_range_1_intro; assumption). reflexivity.
Qed.

Lemma tmean1_mat (x : tensor) (T C : nat) (f : nat -> nat -> R) :
  is_mat x T C f ->
  exists r, tmean 1 x = Ok r
            /\ is_vec r T (fun t => Rsum C (fun c => f t c) / INR C).
Proof.
  intros H. destruct (tsum1_mat _ _ _ _ H) as (r & Hr & Hspec).
  unfold tmean. rewrite Hr. simpl. eexists. split; [reflexivity|].
  destruct H as (Hs & _). rewrite Hs. simpl.
  apply (tspec_tmap (fun v => v / INR C)) in Hspec. exact Hspec.
Qed.

Lemma tmean0_vec (p : tensor) (n : nat) (f : nat -> R) :
  is_vec p n f -> exists r, tmean 0 p = Ok r /\ is_scalar r (Rsum n f / INR n).
Proof.
  intros H. destruct (tsum0_vec _ _ _ H) as (r & Hr & Hspec).
  unfold tmean. rewrite Hr. simpl. eexists. split; [reflexivity|].
  destruct H as (Hs & _). rewrite Hs. simpl.
  apply (tspec_tmap (fun v => v / INR n)) in Hspec. exact Hspec.
Qed.

Lemma unsqueeze1_vec (v : tensor) (n : nat) (f : nat -> R) :
  is_vec v n f ->
  exists r, unsqueeze 1 v = Ok r /\ is_mat r n 1 (fun t _ => f t).
Proof.
  intros (Hs & Hw & Hg). unfold unsqueeze. rewrite Hs. simpl.
  eexists. split; [reflexivity|]. split; [reflexivity|]. split.
  - unfold wf in *. simpl. rewrite Hw, Hs. simpl. lia.
  - intros idx Hi. apply in_range_2 in Hi. destruct Hi as (t & c & -> & Ht & Hc).
    pose proof (Hg [t] (in_range_1_intro _ _ Ht)) as E. simpl in *.
    rewrite <- E. unfold get. rewrite Hs. simpl. f_equal. lia.
Qed.

Lemma unsqueeze0_vec (v : tensor) (n : nat) (f : nat -> R) :
  is_vec v n f ->
  exists r, unsqueeze 0 v = Ok r /\ is_mat r 1 n (fun _ c => f c).
Proof.
  intros (Hs & Hw & Hg). unfold unsqueeze. rewrite Hs. simpl.
  eexists. split; [reflexivity|]. split; [reflexivity|]. split.
  - unfold wf in *. simpl. rewrite Hw, Hs. simpl. lia.
  - intros idx Hi. apply in_range_2 in Hi. destruct Hi as (t & c & -> & Ht & Hc).
    pose proof (Hg [c] (in_range_1_intro _ _ Hc)) as E. simpl in *.
    rewrite <- E. unfold get. rewrite Hs. simpl. f_equal. lia.
Qed.

End Reductions.


(** ** Einstein summation on the subscripts used by layer normalisation *)

Section Einsum.

Lemma merge_dim_refl (n : nat) : merge_dim n n = Some n.
Proof. unfold merge_dim. rewrite Nat.eqb_refl. reflexivity. Qed.

Ltac einsum_run :=
  unfold einsum;
  cbn [parse_eq Ascii.eqb Bool.eqb app length Nat.eqb negb combine bind_all bind];
  repeat match goal with H : shape _ = _ |- _ => rewrite H end;
  repeat (cbn [bind_labels lookup update Ascii.eqb Bool.eqb bind out_shape
               filter mem existsb fst snd negb orb];
          rewrite ?merge_dim_refl).

Ltac eread_run :=
  unfold eread;
  cbn [fst snd map lookup Ascii.eqb Bool.eqb Rprod fold_right];
  repeat match goal with H : shape _ = _ |- _ => rewrite H end.

Ltac in_range_tac :=
  (apply in_range_2_intro || apply in_range_1_intro); assumption.

Lemma einsum_tc_tc_t_c (a b s : tensor) (T C : nat)
    (fa fb : nat -> nat -> R) (fs : nat -> R) :
  is_mat a T C fa -> is_mat b T C fb -> is_vec s T fs ->
  exists r, einsum "tc,tc,t->c" [a; b; s] = Ok r
    /\ is_vec r C (fun c => Rsum T (fun t => fa t c * fb t c * fs t)).
Proof.
  intros (Ha & _ & Hga) (Hb & _ & Hgb) (Hs & _ & Hgs).
  einsum_run.
  eexists. split; [reflexivity|].
  eapply tspec_ext; [apply tspec_tinit|].
  intros idx Hi. apply in_range_1 in Hi. destruct Hi as (c & -> & Hc).
  cbn [esum combine nth]. apply Rsum_ext. intros t Ht.
  eread_run.
  rewrite !bidx_id by in_range_tac.
  rewrite Hga, Hgb by in_range_tac.
  rewrite Hgs by in_range_tac.
  simpl. ring.
Qed.

Lemma einsum_tc_c_t_t (a g s : tensor) (T C : nat)
    (fa : nat -> nat -> R) (fg fs : nat -> R) :
  is_mat a T C fa -> is_vec g C fg -> is_vec s T fs ->
  exists r, einsum "tc,c,t->t" [a; g; s] = Ok r
    /\ is_vec r T (fun t => Rsum C (fun c => fa t c * fg c * fs t)).
Proof.
  intros (Ha & _ & Hga) (Hg & _ & Hgg) (Hs & _ & Hgs).
  einsum_run.
  eexists. split; [reflexivity|].
  eapply tspec_ext; [apply tspec_tinit|].
  intros idx Hi. apply in_range_1 in Hi. destruct Hi as (t & -> & Ht).
  cbn [esum combine nth]. apply Rsum_ext. intros c Hc.
  eread_run.
  rewrite !bidx_id by in_range_tac.
  rewrite Hga by in_range_tac.
  rewrite Hgg, Hgs by in_range_tac.
  simpl. ring.
Qed.

Lemma einsum_tc_c_tc_t_t (a g m s : tensor) (T C : nat)
    (fa fm : nat -> nat -> R) (fg fs : nat -> R) :
  is_mat a T C fa -> is_vec g C fg -> is_mat m T C fm -> is_vec s T fs ->
  exists r, einsum "tc,c,tc,t->t" [a; g; m; s] = Ok r
    /\ is_vec r T (fun t => Rsum C (fun c => fa t c * fg c * fm t c * fs t)).
Proof.
  intros (Ha & _ & Hga) (Hg & _ & Hgg) (Hm & _ & Hgm) (Hs & _ & Hgs).
  einsum_run.
  eexists. split; [reflexivity|].
  eapply tspec_ext; [apply tspec_tinit|].
  intros idx Hi. apply in_range_1 in Hi. destruct Hi as (t & -> & Ht).
  cbn [esum combine nth]. apply Rsum_ext. intros c Hc.
  eread_run.
  rewrite !bidx_id by in_range_tac.
  rewrite Hga, Hgm by in_range_tac.
  rewrite Hgg, Hgs by in_range_tac.
  simpl. ring.
Qed.

End Einsum.

(** ** Matrices and vectors *)

Section Matrices.

Lemma matrix_is_mat (x : tensor) (T C : nat) :
  matrix x T C -> is_mat x T C (fun t c => get x [t; c]).
Proof.
  intros (Hs & Hw). eapply tspec_ext; [apply tspec_get; eassumption|].
  intros idx Hi. apply in_range_2 in Hi. destruct Hi as (t & c & -> & _).
  reflexivity.
Qed.

Lemma vector_is_vec (x : tensor) (n : nat) :
  vector x n -> is_vec x n (fun i => get x [i]).
Proof.
  intros (Hs & Hw). eapply tspec_ext; [apply tspec_get; eassumption|].
  intros idx Hi. apply in_range_1 in Hi. destruct Hi as (t & -> & _).
  reflexivity.
Qed.

Lemma is_mat_ext (t : tensor) (T C : nat) (f g : nat -> nat -> R) :
  is_mat t T C f ->
  (forall i j, (i < T)%nat -> (j < C)%nat -> f i j = g i j) -> is_mat t T C g.
Proof.
  intros H E. eapply tspec_ext; [exact H|].
  intros idx Hi. apply in_range_2 in Hi. destruct Hi as (i & j & -> & Hi & Hj).
  simpl. apply E; assumption.
Qed.

Lemma is_vec_ext (t : tensor) (n : nat) (f g : nat -> R) :
  is_vec t n f -> (forall i, (i < n)%nat -> f i = g i) -> is_vec t n g.
Proof.
  intros H E. eapply tspec_ext; [exact H|].
  intros idx Hi. apply in_range_1 in Hi. destruct Hi as (i & -> & Hi).
  simpl. apply E; assumption.
Qed.

Lemma is_mat_tmap (h : R -> R) (t : tensor) (T C : nat) (f : nat -> nat -> R) :
  is_mat t T C f -> is_mat (tmap h t) T C (fun i j => h (f i j)).
Proof. intros H. exact (tspec_tmap h _ _ _ H). Qed.

Lemma is_vec_tmap (h : R -> R) (t : tensor) (n : nat) (f : nat -> R) :
  is_vec t n f -> is_vec (tmap h t) n (fun i => h (f i)).
Proof. intros H. exact (tspec_tmap h _ _ _ H). Qed.

End Matrices.

(** ** Layer normalisation: what [forward] computes and saves *)

(** One line of a monadic body: the operation succeeds with a result [r]
    that satisfies [S]. *)
Ltac step L r S :=
  let E := fresh "E" in
  destruct L as (r & E & S); rewrite E; clear E; cbn [bind].

Lemma LayerNorm_forward_spec (x gamma beta : tensor) (T C : nat) :
  matrix x T C -> vector gamma C -> vector beta C ->
  exists y m mu v sigma,
    LayerNormFn.forward x gamma beta
    = Ok (y, LayerNormFn.save_for_backward x gamma beta m mu v sigma y)
    /\ is_mat mu T C (centered x C)
    /\ is_vec sigma T (inv_std x C)
    /\ is_mat y T C
         (fun t c => normalized x C t c * get gamma [c] + get beta [c]).
Proof.
  intros Hx Hg Hb.
  apply matrix_is_mat in Hx. apply vector_is_vec in Hg, Hb.
  unfold LayerNormFn.forward, tsub, tmul, tadd.
  step (tmean1_mat _ _ _ _ Hx) m Sm.
  step (unsqueeze1_vec _ _ _ Sm) m1 Sm1.
  step (binop_mat_col Rminus _ _ _ _ _ _ Hx Sm1) mu Smu.
  change (is_mat mu T C (centered x C)) in Smu.
  step (tmean1_mat _ _ _ _ (is_mat_tmap (fun a => a ^ 2) _ _ _ _ Smu)) v Sv.
  pose proof (is_vec_tmap LayerNormFn.rsqrt _ _ _
                (is_vec_tmap (fun a => a + LayerNormFn.eps) _ _ _ Sv)) as Ssig.
  change (is_vec (tmap LayerNormFn.rsqrt (tmap (fun a => a + LayerNormFn.eps) v))
            T (inv_std x C)) in Ssig.
  step (unsqueeze1_vec _ _ _ Ssig) sigma1 Ssigma1.
  step (binop_mat_col Rmult _ _ _ _ _ _ Smu Ssigma1) xhat Sxhat.
  step (unsqueeze0_vec _ _ _ Hg) gamma0 Sgamma0.
  step (binop_mat_row Rmult _ _ _ _ _ _ Sxhat Sgamma0) scaled Sscaled.
  step (unsqueeze0_vec _ _ _ Hb) beta0 Sbeta0.
  step (binop_mat_row Rplus _ _ _ _ _ _ Sscaled Sbeta0) y Sy.
  do 5 eexists. split; [reflexivity|].
  split; [exact Smu|]. split; [exact Ssig|]. exact Sy.
Qed.

Lemma pydiv_pos (a b : nat) : (0 < b)%nat -> pydiv a b = Ok (INR a / INR b).
Proof.
  intros H. unfold pydiv. destruct (Nat.eqb_spec b 0); [lia|reflexivity].
Qed.

Lemma binop_mat_mat (f : R -> R -> R) (a b : tensor) (T C : nat)
    (fa fb : nat -> nat -> R) :
  is_mat a T C fa -> is_mat b T C fb ->
  exists r, binop f a b = Ok r /\ is_mat r T C (fun t c => f (fa t c) (fb t c)).
Proof. intros Ha Hb. exact (binop_same f a b _ _ _ Ha Hb). Qed.

Lemma LayerNorm_backward_spec (x gamma beta m mu v sigma y y_grad : tensor)
    (T C : nat) (fmu : nat -> nat -> R) (fsig : nat -> R) :
  (0 < C)%nat -> shape x = [T; C] -> vector gamma C ->
  is_mat mu T C fmu -> is_vec sigma T fsig -> matrix y_grad T C ->
  exists dx dgamma dbeta,
    LayerNormFn.backward
      (LayerNormFn.save_for_backward x gamma beta m mu v sigma y) y_grad
    = Ok (dx, dgamma, dbeta)
    /\ is_vec dgamma C
         (fun c => Rsum T (fun t => get y_grad [t; c] * fmu t c * fsig t))
    /\ is_vec dbeta C (fun c => Rsum T (fun t => get y_grad [t; c]))
    /\ is_mat dx T C
         (fun t c =>
            get y_grad [t; c] * get gamma [c] * fsig t
            - 1 / INR C
              * Rsum C (fun c' => get y_grad [t; c'] * get gamma [c'] * fsig t)
            - 1 / INR C * fmu t c
              * Rsum C (fun c' => get y_grad [t; c'] * get gamma [c']
                                  * fmu t c' * fsig t ^ 3)).
Proof.
  intros HC Hx Hg Smu Ssig Hyg.
  apply matrix_is_mat in Hyg. apply vector_is_vec in Hg.
  unfold LayerNormFn.backward, tsub, tmul. rewrite Hx. cbn [unpack2 bind].
  step (einsum_tc_tc_t_c _ _ _ _ _ _ _ _ Hyg Smu Ssig) dgamma Sdgamma.
  step (tsum0_mat _ _ _ _ Hyg) dbeta Sdbeta.
  step (unsqueeze0_vec _ _ _ Hg) gamma0 Sgamma0.
  step (binop_mat_row Rmult _ _ _ _ _ _ Hyg Sgamma0) a1 Sa1.
  step (unsqueeze1_vec _ _ _ Ssig) sigma1 Ssigma1.
  step (binop_mat_col Rmult _ _ _ _ _ _ Sa1 Ssigma1) a Sa.
  rewrite (pydiv_pos 1 C HC). cbn [bind].
  step (einsum_tc_c_t_t _ _ _ _ _ _ _ _ Hyg Hg Ssig) e1 Se1.
  step (unsqueeze1_vec _ _ _ Se1) e1u Se1u.
  pose proof (is_mat_tmap (fun w => INR 1 / INR C * w) _ _ _ _ Se1u) as Sb.
  step (binop_mat_col Rminus _ _ _ _ _ _ Sa Sb) ab Sab.
  pose proof (is_mat_tmap (fun w => INR 1 / INR C * w) _ _ _ _ Smu) as Skmu.
  pose proof (is_vec_tmap (fun w => w ^ 3) _ _ _ Ssig) as Ssig3.
  step (einsum_tc_c_tc_t_t _ _ _ _ _ _ _ _ _ _ Hyg Hg Smu Ssig3) e2 Se2.
  step (unsqueeze1_vec _ _ _ Se2) e2u Se2u.
  step (binop_mat_col Rmult _ _ _ _ _ _ Skmu Se2u) d Sd.
  step (binop_mat_mat Rminus _ _ _ _ _ _ Sab Sd) dx Sdx.
  do 3 eexists. split; [reflexivity|].
  split; [exact Sdgamma|]. split; [exact Sdbeta|].
  eapply is_mat_ext; [exact Sdx|]. intros t c Ht Hc. simpl. reflexivity.
Qed.

(** ** Indexing *)

Section Indexing.

Lemma norm_index_in (n : nat) (i : Z) :
  (0 <= i < Z.of_nat n)%Z -> norm_index n i = Ok (Z.to_nat i).
Proof.
  intros H. unfold norm_index.
  destruct (Z.leb_spec 0 i); [|lia]. destruct (Z.ltb_spec i (Z.of_nat n)); [|lia].
  reflexivity.
Qed.

Lemma strict_index_in (n : nat) (i : Z) :
  (0 <= i < Z.of_nat n)%Z -> strict_index n i = Ok (Z.to_nat i).
Proof.
  intros H. unfold strict_index.
  destruct (Z.leb_spec 0 i); [|lia]. destruct (Z.ltb_spec i (Z.of_nat n)); [|lia].
  reflexivity.
Qed.

Lemma mapM_in {A B : Type} (f : A -> result B) (g : A -> B) (P : A -> Prop)
    (l : list A) :
  (forall a, P a -> f a = Ok (g a)) -> Forall P l -> mapM f l = Ok (map g l).
Proof.
  intros H Hl. induction Hl as [|a l Ha _ IH]; simpl; [reflexivity|].
  rewrite (H a Ha), IH. reflexivity.
Qed.

Lemma mapM_norm_index_in (n : nat) (y : itensor) :
  indices_in y n -> mapM (norm_index n) y = Ok (map Z.to_nat y).
Proof. apply mapM_in. apply norm_index_in. Qed.

Lemma mapM_strict_index_in (n : nat) (y : itensor) :
  indices_in y n -> mapM (strict_index n) y = Ok (map Z.to_nat y).
Proof. apply mapM_in. apply strict_index_in. Qed.

Lemma mapM_norm_index_err (n : nat) (y : itensor) (e : error) :
  mapM (norm_index n) y = Err e -> e = IndexError.
Proof.
  induction y as [|i y IH]; simpl; [discriminate|].
  unfold norm_index at 1.
  destruct ((0 <=? i)%Z && (i <? Z.of_nat n)%Z);
    [|destruct ((- Z.of_nat n <=? i)%Z && (i <? 0)%Z)]; simpl;
    try (destruct (mapM (norm_index n) y); simpl; intros H;
         [discriminate | injection H as <-; apply IH; reflexivity]).
  intros H. injection H as <-. reflexivity.
Qed.

Lemma indices_in_arange (n : nat) : indices_in (arange n) n.
Proof.
  unfold indices_in, arange. apply Forall_forall. intros i Hi.
  apply in_map_iff in Hi. destruct Hi as (k & <- & Hk). apply in_seq in Hk. lia.
Qed.

Lemma to_nat_arange (n : nat) : map Z.to_nat (arange n) = seq 0 n.
Proof.
  unfold arange. rewrite map_map. rewrite <- (map_id (seq 0 n)) at 2.
  apply map_ext. intros k. apply Nat2Z.id.
Qed.

Lemma length_arange (n : nat) : length (arange n) = n.
Proof. unfold arange. rewrite length_map, length_seq. reflexivity. Qed.

Lemma idx_at_lt (y : itensor) (n t : nat) :
  indices_in y n -> (t < length y)%nat -> (idx_at y t < n)%nat.
Proof.
  intros Hy Ht. unfold idx_at.
  assert (H : (0 <= nth t y 0 < Z.of_nat n)%Z).
  { unfold indices_in in Hy. rewrite Forall_forall in Hy. apply Hy.
    apply nth_In. exact Ht. }
  lia.
Qed.

Lemma nth_to_nat (y : itensor) (t : nat) :
  nth t (map Z.to_nat y) 0%nat = idx_at y t.
Proof. unfold idx_at. exact (map_nth Z.to_nat y 0%Z t). Qed.

Lemma bcast_pos (n k : nat) :
  (k < n)%nat -> (if (n =? 1)%nat then 0%nat else k) = k.
Proof. intros H. destruct (Nat.eqb_spec n 1); lia. Qed.

Lemma getitem2_arange (s : tensor) (T C : nat) (f : nat -> nat -> R)
    (y : itensor) :
  is_mat s T C f -> length y = T -> indices_in y C ->
  exists p, getitem2 s (arange T) y = Ok p
            /\ is_vec p T (fun t => f t (idx_at y t)).
Proof.
  intros (Hs & _ & Hg) Hlen Hy. unfold getitem2. rewrite Hs.
  rewrite (mapM_norm_index_in _ _ (indices_in_arange T)).
  rewrite (mapM_norm_index_in _ _ Hy). cbn [bind].
  rewrite length_arange, Hlen, merge_dim_refl, to_nat_arange.
  eexists. split; [reflexivity|].
  eapply tspec_ext; [apply tspec_tinit|].
  intros idx Hi. apply in_range_1 in Hi. destruct Hi as (t & -> & Ht).
  cbn [nth tl]. rewrite bcast_pos by exact Ht.
  rewrite seq_nth by exact Ht. rewrite nth_to_nat. simpl.
  apply (Hg [t; idx_at y t]). apply in_range_2_intro; [exact Ht|].
  apply idx_at_lt; [exact Hy|lia].
Qed.

Lemma getitem1_rows (emb : tensor) (N D : nat) (f : nat -> nat -> R)
    (x : itensor) :
  is_mat emb N D f -> indices_in x N ->
  exists r, getitem1 emb x = Ok r
            /\ is_mat r (length x) D (fun t d => f (idx_at x t) d).
Proof.
  intros (Hs & _ & Hg) Hx. unfold getitem1. rewrite Hs.
  rewrite (mapM_norm_index_in _ _ Hx). cbn [bind].
  eexists. split; [reflexivity|].
  eapply tspec_ext; [apply tspec_tinit|].
  intros idx Hi. apply in_range_2 in Hi. destruct Hi as (t & d & -> & Ht & Hd).
  cbn [nth tl]. rewrite nth_to_nat.
  apply (Hg [idx_at x t; d]). apply in_range_2_intro; [|exact Hd].
  apply idx_at_lt; assumption.
Qed.

Lemma is_mat_eye (n : nat) :
  is_mat (eye n) n n (fun i j => indicator i j).
Proof. apply tspec_tinit. Qed.

Lemma is_mat_zeros_like (t : tensor) (T C : nat) :
  shape t = [T; C] -> is_mat (zeros_like t) T C (fun _ _ => 0).
Proof. intros H. unfold zeros_like. rewrite H. apply tspec_tinit. Qed.

Lemma shape_eqb_refl (s : list nat) : shape_eqb s s = true.
Proof.
  induction s as [|n s IH]; simpl; [reflexivity|].
  rewrite Nat.eqb_refl, IH. reflexivity.
Qed.

Lemma shape_eqb_eq (a b : list nat) : shape_eqb a b = true <-> a = b.
Proof.
  split.
  - revert b. induction a as [|x a IH]; intros [|y b]; simpl;
      try discriminate; [reflexivity|].
    intros H. apply andb_prop in H. destruct H as (H1 & H2).
    apply Nat.eqb_eq in H1. rewrite H1, (IH b H2). reflexivity.
  - intros ->. apply shape_eqb_refl.
Qed.

End Indexing.

(** ** Scatter-add *)

Section ScatterAdd.

Variables (N D T : nat) (source : tensor).
Hypothesis Hsource : matrix source T D.

Lemma index_add_step_spec (acc : tensor) (f0 : nat -> nat -> R) (t k : nat) :
  is_mat acc N D f0 -> (t < T)%nat ->
  is_mat (index_add_step [N; D] 0 source acc (t, k)) N D
    (fun i d => f0 i d + (if (k =? i)%nat then get source [t; d] else 0)).
Proof.
  intros (_ & _ & Hg) Ht. unfold index_add_step.
  eapply tspec_ext; [apply tspec_tinit|].
  intros idx Hi. cbn beta. rewrite (Hg idx Hi).
  apply in_range_2 in Hi. destruct Hi as (i & d & -> & Hi & Hd).
  cbn [nth fst snd]. unfold replace_at. cbn [firstn skipn app].
  rewrite (Nat.eqb_sym k i). destruct (i =? k)%nat; lra.
Qed.

Lemma index_add_loop (n : nat) :
  forall (a : nat) (ks : list nat) (acc : tensor) (f0 : nat -> nat -> R),
  length ks = n -> (a + n <= T)%nat -> is_mat acc N D f0 ->
  is_mat (fold_left (index_add_step [N; D] 0 source)
            (combine (seq a n) ks) acc) N D
    (fun i d =>
       f0 i d
       + fold_right
           (fun t s => (if (nth (t - a) ks 0%nat =? i)%nat
                        then get source [t; d] else 0) + s)
           0 (seq a n)).
Proof.
  induction n as [|n IH]; intros a ks acc f0 Hlen Ha Hacc.
  - simpl. eapply is_mat_ext; [exact Hacc|]. intros; simpl; lra.
  - destruct ks as [|k ks]; [discriminate|]. simpl in Hlen.
    cbn [seq combine fold_left].
    assert (Hstep := index_add_step_spec acc f0 a k Hacc ltac:(lia)).
    eapply is_mat_ext.
    + apply (IH (S a) ks _ _ ltac:(lia) ltac:(lia) Hstep).
    + intros i d Hi Hd. cbn [fold_right]. rewrite Nat.sub_diag. cbn [nth].
      rewrite Rplus_assoc. do 2 f_equal.
      apply Rsum_seq_ext. intros t Ht.
      replace (t - a)%nat with (S (t - S a)) by lia. reflexivity.
Qed.

Lemma index_add_rows (self : tensor) (f0 : nat -> nat -> R) (x : itensor) :
  is_mat self N D f0 -> length x = T -> indices_in x N ->
  exists r, index_add self 0 x source = Ok r
    /\ is_mat r N D
         (fun i d =>
            f0 i d
            + Rsum T (fun t => if (idx_at x t =? i)%nat
                               then get source [t; d] else 0)).
Proof.
  intros Hself Hlen Hx. unfold index_add.
  destruct Hself as (Hs & Hw & Hg). destruct Hsource as (Hss & _).
  rewrite Hs, Hss. cbn [length Nat.ltb Nat.leb negb replace_at firstn skipn app nth].
  rewrite Hlen, shape_eqb_refl. cbn [negb].
  rewrite (mapM_strict_index_in _ _ Hx). cbn [bind].
  eexists. split; [reflexivity|].
  rewrite length_map, Hlen.
  eapply is_mat_ext.
  - apply index_add_loop; [rewrite length_map; exact Hlen|lia|].
    split; [exact Hs|]. split; [exact Hw|exact Hg].
  - intros i d Hi Hd. cbn beta. f_equal. unfold Rsum.
    apply Rsum_seq_ext. intros t Ht.
    rewrite Nat.sub_0_r, nth_to_nat. reflexivity.
Qed.

End ScatterAdd.

(** ** Cross entropy: what [forward] and [backward] compute *)

Lemma CrossEntropy_softmax_spec (x : tensor) (T C : nat) :
  matrix x T C ->
  exists ex_sum ex_sum1 s,
    tsum 1 (tmap exp x) = Ok ex_sum
    /\ unsqueeze 1 ex_sum = Ok ex_sum1
    /\ tdiv (tmap exp x) ex_sum1 = Ok s
    /\ is_mat s T C (softmax x C).
Proof.
  intros Hx. apply matrix_is_mat in Hx.
  pose proof (is_mat_tmap exp _ _ _ _ Hx) as Sex.
  destruct (tsum1_mat _ _ _ _ Sex) as (ex_sum & E1 & S1).
  destruct (unsqueeze1_vec _ _ _ S1) as (ex_sum1 & E2 & S2).
  destruct (binop_mat_col Rdiv _ _ _ _ _ _ Sex S2) as (s & E3 & S3).
  exists ex_sum, ex_sum1, s. split; [exact E1|]. split; [exact E2|].
  split; [exact E3|exact S3].
Qed.

Lemma CrossEntropy_forward_spec (x : tensor) (y : itensor) (T C : nat) :
  matrix x T C -> length y = T -> indices_in y C ->
  exists loss s,
    CrossEntropyFn.forward x y
    = Ok (loss, CrossEntropyFn.save_for_backward x y s)
    /\ is_mat s T C (softmax x C)
    /\ is_scalar loss
         (- (Rsum T (fun t => ln (softmax x C t (idx_at y t))) / INR T)).
Proof.
  intros Hx Hlen Hy.
  destruct (CrossEntropy_softmax_spec x T C Hx) as (e1 & e2 & s & E1 & E2 & E3 & Ss).
  unfold CrossEntropyFn.forward. destruct Hx as (Hs & _). rewrite Hs.
  cbn [unpack2 bind]. rewrite E1. cbn [bind]. rewrite E2. cbn [bind].
  rewrite E3. cbn [bind].
  step (getitem2_arange _ _ _ _ _ Ss Hlen Hy) p Sp.
  step (tmean0_vec _ _ _ (is_vec_tmap ln _ _ _ Sp)) m Sm.
  do 2 eexists. split; [reflexivity|]. split; [exact Ss|].
  exact (tspec_tmap Ropp _ _ _ Sm).
Qed.

Lemma CrossEntropy_backward_spec (x s y_grad : tensor) (y : itensor)
    (T C : nat) (fs : nat -> nat -> R) (g : R) :
  shape x = [T; C] -> length y = T -> indices_in y C ->
  is_mat s T C fs -> is_scalar y_grad g ->
  exists dx,
    CrossEntropyFn.backward (CrossEntropyFn.save_for_backward x y s) y_grad
    = Ok (Some dx, None)
    /\ is_mat dx T C
         (fun t c => g * (fs t c - indicator c (idx_at y t)) / INR T).
Proof.
  intros Hs Hlen Hy Ss Sg.
  unfold CrossEntropyFn.backward, tsub, tmul. rewrite Hs. cbn [unpack2 bind].
  step (getitem1_rows _ _ _ _ _ (is_mat_eye C) Hy) onehot Soh.
  rewrite Hlen in Soh.
  step (binop_mat_mat Rminus _ _ _ _ _ _ Ss Soh) d Sd.
  step (binop_scalar_l Rmult _ _ _ _ _ Sg Sd) gd Sgd.
  eexists. split; [reflexivity|].
  assert (Sdx : is_mat (tmap (fun v => v / INR T) gd) T C
                  (fun t c => g * (fs t c - indicator (idx_at y t) c) / INR T))
    by exact (tspec_tmap (fun v => v / INR T) _ _ _ Sgd).
  eapply is_mat_ext; [exact Sdx|].
  intros t c Ht Hc. cbn [nth]. unfold indicator.
  rewrite (Nat.eqb_sym c). reflexivity.
Qed.

(** ** GELU: what [forward] and [backward] compute *)

Lemma is_scalar_scalar (r : R) : is_scalar (scalar r) r.
Proof.
  split; [reflexivity|]. split; [reflexivity|].
  intros idx Hi. apply in_range_nil in Hi. subst idx. reflexivity.
Qed.

Lemma GELU_forward_spec (x : tensor) (s : list nat) (fx : list nat -> R) :
  tspec x s fx ->
  exists y b,
    GELUFn.forward x
    = Ok (y, GELUFn.save_for_backward x (scalar gelu_a) b)
    /\ tspec b s (fun idx => gelu_b (fx idx))
    /\ tspec y s
         (fun idx => 1 / 2 * fx idx * (1 + tanh (gelu_b (fx idx)))).
Proof.
  intros Hx. unfold GELUFn.forward, tadd, tmul.
  pose proof (tspec_tmap (fun v => 44715 / 1000000 * v) _ _ _
                (tspec_tmap (fun v => v ^ 3) _ _ _ Hx)) as Sc.
  step (binop_same Rplus _ _ _ _ _ Hx Sc) inner Sinner.
  step (binop_scalar_l Rmult _ _ _ _ _ (is_scalar_scalar (sqrt (2 / PI))) Sinner)
       b Sb.
  pose proof (tspec_tmap (fun v => 1 / 2 * v) _ _ _ Hx) as Sh.
  pose proof (tspec_tmap (fun v => 1 + v) _ _ _ (tspec_tmap tanh _ _ _ Sb)) as St.
  step (binop_same Rmult _ _ _ _ _ Sh St) y Sy.
  do 2 eexists. split; [reflexivity|]. split; [exact Sb|exact Sy].
Qed.

Lemma GELU_backward_spec (x a b y_grad : tensor) (s : list nat)
    (fx fb fg : list nat -> R) (ra : R) :
  tspec x s fx -> is_scalar a ra -> tspec b s fb -> tspec y_grad s fg ->
  exists dx,
    GELUFn.backward (GELUFn.save_for_backward x a b) y_grad = Ok dx
    /\ tspec dx s
         (fun idx =>
            fg idx * (1 / 2)
            * (1 + tanh (fb idx)
               + fx idx / cosh (fb idx) ^ 2
                 * (ra * (1 + 3 * (44715 / 1000000) * fx idx ^ 2)))).
Proof.
  intros Hx Ha Hb Hg. unfold GELUFn.backward, tadd, tmul, tdiv.
  pose proof (tspec_tmap (fun v => 1 + v) _ _ _
                (tspec_tmap (fun v => 3 * (44715 / 1000000) * v) _ _ _
                   (tspec_tmap (fun v => v ^ 2) _ _ _ Hx))) as Sp.
  step (binop_scalar_l Rmult _ _ _ _ _ Ha Sp) db Sdb.
  pose proof (tspec_tmap (fun v => v ^ 2) _ _ _ (tspec_tmap cosh _ _ _ Hb)) as Sc.
  step (binop_same Rdiv _ _ _ _ _ Hx Sc) q Sq.
  step (binop_same Rmult _ _ _ _ _ Sq Sdb) qdb Sqdb.
  pose proof (tspec_tmap (fun v => 1 + v) _ _ _ (tspec_tmap tanh _ _ _ Hb)) as St.
  step (binop_same Rplus _ _ _ _ _ St Sqdb) inner Sinner.
  pose proof (tspec_tmap (fun v => v * (1 / 2)) _ _ _ Hg) as Sh.
  destruct (binop_same Rmult _ _ _ _ _ Sh Sinner) as (dx & E & Sdx).
  exists dx. split; [exact E|exact Sdx].
Qed.

Lemma sech_sq (u : R) : / (cosh u ^ 2) = sech u ^ 2.
Proof. unfold sech. simpl. rewrite !Rmult_1_r. apply Rinv_mult. Qed.

(** ** Addition *)

Lemma Add_forward_spec (a b : tensor) (s : list nat) :
  shape a = s -> wf a -> shape b = s -> wf b ->
  exists y, AddFn.forward a b = Ok (y, tt)
            /\ tspec y s (fun idx => get a idx + get b idx).
Proof.
  intros Ha Hwa Hb Hwb. unfold AddFn.forward, tadd.
  rewrite Ha, Hb, shape_eqb_refl.
  step (binop_same Rplus a b s _ _ (tspec_get a s Ha Hwa) (tspec_get b s Hb Hwb))
       y Sy.
  exists y. split; [reflexivity|exact Sy].
Qed.

Lemma Add_forward_mismatch (a b : tensor) :
  shape a <> shape b -> AddFn.forward a b = Err AssertionError.
Proof.
  intros H. unfold AddFn.forward.
  destruct (shape_eqb (shape a) (shape b)) eqn:E; [|reflexivity].
  apply shape_eqb_eq in E. contradiction.
Qed.

Lemma binop_comm (f : R -> R -> R) (a b : tensor) :
  (forall u v, f u v = f v u) -> shape a = shape b -> binop f a b = binop f b a.
Proof.
  intros Hf Hs. unfold binop. rewrite Hs.
  destruct (broadcast_shapes (shape b) (shape b)); [|reflexivity].
  f_equal. apply tinit_ext. intros idx _. apply Hf.
Qed.

(** ** Normalisation *)

Section Normalisation.

Variables (x : tensor) (C : nat).

Lemma eps_pos : 0 < LayerNormFn.eps.
Proof. unfold LayerNormFn.eps. lra. Qed.

Lemma row_var_nonneg (t : nat) : 0 <= row_var x C t.
Proof.
  unfold row_var. destruct C as [|n].
  - rewrite Rsum_0. unfold Rdiv. rewrite Rmult_0_l. lra.
  - apply Rmult_le_pos.
    + apply Rsum_nonneg. intros c _. apply pow2_ge_0.
    + apply Rlt_le, Rinv_0_lt_compat, lt_0_INR. lia.
Qed.

Lemma inv_std_sq (t : nat) :
  inv_std x C t ^ 2 = / (row_var x C t + LayerNormFn.eps).
Proof.
  pose proof (row_var_nonneg t) as Hv. pose proof eps_pos as He.
  unfold inv_std.
  assert (Hs : sqrt (row_var x C t + LayerNormFn.eps) <> 0).
  { apply Rgt_not_eq, sqrt_lt_R0. lra. }
  rewrite <- (sqrt_sqrt (row_var x C t + LayerNormFn.eps)) at 2 by lra.
  field. exact Hs.
Qed.

Lemma centered_sum (t : nat) : Rsum C (centered x C t) = 0.
Proof.
  destruct (Nat.eq_dec C 0) as [E|HC].
  - rewrite E. apply Rsum_0.
  - assert (HI : INR C <> 0) by (apply not_0_INR; exact HC).
    unfold centered. rewrite Rsum_minus, Rsum_const. unfold row_mean.
    field. exact HI.
Qed.

Lemma normalized_mean (t : nat) : mean_of C (normalized x C t) = 0.
Proof.
  unfold mean_of, normalized.
  rewrite Rsum_scal_r, (centered_sum t). unfold Rdiv. ring.
Qed.

Lemma normalized_var (t : nat) :
  var_of C (normalized x C t)
  = row_var x C t / (row_var x C t + LayerNormFn.eps).
Proof.
  unfold var_of. rewrite (normalized_mean t).
  rewrite (Rsum_ext C _ (fun c => centered x C t c ^ 2 * inv_std x C t ^ 2)).
  - rewrite Rsum_scal_r, inv_std_sq. unfold row_var, Rdiv. ring.
  - intros c _. unfold normalized. ring.
Qed.

Lemma normalized_var_bounds (t : nat) :
  0 <= row_var x C t / (row_var x C t + LayerNormFn.eps) < 1.
Proof.
  pose proof (row_var_nonneg t) as Hv. pose proof eps_pos as He.
  assert (Hp : 0 < row_var x C t + LayerNormFn.eps) by lra.
  split.
  - apply Rmult_le_pos; [exact Hv|]. apply Rlt_le, Rinv_0_lt_compat, Hp.
  - apply (Rmult_lt_reg_r (row_var x C t + LayerNormFn.eps)); [exact Hp|].
    unfold Rdiv. rewrite Rmult_assoc, Rinv_l by lra. lra.
Qed.

Lemma normalized_var_gap (t : nat) :
  1 - row_var x C t / (row_var x C t + LayerNormFn.eps)
  = LayerNormFn.eps / (row_var x C t + LayerNormFn.eps).
Proof.
  pose proof (row_var_nonneg t) as Hv. pose proof eps_pos as He.
  field. lra.
Qed.

End Normalisation.

Lemma mean_of_ext (C : nat) (r r' : nat -> R) :
  (forall c, (c < C)%nat -> r c = r' c) -> mean_of C r = mean_of C r'.
Proof. intros H. unfold mean_of. rewrite (Rsum_ext C r r' H). reflexivity. Qed.

Lemma var_of_ext (C : nat) (r r' : nat -> R) :
  (forall c, (c < C)%nat -> r c = r' c) -> var_of C r = var_of C r'.
Proof.
  intros H. unfold var_of. rewrite (mean_of_ext C r r' H). f_equal.
  apply Rsum_ext. intros c Hc. rewrite (H c Hc). reflexivity.
Qed.

Lemma normalized_row_ext (x : tensor) (C t1 t2 : nat) :
  (forall c, (c < C)%nat -> get x [t1; c] = get x [t2; c]) ->
  forall c, (c < C)%nat -> normalized x C t1 c = normalized x C t2 c.
Proof.
  intros H.
  assert (Hm : row_mean x C t1 = row_mean x C t2).
  { unfold row_mean. f_equal. apply Rsum_ext. exact H. }
  assert (Hc : forall c, (c < C)%nat -> centered x C t1 c = centered x C t2 c).
  { intros c Hc. unfold centered. rewrite Hm, (H c Hc). reflexivity. }
  assert (Hv : row_var x C t1 = row_var x C t2).
  { unfold row_var. f_equal. apply Rsum_ext. intros c Hc'.
    rewrite (Hc c Hc'). reflexivity. }
  intros c Hc'. unfold normalized, inv_std. rewrite Hv, (Hc c Hc'). reflexivity.
Qed.

Lemma softmax_row_sum (x : tensor) (C t : nat) :
  (0 < C)%nat -> Rsum C (softmax x C t) = 1.
Proof.
  intros HC. unfold softmax, Rdiv. rewrite Rsum_scal_r.
  apply Rinv_r, Rgt_not_eq. apply Rsum_pos; [exact HC|].
  intros c _. apply exp_pos.
Qed.

(** ** Further facts used by the claims *)

Lemma target_indicator_in (y : itensor) (C t c : nat) :
  indices_in y C -> (t < length y)%nat ->
  indicator c (idx_at y t) = target_indicator c (nth t y 0%Z).
Proof.
  intros Hy Ht. unfold indicator, target_indicator, idx_at.
  assert (H : (0 <= nth t y 0 < Z.of_nat C)%Z).
  { unfold indices_in in Hy. rewrite Forall_forall in Hy. apply Hy.
    apply nth_In. exact Ht. }
  destruct (Nat.eqb_spec c (Z.to_nat (nth t y 0%Z)));
    destruct (Z.eqb_spec (Z.of_nat c) (nth t y 0%Z)); try reflexivity; lia.
Qed.

Lemma merge_dim_none (a b : nat) :
  a <> b -> a <> 1%nat -> b <> 1%nat -> merge_dim a b = None.
Proof.
  intros H1 H2 H3. unfold merge_dim.
  destruct (Nat.eqb_spec a b); [contradiction|].
  destruct (Nat.eqb_spec a 1); [contradiction|].
  destruct (Nat.eqb_spec b 1); [contradiction|reflexivity].
Qed.

Lemma CrossEntropy_forward_mismatch (x : tensor) (y : itensor) (T C : nat) :
  matrix x T C -> length y <> T -> length y <> 1%nat -> T <> 1%nat ->
  CrossEntropyFn.forward x y = Err IndexError.
Proof.
  intros Hx H1 H2 H3.
  destruct (CrossEntropy_softmax_spec x T C Hx)
    as (e1 & e2 & s & E1 & E2 & E3 & (Hs & _)).
  unfold CrossEntropyFn.forward. rewrite (proj1 Hx). cbn [unpack2 bind].
  rewrite E1. cbn [bind]. rewrite E2. cbn [bind]. rewrite E3. cbn [bind].
  unfold getitem2. rewrite Hs.
  rewrite (mapM_norm_index_in _ _ (indices_in_arange T)). cbn [bind].
  destruct (mapM (norm_index C) y) as [cs|e] eqn:Ey; cbn [bind].
  - rewrite length_arange, merge_dim_none by auto. reflexivity.
  - rewrite (mapM_norm_index_err _ _ _ Ey). reflexivity.
Qed.


(** * The claims *)

(** ** Layer normalisation, backward *)

(** C1 (as amended: at least one feature).  For an input of shape (T, C)
    with C >= 1, gain and bias of shape (C,) and an upstream gradient of
    shape (T, C), [forward] followed by [backward] returns three gradients:
    the gain gradient is, per feature, the sum over rows of upstream
    gradient times centered value times row inverse standard deviation; the
    bias gradient is, per feature, the sum over rows of the upstream
    gradient; the input gradient is, per entry, upstream * gain * inverse-std
    minus 1/C times the row's inner product of upstream and gain scaled by
    the inverse-std, minus 1/C times the centered value times the row's inner
    product of upstream, gain, centered value and the cube of the
    inverse-std. *)
Theorem LayerNorm_backward_gradients
    (x gamma beta y_grad : tensor) (T C : nat) :
  (0 < C)%nat ->
  matrix x T C -> vector gamma C -> vector beta C -> matrix y_grad T C ->
  exists y k dx dgamma dbeta,
    LayerNormFn.forward x gamma beta = Ok (y, k)
    /\ LayerNormFn.backward k y_grad = Ok (dx, dgamma, dbeta)
    /\ is_vec dgamma C
         (fun c => Rsum T (fun t =>
            get y_grad [t; c] * centered x C t c * inv_std x C t))
    /\ is_vec dbeta C (fun c => Rsum T (fun t => get y_grad [t; c]))
    /\ is_mat dx T C
         (fun t c =>
            get y_grad [t; c] * get gamma [c] * inv_std x C t
            - 1 / INR C
              * Rsum C (fun c' =>
                  get y_grad [t; c'] * get gamma [c'] * inv_std x C t)
            - 1 / INR C * centered x C t c
              * Rsum C (fun c' =>
                  get y_grad [t; c'] * get gamma [c'] * centered x C t c'
                  * inv_std x C t ^ 3)).
Proof.
  intros HC Hx Hg Hb Hyg.
  destruct (LayerNorm_forward_spec x gamma beta T C Hx Hg Hb)
    as (y & m & mu & v & sigma & Efwd & Smu & Ssig & _).
  destruct (LayerNorm_backward_spec x gamma beta m mu v sigma y y_grad T C
              _ _ HC (proj1 Hx) Hg Smu Ssig Hyg)
    as (dx & dgamma & dbeta & Ebwd & Sdg & Sdb & Sdx).
  exists y, (LayerNormFn.save_for_backward x gamma beta m mu v sigma y),
    dx, dgamma, dbeta.
  split; [exact Efwd|]. split; [exact Ebwd|].
  split; [exact Sdg|]. split; [exact Sdb|exact Sdx].
Qed.

(** The theorem at a row [1; 3] with unit gain. *)
Lemma LayerNorm_backward_gradients_witness :
  exists y k dx dgamma dbeta,
    LayerNormFn.forward Ex.x_row Ex.ones2 Ex.zeros2 = Ok (y, k)
    /\ LayerNormFn.backward k Ex.g_row = Ok (dx, dgamma, dbeta)
    /\ is_vec dgamma 2
         (fun c => Rsum 1 (fun t =>
            get Ex.g_row [t; c] * centered Ex.x_row 2 t c * inv_std Ex.x_row 2 t))
    /\ is_vec dbeta 2 (fun c => Rsum 1 (fun t => get Ex.g_row [t; c]))
    /\ is_mat dx 1 2
         (fun t c =>
            get Ex.g_row [t; c] * get Ex.ones2 [c] * inv_std Ex.x_row 2 t
            - 1 / INR 2
              * Rsum 2 (fun c' =>
                  get Ex.g_row [t; c'] * get Ex.ones2 [c'] * inv_std Ex.x_row 2 t)
            - 1 / INR 2 * centered Ex.x_row 2 t c
              * Rsum 2 (fun c' =>
                  get Ex.g_row [t; c'] * get Ex.ones2 [c'] * centered Ex.x_row 2 t c'
                  * inv_std Ex.x_row 2 t ^ 3)).
Proof.
  apply (LayerNorm_backward_gradients Ex.x_row Ex.ones2 Ex.zeros2 Ex.g_row 1 2).
  - lia.
  - split; reflexivity.
  - split; reflexivity.
  - split; reflexivity.
  - split; reflexivity.
Defined.

(** C1 as stated fails on a matrix without features: [forward] succeeds on
    shape (1, 0) and [backward] then stops at the Python division [1 / C]
    instead of returning gradients. *)
Lemma LayerNorm_backward_no_feature :
  matrix Ex.x_nofeat 1 0 /\ vector Ex.v_empty 0 /\
  exists y k,
    LayerNormFn.forward Ex.x_nofeat Ex.v_empty Ex.v_empty = Ok (y, k)
    /\ LayerNormFn.backward k Ex.x_nofeat = Err ZeroDivisionError.
Proof.
  split; [split; reflexivity|]. split; [split; reflexivity|].
  do 2 eexists. split; reflexivity.
Qed.

(** ** Cross entropy *)

(** C2 (as amended: targets in [0, C)).  For logits of shape (T, C), a target
    vector of length T with every target in [0, C) and a scalar upstream
    gradient [grad], [backward] returns for the logits the matrix whose entry
    at row t and class c is grad * (softmax[t,c] - indicator[c == target[t]])
    / T, and [None] for the targets. *)
Theorem CrossEntropy_backward_gradient
    (x y_grad : tensor) (y : itensor) (T C : nat) (grad : R) :
  matrix x T C -> length y = T -> indices_in y C -> is_scalar y_grad grad ->
  exists loss k dx,
    CrossEntropyFn.forward x y = Ok (loss, k)
    /\ CrossEntropyFn.backward k y_grad = Ok (Some dx, None)
    /\ is_mat dx T C
         (fun t c =>
            grad * (softmax x C t c - target_indicator c (nth t y 0%Z)) / INR T).
Proof.
  intros Hx Hlen Hy Hg.
  destruct (CrossEntropy_forward_spec x y T C Hx Hlen Hy)
    as (loss & s & Efwd & Ss & _).
  destruct (CrossEntropy_backward_spec x s y_grad y T C _ grad
              (proj1 Hx) Hlen Hy Ss Hg) as (dx & Ebwd & Sdx).
  exists loss, (CrossEntropyFn.save_for_backward x y s), dx.
  split; [exact Efwd|]. split; [exact Ebwd|].
  eapply is_mat_ext; [exact Sdx|].
  intros t c Ht Hc. cbn beta.
  rewrite (target_indicator_in y C t c Hy) by lia. reflexivity.
Qed.

(** The theorem at one row of two classes with target 1. *)
Lemma CrossEntropy_backward_gradient_witness :
  exists loss k dx,
    CrossEntropyFn.forward Ex.logits1 [1%Z] = Ok (loss, k)
    /\ CrossEntropyFn.backward k (scalar 1) = Ok (Some dx, None)
    /\ is_mat dx 1 2
         (fun t c =>
            1 * (softmax Ex.logits1 2 t c - target_indicator c (nth t [1%Z] 0%Z))
            / INR 1).
Proof.
  apply (CrossEntropy_backward_gradient Ex.logits1 (scalar 1) [1%Z] 1 2 1).
  - split; reflexivity.
  - reflexivity.
  - constructor; [lia|constructor].
  - apply is_scalar_scalar.
Defined.

(** C2 as stated fails for the integer target -1: Python indexing reads it
    as the last class, so the gradient at class 1 carries the indicator
    although 1 is not equal to -1. *)
Lemma CrossEntropy_backward_negative_target :
  matrix Ex.logits1 1 2 /\ length [(-1)%Z] = 1%nat /\
  exists loss k dx,
    CrossEntropyFn.forward Ex.logits1 [(-1)%Z] = Ok (loss, k)
    /\ CrossEntropyFn.backward k (scalar 1) = Ok (Some dx, None)
    /\ get dx [0; 1]%nat
       <> 1 * (softmax Ex.logits1 2 0 1
               - target_indicator 1 (nth 0 [(-1)%Z] 0%Z)) / INR 1.
Proof.
  split; [split; reflexivity|]. split; [reflexivity|].
  do 3 eexists. split; [reflexivity|]. split; [reflexivity|].
  unfold softmax, target_indicator, Rsum, get. simpl.
  rewrite exp_0. lra.
Qed.

(** C3.  For logits of shape (T, C) and a target vector of length T with
    every target in [0, C), [forward] returns the scalar mean over the T rows
    of the negative logarithm of the softmax probability of the row's target
    class, the softmax of row t at class c being exp(logits[t,c]) divided by
    the sum over all classes c' of exp(logits[t,c']). *)
Theorem CrossEntropy_forward_mean_nll (x : tensor) (y : itensor) (T C : nat) :
  matrix x T C -> length y = T -> indices_in y C ->
  exists loss k,
    CrossEntropyFn.forward x y = Ok (loss, k)
    /\ is_scalar loss
         (Rsum T (fun t =>
            - ln (exp (get x [t; idx_at y t])
                  / Rsum C (fun c' => exp (get x [t; c'])))) / INR T).
Proof.
  intros Hx Hlen Hy.
  destruct (CrossEntropy_forward_spec x y T C Hx Hlen Hy)
    as (loss & s & Efwd & _ & Sloss).
  exists loss, (CrossEntropyFn.save_for_backward x y s).
  split; [exact Efwd|].
  eapply tspec_ext; [exact Sloss|].
  intros idx _. cbn beta. rewrite Rsum_opp. unfold softmax, Rdiv. ring.
Qed.

(** The theorem at one row of two classes with target 1. *)
Lemma CrossEntropy_forward_mean_nll_witness :
  exists loss k,
    CrossEntropyFn.forward Ex.logits1 [1%Z] = Ok (loss, k)
    /\ is_scalar loss
         (Rsum 1 (fun t =>
            - ln (exp (get Ex.logits1 [t; idx_at [1%Z] t])
                  / Rsum 2 (fun c' => exp (get Ex.logits1 [t; c'])))) / INR 1).
Proof.
  apply (CrossEntropy_forward_mean_nll Ex.logits1 [1%Z] 1 2).
  - split; reflexivity.
  - reflexivity.
  - constructor; [lia|constructor].
Defined.

(** C9.  For logits of shape (T, C), targets in [0, C) and a scalar upstream
    gradient, every row of the logits gradient returned by [backward] sums to
    zero over the classes. *)
Theorem CrossEntropy_backward_rows_sum_zero
    (x y_grad : tensor) (y : itensor) (T C : nat) (grad : R) :
  matrix x T C -> length y = T -> indices_in y C -> is_scalar y_grad grad ->
  exists loss k dx,
    CrossEntropyFn.forward x y = Ok (loss, k)
    /\ CrossEntropyFn.backward k y_grad = Ok (Some dx, None)
    /\ forall t, (t < T)%nat -> Rsum C (fun c => get dx [t; c]) = 0.
Proof.
  intros Hx Hlen Hy Hg.
  destruct (CrossEntropy_forward_spec x y T C Hx Hlen Hy)
    as (loss & s & Efwd & Ss & _).
  destruct (CrossEntropy_backward_spec x s y_grad y T C _ grad
              (proj1 Hx) Hlen Hy Ss Hg) as (dx & Ebwd & Sdx).
  exists loss, (CrossEntropyFn.save_for_backward x y s), dx.
  split; [exact Efwd|]. split; [exact Ebwd|].
  intros t Ht.
  assert (Hk : (idx_at y t < C)%nat) by (apply idx_at_lt; [exact Hy|lia]).
  rewrite (Rsum_ext C _
             (fun c => (grad / INR T) * softmax x C t c
                       - (grad / INR T) * indicator (idx_at y t) c)).
  - rewrite Rsum_minus, !Rsum_scal_l.
    rewrite softmax_row_sum by lia.
    unfold indicator. rewrite Rsum_indicator by exact Hk. ring.
  - intros c Hc. destruct Sdx as (_ & _ & Hget).
    rewrite (Hget [t; c]) by (apply in_range_2_intro; assumption).
    cbn [nth]. unfold indicator. rewrite (Nat.eqb_sym c). unfold Rdiv. ring.
Qed.

(** The theorem at one row of two classes with target 1. *)
Lemma CrossEntropy_backward_rows_sum_zero_witness :
  exists loss k dx,
    CrossEntropyFn.forward Ex.logits1 [1%Z] = Ok (loss, k)
    /\ CrossEntropyFn.backward k (scalar 1) = Ok (Some dx, None)
    /\ forall t, (t < 1)%nat -> Rsum 2 (fun c => get dx [t; c]) = 0.
Proof.
  apply (CrossEntropy_backward_rows_sum_zero Ex.logits1 (scalar 1) [1%Z] 1 2 1).
  - split; reflexivity.
  - reflexivity.
  - constructor; [lia|constructor].
  - apply is_scalar_scalar.
Defined.

(** ** Embedding *)

(** C4.  For an index vector of length T with entries in [0, N), a table of
    shape (N, D) and an upstream gradient of shape (T, D), [backward] returns
    [None] for the indices and, for the table, the tensor of shape (N, D)
    obtained by adding the upstream rows into zeros at the rows named by the
    indices: row i of the table gradient is the sum of the upstream rows at
    every position where i occurs. *)
Theorem Embedding_backward_scatter_add
    (x : itensor) (emb y_grad : tensor) (T N D : nat) :
  length x = T -> indices_in x N -> matrix emb N D -> matrix y_grad T D ->
  exists y k demb,
    EmbeddingFn.forward x emb = Ok (y, k)
    /\ EmbeddingFn.backward k y_grad = Ok (None, Some demb)
    /\ is_mat demb N D
         (fun i d =>
            Rsum T (fun t => if (idx_at x t =? i)%nat
                             then get y_grad [t; d] else 0)).
Proof.
  intros Hlen Hx Hemb Hyg.
  unfold EmbeddingFn.forward.
  destruct (getitem1_rows emb N D _ x (matrix_is_mat _ _ _ Hemb) Hx)
    as (y & Ey & _).
  rewrite Ey. cbn [bind].
  destruct (index_add_rows N D T y_grad Hyg (zeros_like emb) _ x
              (is_mat_zeros_like emb N D (proj1 Hemb)) Hlen Hx)
    as (demb & Ed & Sd).
  exists y, (EmbeddingFn.save_for_backward x emb), demb.
  split; [reflexivity|]. split.
  - unfold EmbeddingFn.backward. rewrite Ed. reflexivity.
  - eapply is_mat_ext; [exact Sd|]. intros i d _ _. cbn beta. ring.
Qed.

(** The theorem at the indices [1; 1; 0] into a table of two rows. *)
Lemma Embedding_backward_scatter_add_witness :
  exists y k demb,
    EmbeddingFn.forward [1%Z; 1%Z; 0%Z] Ex.table = Ok (y, k)
    /\ EmbeddingFn.backward k Ex.g_rows = Ok (None, Some demb)
    /\ is_mat demb 2 2
         (fun i d =>
            Rsum 3 (fun t => if (idx_at [1%Z; 1%Z; 0%Z] t =? i)%nat
                             then get Ex.g_rows [t; d] else 0)).
Proof.
  apply (Embedding_backward_scatter_add [1%Z; 1%Z; 0%Z] Ex.table Ex.g_rows 3 2 2).
  - reflexivity.
  - repeat constructor; lia.
  - split; reflexivity.
  - split; reflexivity.
Defined.

(** A repeated index accumulates: position 0 and 1 both name row 1. *)
Example Embedding_backward_repeated_index :
  exists demb,
    EmbeddingFn.backward
      (EmbeddingFn.save_for_backward [1%Z; 1%Z; 0%Z] Ex.table) Ex.g_rows
    = Ok (None, Some demb)
    /\ get demb [1; 0]%nat = 1 + 3 /\ get demb [1; 1]%nat = 2 + 4
    /\ get demb [0; 0]%nat = 5 /\ get demb [0; 1]%nat = 6.
Proof.
  eexists. split; [reflexivity|]. cbv -[Rplus Rmult Rminus Rdiv Rinv Ropp IZR].
  repeat split; lra.
Qed.

(** ** Shape errors *)

(** C5 (as amended: index tensors of length 1 are broadcast).  [Add]'s
    forward fails on operands of different shapes and otherwise returns
    their elementwise sum; [CrossEntropy]'s forward fails with an index error
    when the number of targets differs from the number T of logit rows and
    neither of the two is 1. *)
Theorem shape_errors :
  (forall a b, shape a <> shape b -> AddFn.forward a b = Err AssertionError)
  /\ (forall a b, shape a = shape b -> wf a -> wf b ->
      exists y, AddFn.forward a b = Ok (y, tt)
                /\ tspec y (shape a) (fun idx => get a idx + get b idx))
  /\ (forall x y T C,
      matrix x T C -> length y <> T -> length y <> 1%nat -> T <> 1%nat ->
      CrossEntropyFn.forward x y = Err IndexError).
Proof.
  split; [exact Add_forward_mismatch|]. split.
  - intros a b Hs Ha Hb.
    exact (Add_forward_spec a b (shape a) eq_refl Ha (eq_sym Hs) Hb).
  - exact CrossEntropy_forward_mismatch.
Qed.

(** The three parts at concrete operands. *)
Lemma shape_errors_witness :
  AddFn.forward Ex.v3 Ex.ones2 = Err AssertionError
  /\ (exists y, AddFn.forward Ex.v3 Ex.w3 = Ok (y, tt)
                /\ tspec y (shape Ex.v3) (fun idx => get Ex.v3 idx + get Ex.w3 idx))
  /\ CrossEntropyFn.forward Ex.logits3 [0%Z; 1%Z] = Err IndexError.
Proof.
  destruct shape_errors as (H1 & H2 & H3). split; [|split].
  - apply (H1 Ex.v3 Ex.ones2). discriminate.
  - apply (H2 Ex.v3 Ex.w3); reflexivity.
  - apply (H3 Ex.logits3 [0%Z; 1%Z] 3%nat 2%nat).
    + split; reflexivity.
    + simpl; lia.
    + simpl; lia.
    + lia.
Defined.

(** C5 as stated fails for one target against three rows of logits: the
    lengths differ, yet the target is broadcast to every row and a loss
    comes back. *)
Lemma CrossEntropy_forward_broadcasts_single_target :
  matrix Ex.logits3 3 2 /\ length [1%Z] <> 3%nat /\
  exists loss k, CrossEntropyFn.forward Ex.logits3 [1%Z] = Ok (loss, k).
Proof.
  split; [split; reflexivity|]. split; [simpl; lia|].
  do 2 eexists. reflexivity.
Qed.

(** ** GELU *)

(** C6.  For every input x, [backward] returns the upstream gradient
    multiplied elementwise by 0.5 * (1 + tanh(b) + x * sech^2(b) * db/dx),
    where b = a * (x + 0.044715 * x^3), a = sqrt(2/pi) and
    db/dx = a * (1 + 3 * 0.044715 * x^2); it reads only the (x, a, b) that
    [forward] saved. *)
Theorem GELU_backward_derivative (x y_grad : tensor) (s : list nat) :
  shape x = s -> wf x -> shape y_grad = s -> wf y_grad ->
  exists y b dx,
    GELUFn.forward x = Ok (y, GELUFn.save_for_backward x (scalar gelu_a) b)
    /\ tspec b s (fun idx => gelu_b (get x idx))
    /\ GELUFn.backward (GELUFn.save_for_backward x (scalar gelu_a) b) y_grad
       = Ok dx
    /\ tspec dx s
         (fun idx =>
            get y_grad idx
            * (1 / 2 * (1 + tanh (gelu_b (get x idx))
                        + get x idx * sech (gelu_b (get x idx)) ^ 2
                          * gelu_db (get x idx)))).
Proof.
  intros Hx Hwx Hg Hwg.
  pose proof (tspec_get x s Hx Hwx) as Sx.
  pose proof (tspec_get y_grad s Hg Hwg) as Sg.
  destruct (GELU_forward_spec x s _ Sx) as (y & b & Efwd & Sb & _).
  destruct (GELU_backward_spec x (scalar gelu_a) b y_grad s _ _ _ gelu_a
              Sx (is_scalar_scalar gelu_a) Sb Sg) as (dx & Ebwd & Sdx).
  exists y, b, dx. split; [exact Efwd|]. split; [exact Sb|].
  split; [exact Ebwd|].
  eapply tspec_ext; [exact Sdx|].
  intros idx _. cbn beta. unfold gelu_db, Rdiv.
  rewrite sech_sq. ring.
Qed.

(** The theorem at a vector of three entries. *)
Lemma GELU_backward_derivative_witness :
  exists y b dx,
    GELUFn.forward Ex.v3 = Ok (y, GELUFn.save_for_backward Ex.v3 (scalar gelu_a) b)
    /\ tspec b [3%nat] (fun idx => gelu_b (get Ex.v3 idx))
    /\ GELUFn.backward (GELUFn.save_for_backward Ex.v3 (scalar gelu_a) b) Ex.w3
       = Ok dx
    /\ tspec dx [3%nat]
         (fun idx =>
            get Ex.w3 idx
            * (1 / 2 * (1 + tanh (gelu_b (get Ex.v3 idx))
                        + get Ex.v3 idx * sech (gelu_b (get Ex.v3 idx)) ^ 2
                          * gelu_db (get Ex.v3 idx)))).
Proof.
  apply (GELU_backward_derivative Ex.v3 Ex.w3 [3%nat]); reflexivity.
Defined.

(** ** Layer normalisation, forward *)

(** C7 (as amended: the variance is v / (v + eps), not about 1 for every
    input).  The values [forward] computes before gain and bias have, in each
    row, mean 0 and variance v / (v + eps), where v is the variance of that
    row of the input and eps = 1e-05: the variance lies in [0, 1) and misses
    1 by eps / (v + eps).  Two equal rows of the input give equal rows of the
    output. *)
Theorem LayerNorm_forward_normalizes (x gamma beta : tensor) (T C : nat) :
  matrix x T C -> vector gamma C -> vector beta C ->
  exists y k,
    LayerNormFn.forward x gamma beta = Ok (y, k)
    /\ (forall t c, (t < T)%nat -> (c < C)%nat ->
        get y [t; c] = pre_affine k t c * get gamma [c] + get beta [c])
    /\ (forall t, (t < T)%nat ->
        mean_of C (pre_affine k t) = 0
        /\ var_of C (pre_affine k t)
           = row_var x C t / (row_var x C t + LayerNormFn.eps)
        /\ 0 <= var_of C (pre_affine k t) < 1
        /\ 1 - var_of C (pre_affine k t)
           = LayerNormFn.eps / (row_var x C t + LayerNormFn.eps))
    /\ (forall t1 t2, (t1 < T)%nat -> (t2 < T)%nat ->
        (forall c, (c < C)%nat -> get x [t1; c] = get x [t2; c]) ->
        forall c, (c < C)%nat -> get y [t1; c] = get y [t2; c]).
Proof.
  intros Hx Hg Hb.
  destruct (LayerNorm_forward_spec x gamma beta T C Hx Hg Hb)
    as (y & m & mu & v & sigma & Efwd & Smu & Ssig & Sy).
  exists y, (LayerNormFn.save_for_backward x gamma beta m mu v sigma y).
  split; [exact Efwd|].
  assert (Hpre : forall t c, (t < T)%nat -> (c < C)%nat ->
            pre_affine (LayerNormFn.save_for_backward x gamma beta m mu v sigma y) t c
            = normalized x C t c).
  { intros t c Ht Hc. unfold pre_affine. cbn [LayerNormFn.saved_mu LayerNormFn.saved_sigma].
    destruct Smu as (_ & _ & Hmu). destruct Ssig as (_ & _ & Hsig).
    rewrite (Hmu [t; c]) by (apply in_range_2_intro; assumption).
    rewrite (Hsig [t]) by (apply in_range_1_intro; assumption).
    reflexivity. }
  assert (Hy : forall t c, (t < T)%nat -> (c < C)%nat ->
            get y [t; c] = normalized x C t c * get gamma [c] + get beta [c]).
  { intros t c Ht Hc. destruct Sy as (_ & _ & Hy).
    exact (Hy [t; c] (in_range_2_intro _ _ _ _ Ht Hc)). }
  split; [|split].
  - intros t c Ht Hc. rewrite Hpre by assumption. apply Hy; assumption.
  - intros t Ht.
    assert (Hv : var_of C (pre_affine
                   (LayerNormFn.save_for_backward x gamma beta m mu v sigma y) t)
                 = row_var x C t / (row_var x C t + LayerNormFn.eps)).
    { rewrite (var_of_ext C _ (normalized x C t)).
      - apply normalized_var.
      - intros c Hc. apply Hpre; assumption. }
    split; [|split; [exact Hv|split]].
    + rewrite (mean_of_ext C _ (normalized x C t)).
      * apply normalized_mean.
      * intros c Hc. apply Hpre; assumption.
    + rewrite Hv. apply normalized_var_bounds.
    + rewrite Hv. apply normalized_var_gap.
  - intros t1 t2 Ht1 Ht2 Hrow c Hc.
    rewrite !Hy by assumption.
    rewrite (normalized_row_ext x C t1 t2 Hrow c Hc). reflexivity.
Qed.

(** The theorem at a row [1; 3] with unit gain and zero bias. *)
Lemma LayerNorm_forward_normalizes_witness :
  exists y k,
    LayerNormFn.forward Ex.x_row Ex.ones2 Ex.zeros2 = Ok (y, k)
    /\ (forall t c, (t < 1)%nat -> (c < 2)%nat ->
        get y [t; c] = pre_affine k t c * get Ex.ones2 [c] + get Ex.zeros2 [c])
    /\ (forall t, (t < 1)%nat ->
        mean_of 2 (pre_affine k t) = 0
        /\ var_of 2 (pre_affine k t)
           = row_var Ex.x_row 2 t / (row_var Ex.x_row 2 t + LayerNormFn.eps)
        /\ 0 <= var_of 2 (pre_affine k t) < 1
        /\ 1 - var_of 2 (pre_affine k t)
           = LayerNormFn.eps / (row_var Ex.x_row 2 t + LayerNormFn.eps))
    /\ (forall t1 t2, (t1 < 1)%nat -> (t2 < 1)%nat ->
        (forall c, (c < 2)%nat -> get Ex.x_row [t1; c] = get Ex.x_row [t2; c]) ->
        forall c, (c < 2)%nat -> get y [t1; c] = get y [t2; c]).
Proof.
  apply (LayerNorm_forward_normalizes Ex.x_row Ex.ones2 Ex.zeros2 1 2);
    split; reflexivity.
Defined.

(** C7 as stated fails on a row of equal entries: it is normalised to
    zeros, so the variance of the pre-affine values is 0, at distance 1 from
    the claimed value 1. *)
Lemma LayerNorm_constant_row_variance :
  matrix Ex.x_const 1 2 /\
  exists y k,
    LayerNormFn.forward Ex.x_const Ex.ones2 Ex.zeros2 = Ok (y, k)
    /\ var_of 2 (pre_affine k 0) = 0
    /\ Rabs (var_of 2 (pre_affine k 0) - 1) = 1.
Proof.
  split; [split; reflexivity|].
  do 2 eexists. split; [reflexivity|].
  match goal with |- var_of 2 ?f = 0 /\ _ => assert (Hv : var_of 2 f = 0) end.
  { unfold var_of, mean_of, pre_affine, Rsum, get.
    cbv -[Rplus Rmult Rminus Rdiv Rinv Ropp IZR sqrt LayerNormFn.rsqrt
          LayerNormFn.eps INR].
    simpl INR. field_simplify_eq; lra. }
  split; [exact Hv|]. rewrite Hv.
  unfold Rabs. destruct (Rcase_abs (0 - 1)); lra.
Qed.

(** C10.  The constructor of the [LayerNorm] module sets the gain to ones and
    the bias to zeros, so the forward of a freshly constructed module returns
    the row-centered input times the row inverse standard deviation. *)
Theorem LayerNorm_module_fresh_is_pure_normalization
    (x : tensor) (T C : nat) (junk : list nat -> R) :
  matrix x T C ->
  is_vec (LayerNorm.gamma (LayerNorm.init C junk)) C (fun _ => 1)
  /\ is_vec (LayerNorm.beta (LayerNorm.init C junk)) C (fun _ => 0)
  /\ exists y,
       LayerNorm.forward (LayerNorm.init C junk) x = Ok y
       /\ is_mat y T C
            (fun t c => centered x C t c * inv_std x C t).
Proof.
  intros Hx.
  assert (Hg : is_vec (LayerNorm.gamma (LayerNorm.init C junk)) C (fun _ => 1))
    by apply tspec_tinit.
  assert (Hb : is_vec (LayerNorm.beta (LayerNorm.init C junk)) C (fun _ => 0))
    by apply tspec_tinit.
  split; [exact Hg|]. split; [exact Hb|].
  destruct (LayerNorm_forward_spec x _ _ T C Hx
              (conj (proj1 Hg) (proj1 (proj2 Hg)))
              (conj (proj1 Hb) (proj1 (proj2 Hb))))
    as (y & m & mu & v & sigma & Efwd & _ & _ & Sy).
  exists y. split.
  - unfold LayerNorm.forward, apply. rewrite Efwd. reflexivity.
  - eapply is_mat_ext; [exact Sy|].
    intros t c Ht Hc. cbn beta.
    destruct Hg as (_ & _ & Hg). destruct Hb as (_ & _ & Hb).
    rewrite (Hg [c]) by (apply in_range_1_intro; exact Hc).
    rewrite (Hb [c]) by (apply in_range_1_intro; exact Hc).
    unfold normalized. ring.
Qed.

(** The theorem at a row [1; 3]. *)
Lemma LayerNorm_module_fresh_witness :
  is_vec (LayerNorm.gamma (LayerNorm.init 2 (fun _ => 7))) 2 (fun _ => 1)
  /\ is_vec (LayerNorm.beta (LayerNorm.init 2 (fun _ => 7))) 2 (fun _ => 0)
  /\ exists y,
       LayerNorm.forward (LayerNorm.init 2 (fun _ => 7)) Ex.x_row = Ok y
       /\ is_mat y 1 2
            (fun t c => centered Ex.x_row 2 t c * inv_std Ex.x_row 2 t).
Proof.
  apply (LayerNorm_module_fresh_is_pure_normalization Ex.x_row 1 2 (fun _ => 7)).
  split; reflexivity.
Defined.

(** ** Addition *)

(** C8.  For tensors of equal shape the forward of [Add] is commutative, and
    for every upstream gradient its backward returns that gradient unchanged
    for both inputs. *)
Theorem Add_commutative_and_identity (a b : tensor) :
  shape a = shape b ->
  (exists y, AddFn.forward a b = Ok (y, tt) /\ AddFn.forward b a = Ok (y, tt))
  /\ forall y_grad, AddFn.backward tt y_grad = Ok (y_grad, y_grad).
Proof.
  intros Hs. split; [|reflexivity].
  unfold AddFn.forward, tadd.
  rewrite (binop_comm Rplus b a Rplus_comm (eq_sym Hs)).
  rewrite <- Hs, shape_eqb_refl.
  unfold binop. rewrite <- Hs, broadcast_shapes_refl. cbn [bind].
  eexists. split; reflexivity.
Qed.

(** The theorem at two vectors of three entries. *)
Lemma Add_commutative_and_identity_witness :
  (exists y, AddFn.forward Ex.v3 Ex.w3 = Ok (y, tt)
             /\ AddFn.forward Ex.w3 Ex.v3 = Ok (y, tt))
  /\ forall y_grad, AddFn.backward tt y_grad = Ok (y_grad, y_grad).
Proof.
  apply (Add_commutative_and_identity Ex.v3 Ex.w3). reflexivity.
Defined.

(** * Further properties of the operators *)

(** ** Linear *)

Section LinearAlgebra.

Lemma Rsum_swap (n m : nat) (f : nat -> nat -> R) :
  Rsum n (fun i => Rsum m (fun j => f i j))
  = Rsum m (fun j => Rsum n (fun i => f i j)).
Proof.
  induction n as [|n IH].
  - rewrite Rsum_0. rewrite (Rsum_ext m _ (fun _ => 0)).
    + rewrite Rsum_const. ring.
    + intros j _. apply Rsum_0.
  - rewrite Rsum_S, IH, <- Rsum_plus. apply Rsum_ext.
    intros j _. rewrite Rsum_S. reflexivity.
Qed.

Lemma Rsum_diff_l (n : nat) (a b c : nat -> R) :
  Rsum n (fun i => (a i - b i) * c i)
  = Rsum n (fun i => a i * c i) - Rsum n (fun i => b i * c i).
Proof. rewrite <- Rsum_minus. apply Rsum_ext. intros; ring. Qed.

Lemma Rsum_diff_r (n : nat) (a b c : nat -> R) :
  Rsum n (fun i => c i * (a i - b i))
  = Rsum n (fun i => c i * a i) - Rsum n (fun i => c i * b i).
Proof. rewrite <- Rsum_minus. apply Rsum_ext. intros; ring. Qed.

Lemma transpose_mat (a : tensor) (T C : nat) (fa : nat -> nat -> R) :
  is_mat a T C fa -> is_mat (transpose a) C T (fun i j => fa j i).
Proof.
  intros (Hs & _ & Hg). unfold transpose. rewrite Hs. cbn [rev app].
  eapply tspec_ext; [apply tspec_tinit|].
  intros idx Hi. apply in_range_2 in Hi. destruct Hi as (i & j & -> & Hi & Hj).
  cbn [rev app nth]. apply (Hg [j; i]). apply in_range_2_intro; assumption.
Qed.

Lemma matmul_mat (a b : tensor) (T K P : nat) (fa fb : nat -> nat -> R) :
  is_mat a T K fa -> is_mat b K P fb ->
  exists r, matmul a b = Ok r
            /\ is_mat r T P (fun t p => Rsum K (fun j => fa t j * fb j p)).
Proof.
  intros (Ha & Hwa & Hga) (Hb & Hwb & Hgb). unfold matmul.
  rewrite Ha, Hb.
  cbn [length Nat.eqb orb negb Nat.sub firstn nth app].
  rewrite Nat.eqb_refl. cbn [negb broadcast_shapes rev bshape_rev option_map app].
  eexists. split; [reflexivity|].
  eapply tspec_ext; [exact (tspec_tinit [T; P] _)|].
  intros idx Hi. apply in_range_2 in Hi. destruct Hi as (t & p & -> & Ht & Hp).
  cbn [length firstn nth bidx rev bidx_rev app]. apply Rsum_ext. intros j Hj.
  f_equal.
  - pose proof (Hga [t; j] (in_range_2_intro _ _ _ _ Ht Hj)) as E.
    cbn [nth] in E. rewrite <- E.
    unfold get. cbn [shape data]. rewrite Ha. reflexivity.
  - pose proof (Hgb [j; p] (in_range_2_intro _ _ _ _ Hj Hp)) as E.
    cbn [nth] in E. rewrite <- E.
    unfold get. cbn [shape data]. rewrite Hb. reflexivity.
Qed.

Lemma matmul_inner_mismatch (a b : tensor) (T K K' P : nat) :
  shape a = [T; K] -> shape b = [K'; P] -> K <> K' ->
  matmul a b = Err RuntimeError.
Proof.
  intros Ha Hb Hne. unfold matmul. rewrite Ha, Hb.
  cbn [length Nat.eqb orb negb Nat.sub firstn nth app].
  destruct (Nat.eqb_spec K K'); [contradiction|reflexivity].
Qed.

Lemma expand_as_row (b0 out : tensor) (T O : nat) (fb : nat -> nat -> R) :
  is_mat b0 1 O fb -> shape out = [T; O] ->
  exists r, expand_as b0 out = Ok r /\ is_mat r T O (fun _ o => fb 0%nat o).
Proof.
  intros (Hs & _ & Hg) Ho. unfold expand_as. rewrite Hs, Ho.
  cbn [rev app expandable_rev]. rewrite Nat.eqb_refl.
  cbn [orb andb Nat.eqb]. rewrite orb_true_r. cbn [andb].
  eexists. split; [reflexivity|].
  eapply tspec_ext; [apply tspec_tinit|].
  intros idx Hi. apply in_range_2 in Hi. destruct Hi as (t & o & -> & Ht & Ho').
  cbn beta. rewrite bidx_row by exact Ho'.
  apply (Hg [0%nat; o]). apply in_range_2_intro; [lia|exact Ho'].
Qed.

End LinearAlgebra.

Lemma Linear_forward_spec (x weight bias : tensor) (T I O : nat) :
  matrix x T I -> matrix weight O I -> vector bias O ->
  exists y,
    LinearFn.forward x weight bias
    = Ok (y, LinearFn.save_for_backward x weight bias)
    /\ is_mat y T O
         (fun t o => Rsum I (fun i => get x [t; i] * get weight [o; i])
                     + get bias [o]).
Proof.
  intros Hx Hw Hb.
  apply matrix_is_mat in Hx, Hw. apply vector_is_vec in Hb.
  unfold LinearFn.forward, tadd.
  step (matmul_mat _ _ _ _ _ _ _ Hx (transpose_mat _ _ _ _ Hw)) out Sout.
  step (unsqueeze0_vec _ _ _ Hb) bias0 Sb0.
  step (expand_as_row _ out T O _ Sb0 (proj1 Sout)) bias_e Sbe.
  step (binop_mat_mat Rplus _ _ _ _ _ _ Sout Sbe) y Sy.
  exists y. split; [reflexivity|exact Sy].
Qed.

Lemma Linear_backward_spec (x weight bias y_grad : tensor) (T I O : nat) :
  matrix x T I -> matrix weight O I -> matrix y_grad T O ->
  exists dx dw db,
    LinearFn.backward (LinearFn.save_for_backward x weight bias) y_grad
    = Ok (dx, dw, db)
    /\ is_mat dx T I
         (fun t i => Rsum O (fun o => get y_grad [t; o] * get weight [o; i]))
    /\ is_mat dw O I
         (fun o i => Rsum T (fun t => get y_grad [t; o] * get x [t; i]))
    /\ is_vec db O (fun o => Rsum T (fun t => get y_grad [t; o])).
Proof.
  intros Hx Hw Hg.
  apply matrix_is_mat in Hx, Hw, Hg.
  unfold LinearFn.backward.
  step (matmul_mat _ _ _ _ _ _ _ Hg Hw) dx Sdx.
  step (matmul_mat _ _ _ _ _ _ _ (transpose_mat _ _ _ _ Hg) Hx) dw Sdw.
  step (tsum0_mat _ _ _ _ Hg) db Sdb.
  exists dx, dw, db. split; [reflexivity|].
  split; [exact Sdx|]. split; [exact Sdw|exact Sdb].
Qed.

(** X1.  The affine map [x W^T + b], entry by entry, through the module. *)
Theorem Linear_forward_affine (self : Linear.t) (x : tensor) (T I O : nat) :
  matrix x T I -> matrix (Linear.weight self) O I ->
  vector (Linear.bias self) O ->
  exists y,
    Linear.forward self x = Ok y
    /\ is_mat y T O
         (fun t o =>
            Rsum I (fun i => get x [t; i] * get (Linear.weight self) [o; i])
            + get (Linear.bias self) [o]).
Proof.
  intros Hx Hw Hb.
  destruct (Linear_forward_spec x _ _ T I O Hx Hw Hb) as (y & E & Sy).
  exists y. split; [|exact Sy].
  unfold Linear.forward, apply. rewrite E. reflexivity.
Qed.

(** X2.  The three gradients, entry by entry: [y_grad @ weight],
    [y_grad.T @ x] and the column sums of [y_grad]. *)
Theorem Linear_backward_gradients
    (x weight bias y_grad : tensor) (T I O : nat) :
  matrix x T I -> matrix weight O I -> vector bias O -> matrix y_grad T O ->
  exists y k dx dw db,
    LinearFn.forward x weight bias = Ok (y, k)
    /\ LinearFn.backward k y_grad = Ok (dx, dw, db)
    /\ is_mat dx T I
         (fun t i => Rsum O (fun o => get y_grad [t; o] * get weight [o; i]))
    /\ is_mat dw O I
         (fun o i => Rsum T (fun t => get y_grad [t; o] * get x [t; i]))
    /\ is_vec db O (fun o => Rsum T (fun t => get y_grad [t; o])).
Proof.
  intros Hx Hw Hb Hg.
  destruct (Linear_forward_spec x weight bias T I O Hx Hw Hb) as (y & E & _).
  destruct (Linear_backward_spec x weight bias y_grad T I O Hx Hw Hg)
    as (dx & dw & db & Eb & S).
  exists y, (LinearFn.save_for_backward x weight bias), dx, dw, db.
  split; [exact E|]. split; [exact Eb|exact S].
Qed.

Lemma inner2_ext (T C : nat) (a a' b b' : nat -> nat -> R) :
  (forall t c, (t < T)%nat -> (c < C)%nat -> a t c = a' t c) ->
  (forall t c, (t < T)%nat -> (c < C)%nat -> b t c = b' t c) ->
  inner2 T C a b = inner2 T C a' b'.
Proof.
  intros Ha Hb. unfold inner2. apply Rsum_ext. intros t Ht.
  apply Rsum_ext. intros c Hc. rewrite Ha, Hb by assumption. reflexivity.
Qed.

Lemma is_mat_get (t : tensor) (T C : nat) (f : nat -> nat -> R) (i j : nat) :
  is_mat t T C f -> (i < T)%nat -> (j < C)%nat -> get t [i; j] = f i j.
Proof.
  intros (_ & _ & Hg) Hi Hj. exact (Hg [i; j] (in_range_2_intro _ _ _ _ Hi Hj)).
Qed.

Lemma is_vec_get (t : tensor) (n : nat) (f : nat -> R) (i : nat) :
  is_vec t n f -> (i < n)%nat -> get t [i] = f i.
Proof.
  intros (_ & _ & Hg) Hi. exact (Hg [i] (in_range_1_intro _ _ Hi)).
Qed.

(** X3.  [forward] is affine in each of input, weight and bias, and each
    gradient pairs with a change of its argument exactly as the upstream
    gradient pairs with the change of the output. *)
Theorem Linear_backward_exact_increments
    (x x' weight weight' bias bias' y_grad : tensor) (T I O : nat) :
  matrix x T I -> matrix x' T I -> matrix weight O I -> matrix weight' O I ->
  vector bias O -> vector bias' O -> matrix y_grad T O ->
  exists y k yx yw yb kx kw kb dx dw db,
    LinearFn.forward x weight bias = Ok (y, k)
    /\ LinearFn.forward x' weight bias = Ok (yx, kx)
    /\ LinearFn.forward x weight' bias = Ok (yw, kw)
    /\ LinearFn.forward x weight bias' = Ok (yb, kb)
    /\ LinearFn.backward k y_grad = Ok (dx, dw, db)
    /\ inner2 T O (entries2 y_grad)
         (fun t o => get yx [t; o] - get y [t; o])
       = inner2 T I (entries2 dx) (fun t i => get x' [t; i] - get x [t; i])
    /\ inner2 T O (entries2 y_grad)
         (fun t o => get yw [t; o] - get y [t; o])
       = inner2 O I (entries2 dw)
           (fun o i => get weight' [o; i] - get weight [o; i])
    /\ inner2 T O (entries2 y_grad)
         (fun t o => get yb [t; o] - get y [t; o])
       = inner1 O (entries1 db) (fun o => get bias' [o] - get bias [o]).
Proof.
  intros Hx Hx' Hw Hw' Hb Hb' Hg.
  destruct (Linear_forward_spec x weight bias T I O Hx Hw Hb) as (y & E & Sy).
  destruct (Linear_forward_spec x' weight bias T I O Hx' Hw Hb) as (yx & Ex & Syx).
  destruct (Linear_forward_spec x weight' bias T I O Hx Hw' Hb) as (yw & Ew & Syw).
  destruct (Linear_forward_spec x weight bias' T I O Hx Hw Hb') as (yb & Eb & Syb).
  destruct (Linear_backward_spec x weight bias y_grad T I O Hx Hw Hg)
    as (dx & dw & db & Ebwd & Sdx & Sdw & Sdb).
  exists y, (LinearFn.save_for_backward x weight bias), yx, yw, yb.
  do 3 eexists. exists dx, dw, db.
  split; [exact E|]. split; [exact Ex|]. split; [exact Ew|].
  split; [exact Eb|]. split; [exact Ebwd|].
  split; [|split].
  - rewrite (inner2_ext T O _ (entries2 y_grad) _
               (fun t o => Rsum I (fun i =>
                  (get x' [t; i] - get x [t; i]) * get weight [o; i]))).
    2: { intros; reflexivity. }
    2: { intros t o Ht Ho. rewrite (is_mat_get _ _ _ _ _ _ Syx Ht Ho).
         rewrite (is_mat_get _ _ _ _ _ _ Sy Ht Ho).
         rewrite Rsum_diff_l. ring. }
    rewrite (inner2_ext T I (entries2 dx)
               (fun t i => Rsum O (fun o => get y_grad [t; o] * get weight [o; i]))
               _ (fun t i => get x' [t; i] - get x [t; i])).
    2: { intros t i Ht Hi. exact (is_mat_get _ _ _ _ _ _ Sdx Ht Hi). }
    2: { intros; reflexivity. }
    unfold inner2, entries2. apply Rsum_ext. intros t Ht.
    rewrite (Rsum_ext O _ (fun o => Rsum I (fun i =>
               get y_grad [t; o] * get weight [o; i]
               * (get x' [t; i] - get x [t; i])))).
    2: { intros o _. rewrite <- Rsum_scal_l. apply Rsum_ext. intros; ring. }
    rewrite Rsum_swap. apply Rsum_ext. intros i _.
    rewrite Rsum_scal_r. reflexivity.
  - rewrite (inner2_ext T O _ (entries2 y_grad) _
               (fun t o => Rsum I (fun i =>
                  get x [t; i] * (get weight' [o; i] - get weight [o; i])))).
    2: { intros; reflexivity. }
    2: { intros t o Ht Ho. rewrite (is_mat_get _ _ _ _ _ _ Syw Ht Ho).
         rewrite (is_mat_get _ _ _ _ _ _ Sy Ht Ho).
         rewrite Rsum_diff_r. ring. }
    rewrite (inner2_ext O I (entries2 dw)
               (fun o i => Rsum T (fun t => get y_grad [t; o] * get x [t; i]))
               _ (fun o i => get weight' [o; i] - get weight [o; i])).
    2: { intros o i Ho Hi. exact (is_mat_get _ _ _ _ _ _ Sdw Ho Hi). }
    2: { intros; reflexivity. }
    unfold inner2, entries2. rewrite Rsum_swap. apply Rsum_ext. intros o Ho.
    rewrite (Rsum_ext T _ (fun t => Rsum I (fun i =>
               get y_grad [t; o] * get x [t; i]
               * (get weight' [o; i] - get weight [o; i])))).
    2: { intros t _. rewrite <- Rsum_scal_l. apply Rsum_ext. intros; ring. }
    rewrite Rsum_swap. apply Rsum_ext. intros i _.
    rewrite Rsum_scal_r. reflexivity.
  - rewrite (inner2_ext T O _ (entries2 y_grad) _
               (fun t o => get bias' [o] - get bias [o])).
    2: { intros; reflexivity. }
    2: { intros t o Ht Ho. rewrite (is_mat_get _ _ _ _ _ _ Syb Ht Ho).
         rewrite (is_mat_get _ _ _ _ _ _ Sy Ht Ho). ring. }
    unfold inner2, inner1, entries2, entries1. rewrite Rsum_swap.
    apply Rsum_ext. intros o Ho.
    rewrite (is_vec_get _ _ _ _ Sdb Ho). rewrite Rsum_scal_r. reflexivity.
Qed.

(** *** Concrete operands, and shapes that do not fit *)

Lemma Linear_forward_affine_witness :
  exists y,
    Linear.forward {| Linear.weight := Ex.table; Linear.bias := Ex.ones2 |}
      Ex.g_rows = Ok y
    /\ is_mat y 3 2
         (fun t o =>
            Rsum 2 (fun i => get Ex.g_rows [t; i] * get Ex.table [o; i])
            + get Ex.ones2 [o]).
Proof.
  apply (Linear_forward_affine
           {| Linear.weight := Ex.table; Linear.bias := Ex.ones2 |}
           Ex.g_rows 3 2 2); split; reflexivity.
Defined.

Lemma Linear_backward_gradients_witness :
  exists y k dx dw db,
    LinearFn.forward Ex.g_rows Ex.table Ex.ones2 = Ok (y, k)
    /\ LinearFn.backward k Ex.g_rows = Ok (dx, dw, db)
    /\ is_mat dx 3 2
         (fun t i => Rsum 2 (fun o => get Ex.g_rows [t; o] * get Ex.table [o; i]))
    /\ is_mat dw 2 2
         (fun o i => Rsum 3 (fun t => get Ex.g_rows [t; o] * get Ex.g_rows [t; i]))
    /\ is_vec db 2 (fun o => Rsum 3 (fun t => get Ex.g_rows [t; o])).
Proof.
  apply (Linear_backward_gradients Ex.g_rows Ex.table Ex.ones2 Ex.g_rows 3 2 2);
    split; reflexivity.
Defined.

Lemma Linear_backward_exact_increments_witness :
  exists y k yx yw yb kx kw kb dx dw db,
    LinearFn.forward Ex.g_rows Ex.table Ex.ones2 = Ok (y, k)
    /\ LinearFn.forward Ex.logits3 Ex.table Ex.ones2 = Ok (yx, kx)
    /\ LinearFn.forward Ex.g_rows Ex.logits2 Ex.ones2 = Ok (yw, kw)
    /\ LinearFn.forward Ex.g_rows Ex.table Ex.zeros2 = Ok (yb, kb)
    /\ LinearFn.backward k Ex.g_rows = Ok (dx, dw, db)
    /\ inner2 3 2 (entries2 Ex.g_rows)
         (fun t o => get yx [t; o] - get y [t; o])
       = inner2 3 2 (entries2 dx)
           (fun t i => get Ex.logits3 [t; i] - get Ex.g_rows [t; i])
    /\ inner2 3 2 (entries2 Ex.g_rows)
         (fun t o => get yw [t; o] - get y [t; o])
       = inner2 2 2 (entries2 dw)
           (fun o i => get Ex.logits2 [o; i] - get Ex.table [o; i])
    /\ inner2 3 2 (entries2 Ex.g_rows)
         (fun t o => get yb [t; o] - get y [t; o])
       = inner1 2 (entries1 db)
           (fun o => get Ex.zeros2 [o] - get Ex.ones2 [o]).
Proof.
  apply (Linear_backward_exact_increments
           Ex.g_rows Ex.logits3 Ex.table Ex.logits2 Ex.ones2 Ex.zeros2
           Ex.g_rows 3 2 2); split; reflexivity.
Defined.

Lemma expandable_row_mismatch (T O B : nat) :
  B <> O -> B <> 1%nat -> expandable_rev (rev [1%nat; B]) (rev [T; O]) = false.
Proof.
  intros H1 H2. cbn [rev app expandable_rev].
  destruct (Nat.eqb_spec B O); [contradiction|].
  destruct (Nat.eqb_spec B 1); [contradiction|]. reflexivity.
Qed.

(** X4.  An input whose feature count differs from the weight's, or a bias whose
    length is neither the number of outputs nor 1, stops [forward]. *)
Theorem Linear_forward_shape_errors
    (x weight bias : tensor) (T I I' O B : nat) :
  matrix x T I -> matrix weight O I' -> shape bias = [B] ->
  I <> I' \/ (B <> O /\ B <> 1%nat) ->
  LinearFn.forward x weight bias = Err RuntimeError.
Proof.
  intros Hx Hw Hb Hbad. unfold LinearFn.forward.
  destruct (Nat.eq_dec I I') as [<-|Hne].
  - destruct Hbad as [Hbad|(H1 & H2)]; [contradiction|].
    apply matrix_is_mat in Hx, Hw.
    step (matmul_mat _ _ _ _ _ _ _ Hx (transpose_mat _ _ _ _ Hw)) out Sout.
    unfold unsqueeze. rewrite Hb.
    cbn [length Nat.leb bind insert_at firstn skipn app].
    unfold expand_as. cbn [shape]. rewrite (proj1 Sout).
    rewrite (expandable_row_mismatch T O B H1 H2). reflexivity.
  - rewrite (matmul_inner_mismatch x (transpose weight) T I I' O
               (proj1 Hx)); [reflexivity| |exact Hne].
    unfold transpose. cbn [shape]. rewrite (proj1 Hw). reflexivity.
Qed.

Lemma Linear_forward_shape_errors_witness :
  LinearFn.forward Ex.g_rows Ex.table Ex.v3 = Err RuntimeError.
Proof.
  apply (Linear_forward_shape_errors Ex.g_rows Ex.table Ex.v3 3 2 2 2 3).
  - split; reflexivity.
  - split; reflexivity.
  - reflexivity.
  - right. split; lia.
Defined.

(** ** GELU *)

Section Hyperbolic.

Lemma derivable_pt_lim_eq (f : R -> R) (x l l' : R) :
  derivable_pt_lim f x l -> l = l' -> derivable_pt_lim f x l'.
Proof. intros H <-. exact H. Qed.

Lemma cosh_pos (u : R) : 0 < cosh u.
Proof.
  unfold cosh. pose proof (exp_pos u). pose proof (exp_pos (- u)). lra.
Qed.

Lemma cosh2_sinh2 (u : R) : cosh u * cosh u - sinh u * sinh u = 1.
Proof.
  unfold cosh, sinh.
  assert (H : exp u * exp (- u) = 1).
  { rewrite <- exp_plus, Rplus_opp_r. apply exp_0. }
  field_simplify. nra.
Qed.

Lemma derivable_pt_lim_tanh (u : R) :
  derivable_pt_lim tanh u (sech u ^ 2).
Proof.
  pose proof (cosh_pos u) as Hc.
  eapply derivable_pt_lim_eq.
  - apply (derivable_pt_lim_ext (sinh / cosh)%F tanh); [reflexivity|].
    apply derivable_pt_lim_div.
    + apply derivable_pt_lim_sinh.
    + apply derivable_pt_lim_cosh.
    + lra.
  - unfold sech, Rsqr. pose proof (cosh2_sinh2 u) as H.
    replace (cosh u * cosh u - sinh u * sinh u) with 1 by lra.
    field. lra.
Qed.

Lemma tanh_opp (u : R) : tanh (- u) = - tanh u.
Proof.
  unfold tanh, sinh, cosh. rewrite Ropp_involutive.
  pose proof (exp_pos u). pose proof (exp_pos (- u)).
  field. lra.
Qed.

Lemma derivable_pt_lim_gelu_b (x : R) :
  derivable_pt_lim gelu_b x (gelu_db x).
Proof.
  eapply derivable_pt_lim_eq.
  - apply (derivable_pt_lim_ext
             (mult_real_fct gelu_a
                (id + mult_real_fct (44715 / 1000000) (fun y => y ^ 3))%F)).
    + intros z. reflexivity.
    + apply derivable_pt_lim_scal. apply derivable_pt_lim_plus.
      * apply derivable_pt_lim_id.
      * apply derivable_pt_lim_scal. apply derivable_pt_lim_pow.
  - unfold gelu_db. simpl. ring.
Qed.

Lemma derivable_pt_lim_gelu (x : R) :
  derivable_pt_lim gelu x (gelu_derivative x).
Proof.
  eapply derivable_pt_lim_eq.
  - apply (derivable_pt_lim_ext
             (mult_real_fct (1 / 2) id
              * (fct_cte 1 + comp tanh gelu_b))%F).
    + intros z. unfold gelu, mult_fct, mult_real_fct, plus_fct, fct_cte, comp, id.
      ring.
    + apply derivable_pt_lim_mult.
      * apply derivable_pt_lim_scal. apply derivable_pt_lim_id.
      * apply derivable_pt_lim_plus.
        -- apply derivable_pt_lim_const.
        -- apply derivable_pt_lim_comp.
           ++ apply derivable_pt_lim_gelu_b.
           ++ apply derivable_pt_lim_tanh.
  - unfold gelu_derivative, mult_real_fct, plus_fct, fct_cte, comp, id. ring.
Qed.

Lemma gelu_b_opp (x : R) : gelu_b (- x) = - gelu_b x.
Proof. unfold gelu_b. ring. Qed.

Lemma gelu_reflection (x : R) : gelu x - gelu (- x) = x.
Proof. unfold gelu. rewrite gelu_b_opp, tanh_opp. field. Qed.

Lemma gelu_0 : gelu 0 = 0.
Proof. unfold gelu. ring. Qed.

End Hyperbolic.

Lemma GELU_module_forward (x : tensor) (s : list nat) :
  shape x = s -> wf x ->
  exists y, GELU.forward x = Ok y /\ tspec y s (fun idx => gelu (get x idx)).
Proof.
  intros Hs Hw.
  destruct (GELU_forward_spec x s _ (tspec_get x s Hs Hw)) as (y & b & E & _ & Sy).
  exists y. split; [|exact Sy].
  unfold GELU.forward, apply. rewrite E. reflexivity.
Qed.

Lemma item_GELU_scalar (h : R) : item (GELU.forward (scalar h)) = gelu h.
Proof.
  destruct (GELU_module_forward (scalar h) [] eq_refl eq_refl) as (y & E & Sy).
  rewrite E. cbn [item]. destruct Sy as (_ & _ & Hg).
  rewrite (Hg []) by constructor. reflexivity.
Qed.

(** X5.  The factor [backward] multiplies the upstream gradient with is the
    derivative of the function [forward] computes. *)
Theorem GELU_backward_is_derivative (x0 : R) :
  exists y k dx,
    GELUFn.forward (scalar x0) = Ok (y, k)
    /\ GELUFn.backward k (scalar 1) = Ok dx
    /\ derivable_pt_lim (fun h => item (GELU.forward (scalar h))) x0
         (get dx []).
Proof.
  pose proof (is_scalar_scalar x0) as Sx.
  destruct (GELU_forward_spec (scalar x0) [] _ Sx) as (y & b & E & Sb & _).
  destruct (GELU_backward_spec (scalar x0) (scalar gelu_a) b (scalar 1) []
              _ _ _ gelu_a Sx (is_scalar_scalar gelu_a) Sb (is_scalar_scalar 1))
    as (dx & Eb & Sdx).
  exists y, (GELUFn.save_for_backward (scalar x0) (scalar gelu_a) b), dx.
  split; [exact E|]. split; [exact Eb|].
  apply (derivable_pt_lim_ext gelu); [intros z; symmetry; apply item_GELU_scalar|].
  eapply derivable_pt_lim_eq; [apply derivable_pt_lim_gelu|].
  destruct Sdx as (_ & _ & Hg). rewrite (Hg []) by constructor.
  unfold gelu_derivative, gelu_db, Rdiv. rewrite sech_sq. ring.
Qed.

(** *** Values *)

(** X6.  [forward] keeps the shape and applies one scalar function to every
    entry; that function vanishes at 0 and satisfies
    [gelu x - gelu (- x) = x]. *)
Theorem GELU_forward_reflection (x : tensor) (s : list nat) :
  shape x = s -> wf x ->
  exists y y',
    GELU.forward x = Ok y
    /\ GELU.forward (tmap Ropp x) = Ok y'
    /\ tspec y s
         (fun idx =>
            1 / 2 * get x idx
            * (1 + tanh (sqrt (2 / PI)
                         * (get x idx + 44715 / 1000000 * get x idx ^ 3))))
    /\ forall idx, in_range s idx ->
         get y idx - get y' idx = get x idx
         /\ (get x idx = 0 -> get y idx = 0).
Proof.
  intros Hs Hw.
  destruct (GELU_module_forward x s Hs Hw) as (y & E & Sy).
  pose proof (tspec_tmap Ropp x s _ (tspec_get x s Hs Hw)) as Sneg.
  destruct (GELU_module_forward (tmap Ropp x) s (proj1 Sneg) (proj1 (proj2 Sneg)))
    as (y' & E' & Sy').
  exists y, y'. split; [exact E|]. split; [exact E'|]. split; [exact Sy|].
  intros idx Hi. destruct Sy as (_ & _ & Hy). destruct Sy' as (_ & _ & Hy').
  destruct Sneg as (_ & _ & Hn).
  rewrite (Hy idx Hi), (Hy' idx Hi), (Hn idx Hi). split.
  - apply gelu_reflection.
  - intros ->. apply gelu_0.
Qed.

Lemma GELU_forward_reflection_witness :
  exists y y',
    GELU.forward Ex.v3 = Ok y
    /\ GELU.forward (tmap Ropp Ex.v3) = Ok y'
    /\ tspec y [3%nat]
         (fun idx =>
            1 / 2 * get Ex.v3 idx
            * (1 + tanh (sqrt (2 / PI)
                         * (get Ex.v3 idx + 44715 / 1000000 * get Ex.v3 idx ^ 3))))
    /\ forall idx, in_range [3%nat] idx ->
         get y idx - get y' idx = get Ex.v3 idx
         /\ (get Ex.v3 idx = 0 -> get y idx = 0).
Proof.
  apply (GELU_forward_reflection Ex.v3 [3%nat]); reflexivity.
Defined.

(** ** Cross entropy *)

Section SoftmaxFacts.

Lemma Rsum_term_le (n k : nat) (f : nat -> R) :
  (forall i, (i < n)%nat -> 0 <= f i) -> (k < n)%nat -> f k <= Rsum n f.
Proof.
  induction n as [|n IH]; intros Hf Hk; [lia|].
  rewrite Rsum_S.
  assert (0 <= Rsum n f) by (apply Rsum_nonneg; intros; apply Hf; lia).
  destruct (Nat.eq_dec k n) as [->|Hne]; [lra|].
  assert (f k <= Rsum n f) by (apply IH; [intros; apply Hf; lia|lia]).
  specialize (Hf n (Nat.lt_succ_diag_r n)). lra.
Qed.

Lemma Rsum_exp_pos (x : tensor) (C t : nat) :
  (0 < C)%nat -> 0 < Rsum C (fun c' => exp (get x [t; c'])).
Proof. intros HC. apply Rsum_pos; [exact HC|]. intros; apply exp_pos. Qed.

Lemma softmax_range (x : tensor) (C t c : nat) :
  (c < C)%nat -> 0 < softmax x C t c <= 1.
Proof.
  intros Hc. unfold softmax.
  assert (HS : 0 < Rsum C (fun c' => exp (get x [t; c'])))
    by (apply Rsum_exp_pos; lia).
  pose proof (exp_pos (get x [t; c])) as He.
  assert (Hle : exp (get x [t; c]) <= Rsum C (fun c' => exp (get x [t; c']))).
  { apply (Rsum_term_le C c (fun c' => exp (get x [t; c']))); [|exact Hc].
    intros i _. apply Rlt_le, exp_pos. }
  split.
  - apply Rdiv_lt_0_compat; assumption.
  - apply (Rmult_le_reg_r (Rsum C (fun c' => exp (get x [t; c'])))); [exact HS|].
    unfold Rdiv. rewrite Rmult_assoc, Rinv_l by lra. lra.
Qed.

Lemma ln_nonpos (p : R) : 0 < p <= 1 -> ln p <= 0.
Proof.
  intros (Hp & [Hlt|Heq]).
  - rewrite <- ln_1. apply Rlt_le, ln_increasing; assumption.
  - rewrite Heq, ln_1. lra.
Qed.

Lemma softmax_shift (x x' : tensor) (C t : nat) (k : R) :
  (forall c, (c < C)%nat -> get x' [t; c] = get x [t; c] + k) ->
  forall c, (c < C)%nat -> softmax x' C t c = softmax x C t c.
Proof.
  intros H c Hc. unfold softmax.
  rewrite (Rsum_ext C (fun c' => exp (get x' [t; c']))
             (fun c' => exp (get x [t; c']) * exp k)).
  - rewrite (H c Hc), exp_plus, Rsum_scal_r.
    assert (HS : 0 < Rsum C (fun c' => exp (get x [t; c'])))
      by (apply Rsum_exp_pos; lia).
    pose proof (exp_pos k). field. split; lra.
  - intros c' Hc'. rewrite (H c' Hc'). apply exp_plus.
Qed.

End SoftmaxFacts.

Lemma CrossEntropy_module_forward (x : tensor) (y : itensor) (T C : nat) :
  matrix x T C -> length y = T -> indices_in y C ->
  exists loss,
    CrossEntropy.forward x y = Ok loss
    /\ is_scalar loss
         (- (Rsum T (fun t => ln (softmax x C t (idx_at y t))) / INR T)).
Proof.
  intros Hx Hlen Hy.
  destruct (CrossEntropy_forward_spec x y T C Hx Hlen Hy)
    as (loss & s & E & _ & Sl).
  exists loss. split; [|exact Sl].
  unfold CrossEntropy.forward, apply. rewrite E. reflexivity.
Qed.

Lemma item_CrossEntropy (x : tensor) (y : itensor) (T C : nat) :
  matrix x T C -> length y = T -> indices_in y C ->
  item (CrossEntropy.forward x y)
  = - (Rsum T (fun t => ln (softmax x C t (idx_at y t))) / INR T).
Proof.
  intros Hx Hlen Hy.
  destruct (CrossEntropy_module_forward x y T C Hx Hlen Hy) as (loss & E & Sl).
  rewrite E. cbn [item]. destruct Sl as (_ & _ & Hg). apply Hg. constructor.
Qed.

(** X7.  The saved probabilities are a distribution per row, and the loss of a
    non-empty batch is not negative. *)
Theorem CrossEntropy_forward_distribution
    (x : tensor) (y : itensor) (T C : nat) :
  matrix x T C -> length y = T -> indices_in y C ->
  exists loss k,
    CrossEntropyFn.forward x y = Ok (loss, k)
    /\ (forall t c, (t < T)%nat -> (c < C)%nat ->
        0 < get (CrossEntropyFn.saved_s k) [t; c] <= 1)
    /\ (forall t, (t < T)%nat ->
        Rsum C (fun c => get (CrossEntropyFn.saved_s k) [t; c]) = 1)
    /\ ((0 < T)%nat -> 0 <= get loss []).
Proof.
  intros Hx Hlen Hy.
  destruct (CrossEntropy_forward_spec x y T C Hx Hlen Hy)
    as (loss & s & E & Ss & Sl).
  exists loss, (CrossEntropyFn.save_for_backward x y s).
  split; [exact E|]. cbn [CrossEntropyFn.saved_s]. split; [|split].
  - intros t c Ht Hc. rewrite (is_mat_get _ _ _ _ _ _ Ss Ht Hc).
    apply softmax_range. exact Hc.
  - intros t Ht.
    assert (HC : (0 < C)%nat).
    { pose proof (idx_at_lt y C t Hy ltac:(lia)). lia. }
    rewrite (Rsum_ext C _ (softmax x C t)).
    + apply softmax_row_sum. exact HC.
    + intros c Hc. exact (is_mat_get _ _ _ _ _ _ Ss Ht Hc).
  - intros HT. destruct Sl as (_ & _ & Hg). rewrite (Hg []) by constructor.
    assert (Hs : Rsum T (fun t => ln (softmax x C t (idx_at y t))) <= 0).
    { rewrite <- (Ropp_involutive (Rsum T _)), <- Rsum_opp.
      apply Ropp_le_cancel. rewrite Ropp_involutive, Ropp_0.
      apply Rsum_nonneg. intros t Ht.
      pose proof (ln_nonpos _ (softmax_range x C t (idx_at y t)
                                 (idx_at_lt y C t Hy ltac:(lia)))). lra. }
    assert (HI : 0 < / INR T) by (apply Rinv_0_lt_compat, lt_0_INR; exact HT).
    unfold Rdiv. nra.
Qed.

(** X8.  Adding a constant to all logits of a row changes neither the saved
    probabilities nor the loss. *)
Theorem CrossEntropy_forward_shift_invariant
    (x x' : tensor) (y : itensor) (T C : nat) (shift : nat -> R) :
  matrix x T C -> matrix x' T C -> length y = T -> indices_in y C ->
  (forall t c, (t < T)%nat -> (c < C)%nat ->
     get x' [t; c] = get x [t; c] + shift t) ->
  exists loss k loss' k',
    CrossEntropyFn.forward x y = Ok (loss, k)
    /\ CrossEntropyFn.forward x' y = Ok (loss', k')
    /\ get loss' [] = get loss []
    /\ forall t c, (t < T)%nat -> (c < C)%nat ->
         get (CrossEntropyFn.saved_s k') [t; c]
         = get (CrossEntropyFn.saved_s k) [t; c].
Proof.
  intros Hx Hx' Hlen Hy Hshift.
  destruct (CrossEntropy_forward_spec x y T C Hx Hlen Hy)
    as (loss & s & E & Ss & Sl).
  destruct (CrossEntropy_forward_spec x' y T C Hx' Hlen Hy)
    as (loss' & s' & E' & Ss' & Sl').
  exists loss, (CrossEntropyFn.save_for_backward x y s),
    loss', (CrossEntropyFn.save_for_backward x' y s').
  split; [exact E|]. split; [exact E'|].
  assert (Hsm : forall t c, (t < T)%nat -> (c < C)%nat ->
            softmax x' C t c = softmax x C t c).
  { intros t c Ht Hc. apply (softmax_shift x x' C t (shift t)); [|exact Hc].
    intros c' Hc'. apply Hshift; assumption. }
  split.
  - destruct Sl as (_ & _ & Hg). destruct Sl' as (_ & _ & Hg').
    rewrite (Hg []), (Hg' []) by constructor. do 2 f_equal.
    apply Rsum_ext. intros t Ht. f_equal. apply Hsm; [exact Ht|].
    apply idx_at_lt; [exact Hy|lia].
  - intros t c Ht Hc. cbn [CrossEntropyFn.saved_s].
    rewrite (is_mat_get _ _ _ _ _ _ Ss Ht Hc), (is_mat_get _ _ _ _ _ _ Ss' Ht Hc).
    apply Hsm; assumption.
Qed.

(** *** Concrete operands *)

Lemma CrossEntropy_forward_distribution_witness :
  exists loss k,
    CrossEntropyFn.forward Ex.logits1 [1%Z] = Ok (loss, k)
    /\ (forall t c, (t < 1)%nat -> (c < 2)%nat ->
        0 < get (CrossEntropyFn.saved_s k) [t; c] <= 1)
    /\ (forall t, (t < 1)%nat ->
        Rsum 2 (fun c => get (CrossEntropyFn.saved_s k) [t; c]) = 1)
    /\ ((0 < 1)%nat -> 0 <= get loss []).
Proof.
  apply (CrossEntropy_forward_distribution Ex.logits1 [1%Z] 1 2).
  - split; reflexivity.
  - reflexivity.
  - constructor; [lia|constructor].
Defined.

Lemma CrossEntropy_forward_shift_invariant_witness :
  exists loss k loss' k',
    CrossEntropyFn.forward Ex.logits1 [1%Z] = Ok (loss, k)
    /\ CrossEntropyFn.forward (tmap (fun v => v + 5) Ex.logits1) [1%Z]
       = Ok (loss', k')
    /\ get loss' [] = get loss []
    /\ forall t c, (t < 1)%nat -> (c < 2)%nat ->
         get (CrossEntropyFn.saved_s k') [t; c]
         = get (CrossEntropyFn.saved_s k) [t; c].
Proof.
  apply (CrossEntropy_forward_shift_invariant
           Ex.logits1 (tmap (fun v => v + 5) Ex.logits1) [1%Z] 1 2 (fun _ => 5)).
  - split; reflexivity.
  - split; reflexivity.
  - reflexivity.
  - constructor; [lia|constructor].
  - intros t c Ht Hc. assert (t = 0%nat) by lia. subst t.
    destruct c as [|[|c]]; [reflexivity|reflexivity|lia].
Defined.

(** *** The gradient *)

Section CrossEntropyGradient.

Lemma Rsum_split (n k : nat) (f : nat -> R) :
  (k < n)%nat ->
  Rsum n f = f k + Rsum n (fun i => if (i =? k)%nat then 0 else f i).
Proof.
  intros Hk.
  rewrite (Rsum_ext n f (fun i => (if (k =? i)%nat then 1 else 0) * f i
                                  + (if (i =? k)%nat then 0 else f i))).
  - rewrite Rsum_plus, Rsum_indicator_mult by exact Hk. reflexivity.
  - intros i _. rewrite (Nat.eqb_sym k i). destruct (i =? k)%nat; ring.
Qed.

Lemma get_tset (x : tensor) (T C t0 c0 t c : nat) (h : R) :
  shape x = [T; C] -> (t < T)%nat -> (c < C)%nat ->
  get (tset x [t0; c0] h) [t; c]
  = if ((t =? t0) && (c =? c0))%nat then h else get x [t; c].
Proof.
  intros Hs Ht Hc. unfold tset. rewrite Hs.
  destruct (tspec_tinit [T; C]
              (fun j => if shape_eqb j [t0; c0] then h else get x j))
    as (_ & _ & Hg).
  rewrite (Hg [t; c]) by (apply in_range_2_intro; assumption).
  cbn [shape_eqb]. rewrite andb_true_r. reflexivity.
Qed.

Lemma matrix_tset (x : tensor) (T C : nat) (idx : list nat) (h : R) :
  shape x = [T; C] -> matrix (tset x idx h) T C.
Proof.
  intros Hs. unfold tset. rewrite Hs.
  destruct (tspec_tinit [T; C]
              (fun j => if shape_eqb j idx then h else get x j)) as (H1 & H2 & _).
  split; assumption.
Qed.

Variables (x : tensor) (y : itensor) (T C t0 c0 : nat).
Hypothesis Hx : matrix x T C.
Hypothesis Hlen : length y = T.
Hypothesis Hy : indices_in y C.
Hypothesis Ht0 : (t0 < T)%nat.
Hypothesis Hc0 : (c0 < C)%nat.

Lemma other_exps_nonneg : 0 <= other_exps x C t0 c0.
Proof.
  unfold other_exps. apply Rsum_nonneg. intros c _.
  destruct (c =? c0)%nat; [lra|].
  apply Rlt_le, exp_pos.
Qed.

Lemma row_sum_tset (h : R) :
  Rsum C (fun c => exp (get (tset x [t0; c0] h) [t0; c]))
  = exp h + other_exps x C t0 c0.
Proof.
  unfold other_exps. rewrite (Rsum_split C c0) by exact Hc0.
  rewrite (get_tset x T C) by (try apply (proj1 Hx); assumption).
  rewrite !Nat.eqb_refl. cbn [andb]. f_equal. apply Rsum_ext. intros c Hc.
  destruct (Nat.eqb_spec c c0) as [->|Hne]; [reflexivity|].
  rewrite (get_tset x T C) by (try apply (proj1 Hx); assumption).
  rewrite Nat.eqb_refl. cbn [andb].
  destruct (Nat.eqb_spec c c0); [contradiction|reflexivity].
Qed.

Lemma row_sum_split :
  Rsum C (fun c => exp (get x [t0; c]))
  = exp (get x [t0; c0]) + other_exps x C t0 c0.
Proof. apply (Rsum_split C c0 (fun c => exp (get x [t0; c]))). exact Hc0. Qed.

Lemma loss_tset (h : R) :
  item (CrossEntropy.forward (tset x [t0; c0] h) y)
  = - / INR T
    * (other_rows x y T C t0
       + ln (target_exp x y t0 c0 h / (exp h + other_exps x C t0 c0))).
Proof.
  rewrite (item_CrossEntropy _ y T C (matrix_tset x T C _ h (proj1 Hx)) Hlen Hy).
  rewrite (Rsum_split T t0) by exact Ht0.
  assert (Hrest :
    Rsum T (fun t => if (t =? t0)%nat then 0
                     else ln (softmax (tset x [t0; c0] h) C t (idx_at y t)))
    = other_rows x y T C t0).
  { unfold other_rows. apply Rsum_ext. intros t Ht.
    destruct (Nat.eqb_spec t t0) as [->|Hne];
      [reflexivity|].
    f_equal. unfold softmax.
    assert (Hrow : forall c, (c < C)%nat ->
              get (tset x [t0; c0] h) [t; c] = get x [t; c]).
    { intros c Hc. rewrite (get_tset x T C) by (try apply (proj1 Hx); assumption).
      destruct (Nat.eqb_spec t t0); [contradiction|reflexivity]. }
    rewrite Hrow by (apply idx_at_lt; [exact Hy|lia]).
    f_equal. apply Rsum_ext. intros c Hc. rewrite Hrow by exact Hc. reflexivity. }
  rewrite Hrest.
  assert (Hk : (idx_at y t0 < C)%nat) by (apply idx_at_lt; [exact Hy|lia]).
  assert (Hnum : exp (get (tset x [t0; c0] h) [t0; idx_at y t0])
                 = target_exp x y t0 c0 h).
  { rewrite (get_tset x T C) by (try apply (proj1 Hx); assumption).
    rewrite Nat.eqb_refl. cbn [andb]. unfold target_exp.
    destruct (idx_at y t0 =? c0)%nat; reflexivity. }
  unfold softmax at 1. rewrite Hnum, row_sum_tset.
  unfold Rdiv. ring.
Qed.

Lemma derivable_pt_lim_row (h : R) :
  derivable_pt_lim
    (fun z => ln (target_exp x y t0 c0 z / (exp z + other_exps x C t0 c0))) h
    (indicator c0 (idx_at y t0) - exp h / (exp h + other_exps x C t0 c0)).
Proof.
  pose proof other_exps_nonneg as HK. pose proof (exp_pos h) as He.
  assert (HS : 0 < exp h + other_exps x C t0 c0) by lra.
  unfold target_exp, indicator. rewrite (Nat.eqb_sym c0).
  destruct (idx_at y t0 =? c0)%nat.
  - eapply derivable_pt_lim_eq.
    + apply (derivable_pt_lim_ext
               (comp ln (exp / (exp + fct_cte (other_exps x C t0 c0)))%F));
        [intros z; reflexivity|].
      apply derivable_pt_lim_comp.
      * apply derivable_pt_lim_div; [apply derivable_pt_lim_exp| |].
        -- apply derivable_pt_lim_plus;
             [apply derivable_pt_lim_exp|apply derivable_pt_lim_const].
        -- unfold plus_fct, fct_cte. lra.
      * apply derivable_pt_lim_ln. unfold div_fct, plus_fct, fct_cte.
        apply Rdiv_lt_0_compat; assumption.
    + unfold div_fct, plus_fct, fct_cte, Rsqr. field. split; lra.
  - pose proof (exp_pos (get x [t0; idx_at y t0])) as He0.
    eapply derivable_pt_lim_eq.
    + apply (derivable_pt_lim_ext
               (comp ln (fct_cte (exp (get x [t0; idx_at y t0]))
                         / (exp + fct_cte (other_exps x C t0 c0)))%F));
        [intros z; reflexivity|].
      apply derivable_pt_lim_comp.
      * apply derivable_pt_lim_div; [apply derivable_pt_lim_const| |].
        -- apply derivable_pt_lim_plus;
             [apply derivable_pt_lim_exp|apply derivable_pt_lim_const].
        -- unfold plus_fct, fct_cte. lra.
      * apply derivable_pt_lim_ln. unfold div_fct, plus_fct, fct_cte.
        apply Rdiv_lt_0_compat; assumption.
    + unfold div_fct, plus_fct, fct_cte, Rsqr. field. split; lra.
Qed.

Lemma derivable_pt_lim_loss (h : R) :
  derivable_pt_lim
    (fun z => item (CrossEntropy.forward (tset x [t0; c0] z) y)) h
    ((exp h / (exp h + other_exps x C t0 c0) - indicator c0 (idx_at y t0))
     / INR T).
Proof.
  apply (derivable_pt_lim_ext
           (mult_real_fct (- / INR T)
              (fct_cte (other_rows x y T C t0)
               + (fun z => ln (target_exp x y t0 c0 z
                               / (exp z + other_exps x C t0 c0))))%F)).
  - intros z. symmetry. apply loss_tset.
  - eapply derivable_pt_lim_eq.
    + apply derivable_pt_lim_scal. apply derivable_pt_lim_plus.
      * apply derivable_pt_lim_const.
      * apply derivable_pt_lim_row.
    + unfold Rdiv. ring.
Qed.

End CrossEntropyGradient.

(** X9.  The entry of the logits gradient is the partial derivative of the loss
    with respect to that logit. *)
Theorem CrossEntropy_backward_is_gradient
    (x : tensor) (y : itensor) (T C t0 c0 : nat) :
  matrix x T C -> length y = T -> indices_in y C ->
  (t0 < T)%nat -> (c0 < C)%nat ->
  exists loss k dx,
    CrossEntropyFn.forward x y = Ok (loss, k)
    /\ CrossEntropyFn.backward k (scalar 1) = Ok (Some dx, None)
    /\ derivable_pt_lim
         (fun h => item (CrossEntropy.forward (tset x [t0; c0] h) y))
         (get x [t0; c0]) (get dx [t0; c0]).
Proof.
  intros Hx Hlen Hy Ht0 Hc0.
  destruct (CrossEntropy_forward_spec x y T C Hx Hlen Hy)
    as (loss & s & E & Ss & _).
  destruct (CrossEntropy_backward_spec x s (scalar 1) y T C _ 1
              (proj1 Hx) Hlen Hy Ss (is_scalar_scalar 1)) as (dx & Eb & Sdx).
  exists loss, (CrossEntropyFn.save_for_backward x y s), dx.
  split; [exact E|]. split; [exact Eb|].
  eapply derivable_pt_lim_eq.
  - apply (derivable_pt_lim_loss x y T C t0 c0 Hx Hlen Hy Ht0 Hc0).
  - rewrite (is_mat_get _ _ _ _ _ _ Sdx Ht0 Hc0).
    unfold softmax. rewrite (row_sum_split x C t0 c0 Hc0). unfold Rdiv. ring.
Qed.

Lemma CrossEntropy_backward_is_gradient_witness :
  exists loss k dx,
    CrossEntropyFn.forward Ex.logits1 [1%Z] = Ok (loss, k)
    /\ CrossEntropyFn.backward k (scalar 1) = Ok (Some dx, None)
    /\ derivable_pt_lim
         (fun h => item (CrossEntropy.forward
                           (tset Ex.logits1 [0; 1]%nat h) [1%Z]))
         (get Ex.logits1 [0; 1]%nat) (get dx [0; 1]%nat).
Proof.
  apply (CrossEntropy_backward_is_gradient Ex.logits1 [1%Z] 1 2 0 1).
  - split; reflexivity.
  - reflexivity.
  - constructor; [lia|constructor].
  - lia.
  - lia.
Defined.

(** *** Targets and indices *)

Section IndexErrors.


Lemma norm_index_wrap (n : nat) (i : Z) :
  (0 <= i < Z.of_nat n)%Z ->
  norm_index n (i - Z.of_nat n) = Ok (Z.to_nat i).
Proof.
  intros H. unfold norm_index.
  destruct (Z.leb_spec 0 (i - Z.of_nat n)); [lia|]. cbn [andb].
  destruct (Z.leb_spec (- Z.of_nat n) (i - Z.of_nat n)); [|lia].
  destruct (Z.ltb_spec (i - Z.of_nat n) 0); [|lia]. cbn [andb].
  do 2 f_equal. lia.
Qed.


Lemma mapM_norm_index_wrap (n : nat) (y : itensor) :
  indices_in y n ->
  mapM (norm_index n) (map (fun i => (i - Z.of_nat n)%Z) y)
  = mapM (norm_index n) y.
Proof.
  intros Hy. rewrite (mapM_norm_index_in n y Hy).
  induction Hy as [|i y Hi _ IH]; cbn [map mapM]; [reflexivity|].
  rewrite (norm_index_wrap n i Hi), IH. reflexivity.
Qed.

End IndexErrors.

Lemma CrossEntropy_forward_unfold (x : tensor) (T C : nat) :
  matrix x T C ->
  exists s,
    shape s = [T; C]
    /\ forall y,
         CrossEntropyFn.forward x y
         = (p <- getitem2 s (arange T) y ;;
            m <- tmean 0 (tmap ln p) ;;
            Ok (tmap Ropp m, CrossEntropyFn.save_for_backward x y s)).
Proof.
  intros Hx.
  destruct (CrossEntropy_softmax_spec x T C Hx)
    as (e1 & e2 & s & E1 & E2 & E3 & (Hs & _)).
  exists s. split; [exact Hs|].
  intros y. unfold CrossEntropyFn.forward. rewrite (proj1 Hx).
  cbn [unpack2 bind]. rewrite E1. cbn [bind]. rewrite E2. cbn [bind].
  rewrite E3. reflexivity.
Qed.



(** X11.  A target [k - C] with [k] in [0, C) is read as class [k]: the loss is
    the loss for the targets counted from 0. *)
Theorem CrossEntropy_forward_negative_targets
    (x : tensor) (y : itensor) (T C : nat) :
  matrix x T C -> indices_in y C ->
  CrossEntropy.forward x (map (fun i => (i - Z.of_nat C)%Z) y)
  = CrossEntropy.forward x y.
Proof.
  intros Hx Hy.
  destruct (CrossEntropy_forward_unfold x T C Hx) as (s & Hs & Hfwd).
  unfold CrossEntropy.forward, apply. rewrite !Hfwd.
  assert (Hg : getitem2 s (arange T) (map (fun i => (i - Z.of_nat C)%Z) y)
               = getitem2 s (arange T) y).
  { unfold getitem2. rewrite Hs, (mapM_norm_index_wrap C y Hy), length_map.
    reflexivity. }
  rewrite Hg. destruct (getitem2 s (arange T) y) as [p|e]; cbn [bind];
    [|reflexivity].
  destruct (tmean 0 (tmap ln p)); reflexivity.
Qed.

Lemma CrossEntropy_forward_negative_targets_witness :
  CrossEntropy.forward Ex.logits1 (map (fun i => (i - Z.of_nat 2)%Z) [1%Z])
  = CrossEntropy.forward Ex.logits1 [1%Z].
Proof.
  apply (CrossEntropy_forward_negative_targets Ex.logits1 [1%Z] 1 2).
  - split; reflexivity.
  - constructor; [lia|constructor].
Defined.

(** *** Equal logits *)

(** X12.  When all logits of every row are equal, the loss is ln C whatever the
    targets. *)
Theorem CrossEntropy_forward_equal_logits
    (x : tensor) (y : itensor) (T C : nat) (a : nat -> R) :
  (0 < T)%nat -> matrix x T C -> length y = T -> indices_in y C ->
  (forall t c, (t < T)%nat -> (c < C)%nat -> get x [t; c] = a t) ->
  exists loss,
    CrossEntropy.forward x y = Ok loss /\ get loss [] = ln (INR C).
Proof.
  intros HT Hx Hlen Hy Heq.
  destruct (CrossEntropy_module_forward x y T C Hx Hlen Hy) as (loss & E & Sl).
  exists loss. split; [exact E|].
  destruct Sl as (_ & _ & Hg). rewrite (Hg []) by constructor.
  assert (HC : (0 < C)%nat).
  { pose proof (idx_at_lt y C 0 Hy ltac:(lia)). lia. }
  assert (HIC : 0 < INR C) by (apply lt_0_INR; exact HC).
  assert (HIT : INR T <> 0) by (apply not_0_INR; lia).
  rewrite (Rsum_ext T _ (fun _ => - ln (INR C))).
  - rewrite Rsum_const. field. exact HIT.
  - intros t Ht. unfold softmax.
    rewrite (Rsum_ext C _ (fun _ => exp (a t))).
    2: { intros c Hc. rewrite (Heq t c Ht Hc). reflexivity. }
    rewrite Rsum_const, (Heq t _ Ht (idx_at_lt y C t Hy ltac:(lia))).
    pose proof (exp_pos (a t)) as He.
    replace (exp (a t) / (INR C * exp (a t))) with (/ INR C) by (field; lra).
    apply ln_Rinv. exact HIC.
Qed.

Lemma CrossEntropy_forward_equal_logits_witness :
  exists loss,
    CrossEntropy.forward Ex.logits3 [0%Z; 1%Z; 1%Z] = Ok loss
    /\ get loss [] = ln (INR 2).
Proof.
  apply (CrossEntropy_forward_equal_logits
           Ex.logits3 [0%Z; 1%Z; 1%Z] 3 2 (fun _ => 0)).
  - lia.
  - split; reflexivity.
  - reflexivity.
  - repeat constructor; lia.
  - intros t c Ht Hc.
    destruct t as [|[|[|t]]]; [| | |lia];
      (destruct c as [|[|c]]; [reflexivity|reflexivity|lia]).
Defined.

(** ** Embedding *)

Lemma Embedding_forward_spec (x : itensor) (emb : tensor) (N D : nat) :
  indices_in x N -> matrix emb N D ->
  exists y,
    EmbeddingFn.forward x emb = Ok (y, EmbeddingFn.save_for_backward x emb)
    /\ is_mat y (length x) D (fun t d => get emb [idx_at x t; d]).
Proof.
  intros Hx Hemb. unfold EmbeddingFn.forward.
  destruct (getitem1_rows emb N D _ x (matrix_is_mat _ _ _ Hemb) Hx)
    as (y & Ey & Sy).
  rewrite Ey. cbn [bind]. exists y. split; [reflexivity|exact Sy].
Qed.



(** X14.  The lookup gathers rows, and the table gradient pairs with a change of
    the table exactly as the upstream gradient pairs with the change of the
    output it causes. *)
Theorem Embedding_backward_exact_increments
    (x : itensor) (emb emb' y_grad : tensor) (T N D : nat) :
  length x = T -> indices_in x N ->
  matrix emb N D -> matrix emb' N D -> matrix y_grad T D ->
  exists y k y' k' demb,
    EmbeddingFn.forward x emb = Ok (y, k)
    /\ EmbeddingFn.forward x emb' = Ok (y', k')
    /\ is_mat y T D (fun t d => get emb [idx_at x t; d])
    /\ EmbeddingFn.backward k y_grad = Ok (None, Some demb)
    /\ inner2 T D (entries2 y_grad) (fun t d => get y' [t; d] - get y [t; d])
       = inner2 N D (entries2 demb)
           (fun i d => get emb' [i; d] - get emb [i; d]).
Proof.
  intros Hlen Hx Hemb Hemb' Hg.
  destruct (Embedding_forward_spec x emb N D Hx Hemb) as (y & E & Sy).
  destruct (Embedding_forward_spec x emb' N D Hx Hemb') as (y' & E' & Sy').
  rewrite Hlen in Sy, Sy'.
  destruct (index_add_rows N D T y_grad Hg (zeros_like emb) _ x
              (is_mat_zeros_like emb N D (proj1 Hemb)) Hlen Hx)
    as (demb & Ed & Sd).
  exists y, (EmbeddingFn.save_for_backward x emb),
    y', (EmbeddingFn.save_for_backward x emb'), demb.
  split; [exact E|]. split; [exact E'|]. split; [exact Sy|]. split.
  { unfold EmbeddingFn.backward. rewrite Ed. reflexivity. }
  set (delta := fun i d => get emb' [i; d] - get emb [i; d]).
  rewrite (inner2_ext T D _ (entries2 y_grad) _
             (fun t d => delta (idx_at x t) d)).
  2: { intros; reflexivity. }
  2: { intros t d Ht Hd. rewrite (is_mat_get _ _ _ _ _ _ Sy' Ht Hd).
       rewrite (is_mat_get _ _ _ _ _ _ Sy Ht Hd). reflexivity. }
  rewrite (inner2_ext N D (entries2 demb)
             (fun i d => Rsum T (fun t =>
                (if (idx_at x t =? i)%nat then 1 else 0) * get y_grad [t; d]))
             delta delta).
  2: { intros i d Hi Hd. unfold entries2.
       rewrite (is_mat_get _ _ _ _ _ _ Sd Hi Hd). rewrite Rplus_0_l.
       apply Rsum_ext. intros t _. destruct (idx_at x t =? i)%nat; ring. }
  2: { intros; reflexivity. }
  unfold inner2, entries2. symmetry.
  (* bring the sum over positions to the front *)
  transitivity
    (Rsum N (fun i => Rsum T (fun t => Rsum D (fun d =>
       (if (idx_at x t =? i)%nat then 1 else 0)
       * (get y_grad [t; d] * delta i d))))).
  { apply Rsum_ext. intros i _.
    rewrite (Rsum_swap T D (fun t d =>
               (if (idx_at x t =? i)%nat then 1 else 0)
               * (get y_grad [t; d] * delta i d))).
    apply Rsum_ext. intros d _. rewrite <- Rsum_scal_r.
    apply Rsum_ext. intros; ring. }
  rewrite (Rsum_swap N T (fun i t => Rsum D (fun d =>
             (if (idx_at x t =? i)%nat then 1 else 0)
             * (get y_grad [t; d] * delta i d)))).
  apply Rsum_ext. intros t Ht.
  rewrite (Rsum_swap N D (fun i d =>
             (if (idx_at x t =? i)%nat then 1 else 0)
             * (get y_grad [t; d] * delta i d))).
  apply Rsum_ext. intros d _.
  apply (Rsum_indicator_mult N (idx_at x t)
           (fun i => get y_grad [t; d] * delta i d)).
  apply idx_at_lt; [exact Hx|lia].
Qed.

Lemma Embedding_backward_exact_increments_witness :
  exists y k y' k' demb,
    EmbeddingFn.forward [1%Z; 1%Z; 0%Z] Ex.table = Ok (y, k)
    /\ EmbeddingFn.forward [1%Z; 1%Z; 0%Z] Ex.logits2 = Ok (y', k')
    /\ is_mat y 3 2 (fun t d => get Ex.table [idx_at [1%Z; 1%Z; 0%Z] t; d])
    /\ EmbeddingFn.backward k Ex.g_rows = Ok (None, Some demb)
    /\ inner2 3 2 (entries2 Ex.g_rows)
         (fun t d => get y' [t; d] - get y [t; d])
       = inner2 2 2 (entries2 demb)
           (fun i d => get Ex.logits2 [i; d] - get Ex.table [i; d]).
Proof.
  apply (Embedding_backward_exact_increments
           [1%Z; 1%Z; 0%Z] Ex.table Ex.logits2 Ex.g_rows 3 2 2).
  - reflexivity.
  - repeat constructor; lia.
  - split; reflexivity.
  - split; reflexivity.
  - split; reflexivity.
Defined.

(** ** Layer normalisation *)

Section RowFacts.

Lemma normalized_ext (x x' : tensor) (C t t' : nat) :
  (forall c, (c < C)%nat -> get x [t; c] = get x' [t'; c]) ->
  forall c, (c < C)%nat -> normalized x C t c = normalized x' C t' c.
Proof.
  intros H.
  assert (Hm : row_mean x C t = row_mean x' C t').
  { unfold row_mean. f_equal. apply Rsum_ext. exact H. }
  assert (Hc : forall c, (c < C)%nat -> centered x C t c = centered x' C t' c).
  { intros c Hc. unfold centered. rewrite Hm, (H c Hc). reflexivity. }
  assert (Hv : row_var x C t = row_var x' C t').
  { unfold row_var. f_equal. apply Rsum_ext. intros c Hc'.
    rewrite (Hc c Hc'). reflexivity. }
  intros c Hc'. unfold normalized, inv_std. rewrite Hv, (Hc c Hc'). reflexivity.
Qed.

Lemma normalized_shift (x x' : tensor) (C t : nat) (k : R) :
  (forall c, (c < C)%nat -> get x' [t; c] = get x [t; c] + k) ->
  forall c, (c < C)%nat -> normalized x' C t c = normalized x C t c.
Proof.
  intros H c0 Hc0.
  assert (HI : INR C <> 0) by (apply not_0_INR; lia).
  assert (Hm : row_mean x' C t = row_mean x C t + k).
  { unfold row_mean.
    rewrite (Rsum_ext C _ (fun c => get x [t; c] + k) H).
    rewrite Rsum_plus, Rsum_const. field. exact HI. }
  assert (Hc : forall c, (c < C)%nat -> centered x' C t c = centered x C t c).
  { intros c Hc. unfold centered. rewrite Hm, (H c Hc). ring. }
  assert (Hv : row_var x' C t = row_var x C t).
  { unfold row_var. f_equal. apply Rsum_ext. intros c Hc'.
    rewrite (Hc c Hc'). reflexivity. }
  unfold normalized, inv_std. rewrite Hv, (Hc c0 Hc0). reflexivity.
Qed.




End RowFacts.

(** X15.  Adding a constant to all entries of a row of the input does not change
    the output. *)
Theorem LayerNorm_forward_shift_invariant
    (x x' gamma beta : tensor) (T C : nat) (shift : nat -> R) :
  matrix x T C -> matrix x' T C -> vector gamma C -> vector beta C ->
  (forall t c, (t < T)%nat -> (c < C)%nat ->
     get x' [t; c] = get x [t; c] + shift t) ->
  exists y k y' k',
    LayerNormFn.forward x gamma beta = Ok (y, k)
    /\ LayerNormFn.forward x' gamma beta = Ok (y', k')
    /\ forall t c, (t < T)%nat -> (c < C)%nat -> get y' [t; c] = get y [t; c].
Proof.
  intros Hx Hx' Hg Hb Hshift.
  destruct (LayerNorm_forward_spec x gamma beta T C Hx Hg Hb)
    as (y & m & mu & v & sigma & E & _ & _ & Sy).
  destruct (LayerNorm_forward_spec x' gamma beta T C Hx' Hg Hb)
    as (y' & m' & mu' & v' & sigma' & E' & _ & _ & Sy').
  do 4 eexists. split; [exact E|]. split; [exact E'|].
  intros t c Ht Hc.
  rewrite (is_mat_get _ _ _ _ _ _ Sy Ht Hc), (is_mat_get _ _ _ _ _ _ Sy' Ht Hc).
  rewrite (normalized_shift x x' C t (shift t)); [reflexivity| |exact Hc].
  intros c' Hc'. apply Hshift; assumption.
Qed.

Lemma LayerNorm_forward_shift_invariant_witness :
  exists y k y' k',
    LayerNormFn.forward Ex.x_row Ex.ones2 Ex.zeros2 = Ok (y, k)
    /\ LayerNormFn.forward (tmap (fun v => v + 5) Ex.x_row) Ex.ones2 Ex.zeros2
       = Ok (y', k')
    /\ forall t c, (t < 1)%nat -> (c < 2)%nat -> get y' [t; c] = get y [t; c].
Proof.
  apply (LayerNorm_forward_shift_invariant
           Ex.x_row (tmap (fun v => v + 5) Ex.x_row) Ex.ones2 Ex.zeros2 1 2
           (fun _ => 5)).
  - split; reflexivity.
  - split; reflexivity.
  - split; reflexivity.
  - split; reflexivity.
  - intros t c Ht Hc.
    assert (t = 0%nat) by lia. subst t.
    destruct c as [|[|c]]; [reflexivity|reflexivity|lia].
Defined.



(** X17.  Every row of the input gradient sums to zero. *)
Theorem LayerNorm_backward_input_rows_sum_zero
    (x gamma beta y_grad : tensor) (T C : nat) :
  (0 < C)%nat ->
  matrix x T C -> vector gamma C -> vector beta C -> matrix y_grad T C ->
  exists y k dx dgamma dbeta,
    LayerNormFn.forward x gamma beta = Ok (y, k)
    /\ LayerNormFn.backward k y_grad = Ok (dx, dgamma, dbeta)
    /\ forall t, (t < T)%nat -> Rsum C (fun c => get dx [t; c]) = 0.
Proof.
  intros HC Hx Hg Hb Hyg.
  destruct (LayerNorm_forward_spec x gamma beta T C Hx Hg Hb)
    as (y & m & mu & v & sigma & E & Smu & Ssig & _).
  destruct (LayerNorm_backward_spec x gamma beta m mu v sigma y y_grad T C
              _ _ HC (proj1 Hx) Hg Smu Ssig Hyg)
    as (dx & dgamma & dbeta & Eb & _ & _ & Sdx).
  do 5 eexists. split; [exact E|]. split; [exact Eb|].
  intros t Ht.
  assert (HI : INR C <> 0) by (apply not_0_INR; lia).
  rewrite (Rsum_ext C _ (fun c =>
             get y_grad [t; c] * get gamma [c] * inv_std x C t
             - (1 / INR C
                * Rsum C (fun c' =>
                    get y_grad [t; c'] * get gamma [c'] * inv_std x C t)
                + (1 / INR C
                   * Rsum C (fun c' =>
                       get y_grad [t; c'] * get gamma [c'] * centered x C t c'
                       * inv_std x C t ^ 3))
                  * centered x C t c))).
  2: { intros c Hc. rewrite (is_mat_get _ _ _ _ _ _ Sdx Ht Hc). ring. }
  rewrite Rsum_minus, Rsum_plus, Rsum_const, Rsum_scal_l, centered_sum.
  field. exact HI.
Qed.

Lemma LayerNorm_backward_input_rows_sum_zero_witness :
  exists y k dx dgamma dbeta,
    LayerNormFn.forward Ex.x_row Ex.ones2 Ex.zeros2 = Ok (y, k)
    /\ LayerNormFn.backward k Ex.g_row = Ok (dx, dgamma, dbeta)
    /\ forall t, (t < 1)%nat -> Rsum 2 (fun c => get dx [t; c]) = 0.
Proof.
  apply (LayerNorm_backward_input_rows_sum_zero
           Ex.x_row Ex.ones2 Ex.zeros2 Ex.g_row 1 2).
  - lia.
  - split; reflexivity.
  - split; reflexivity.
  - split; reflexivity.
  - split; reflexivity.
Defined.

(** X18.  The output is affine in gain and bias, and the gain and bias gradients
    pair with a change of gain and bias exactly as the upstream gradient
    pairs with the change of the output. *)
Theorem LayerNorm_backward_exact_increments
    (x gamma gamma' beta beta' y_grad : tensor) (T C : nat) :
  (0 < C)%nat -> matrix x T C ->
  vector gamma C -> vector gamma' C -> vector beta C -> vector beta' C ->
  matrix y_grad T C ->
  exists y k y' k' dx dgamma dbeta,
    LayerNormFn.forward x gamma beta = Ok (y, k)
    /\ LayerNormFn.forward x gamma' beta' = Ok (y', k')
    /\ LayerNormFn.backward k y_grad = Ok (dx, dgamma, dbeta)
    /\ inner2 T C (entries2 y_grad) (fun t c => get y' [t; c] - get y [t; c])
       = inner1 C (entries1 dgamma) (fun c => get gamma' [c] - get gamma [c])
         + inner1 C (entries1 dbeta) (fun c => get beta' [c] - get beta [c]).
Proof.
  intros HC Hx Hg Hg' Hb Hb' Hyg.
  destruct (LayerNorm_forward_spec x gamma beta T C Hx Hg Hb)
    as (y & m & mu & v & sigma & E & Smu & Ssig & Sy).
  destruct (LayerNorm_forward_spec x gamma' beta' T C Hx Hg' Hb')
    as (y' & m' & mu' & v' & sigma' & E' & _ & _ & Sy').
  destruct (LayerNorm_backward_spec x gamma beta m mu v sigma y y_grad T C
              _ _ HC (proj1 Hx) Hg Smu Ssig Hyg)
    as (dx & dgamma & dbeta & Eb & Sdg & Sdb & _).
  do 7 eexists. split; [exact E|]. split; [exact E'|]. split; [exact Eb|].
  rewrite (inner2_ext T C _ (entries2 y_grad) _
             (fun t c => normalized x C t c * (get gamma' [c] - get gamma [c])
                         + (get beta' [c] - get beta [c]))).
  2: { intros; reflexivity. }
  2: { intros t c Ht Hc.
       rewrite (is_mat_get _ _ _ _ _ _ Sy' Ht Hc), (is_mat_get _ _ _ _ _ _ Sy Ht Hc).
       ring. }
  unfold inner2, inner1, entries2, entries1.
  rewrite (Rsum_swap T C (fun t c =>
             get y_grad [t; c]
             * (normalized x C t c * (get gamma' [c] - get gamma [c])
                + (get beta' [c] - get beta [c])))).
  rewrite <- Rsum_plus. apply Rsum_ext. intros c Hc.
  rewrite (is_vec_get _ _ _ _ Sdg Hc), (is_vec_get _ _ _ _ Sdb Hc).
  rewrite <- !Rsum_scal_r, <- Rsum_plus. apply Rsum_ext. intros t _.
  unfold normalized. ring.
Qed.

Lemma LayerNorm_backward_exact_increments_witness :
  exists y k y' k' dx dgamma dbeta,
    LayerNormFn.forward Ex.x_row Ex.ones2 Ex.zeros2 = Ok (y, k)
    /\ LayerNormFn.forward Ex.x_row Ex.zeros2 Ex.ones2 = Ok (y', k')
    /\ LayerNormFn.backward k Ex.g_row = Ok (dx, dgamma, dbeta)
    /\ inner2 1 2 (entries2 Ex.g_row) (fun t c => get y' [t; c] - get y [t; c])
       = inner1 2 (entries1 dgamma)
           (fun c => get Ex.zeros2 [c] - get Ex.ones2 [c])
         + inner1 2 (entries1 dbeta)
             (fun c => get Ex.ones2 [c] - get Ex.zeros2 [c]).
Proof.
  apply (LayerNorm_backward_exact_increments
           Ex.x_row Ex.ones2 Ex.zeros2 Ex.zeros2 Ex.ones2 Ex.g_row 1 2).
  - lia.
  - split; reflexivity.
  - split; reflexivity.
  - split; reflexivity.
  - split; reflexivity.
  - split; reflexivity.
  - split; reflexivity.
Defined.

Lemma broadcast_shapes_row_mismatch (T C G : nat) :
  G <> C -> G <> 1%nat -> C <> 1%nat ->
  broadcast_shapes [T; C] [1%nat; G] = None.
Proof.
  intros H1 H2 H3. unfold broadcast_shapes. cbn [rev app bshape_rev].
  destruct (T =? 1)%nat; cbn [Nat.eqb];
    destruct (Nat.eqb_spec C G); try (subst; contradiction);
    destruct (Nat.eqb_spec C 1); try contradiction;
    destruct (Nat.eqb_spec G 1); try contradiction; reflexivity.
Qed.

(** X19.  A gain whose length is neither the number of features nor 1 cannot be
    broadcast against the normalised input: [forward] stops. *)
Theorem LayerNorm_forward_gain_mismatch
    (x gamma beta : tensor) (T C G : nat) :
  matrix x T C -> shape gamma = [G] ->
  G <> C -> G <> 1%nat -> C <> 1%nat ->
  LayerNormFn.forward x gamma beta = Err RuntimeError.
Proof.
  intros Hx Hg H1 H2 H3.
  apply matrix_is_mat in Hx.
  unfold LayerNormFn.forward, tsub, tmul, tadd.
  step (tmean1_mat _ _ _ _ Hx) m Sm.
  step (unsqueeze1_vec _ _ _ Sm) m1 Sm1.
  step (binop_mat_col Rminus _ _ _ _ _ _ Hx Sm1) mu Smu.
  step (tmean1_mat _ _ _ _ (is_mat_tmap (fun a => a ^ 2) _ _ _ _ Smu)) v Sv.
  pose proof (is_vec_tmap LayerNormFn.rsqrt _ _ _
                (is_vec_tmap (fun a => a + LayerNormFn.eps) _ _ _ Sv)) as Ssig.
  step (unsqueeze1_vec _ _ _ Ssig) sigma1 Ssigma1.
  step (binop_mat_col Rmult _ _ _ _ _ _ Smu Ssigma1) xhat Sxhat.
  unfold unsqueeze at 1. rewrite Hg.
  cbn [length Nat.leb bind insert_at firstn skipn app].
  unfold binop at 1. rewrite (proj1 Sxhat). cbn [shape].
  rewrite (broadcast_shapes_row_mismatch T C G H1 H2 H3). reflexivity.
Qed.

Lemma LayerNorm_forward_gain_mismatch_witness :
  LayerNormFn.forward Ex.x_row Ex.v3 Ex.zeros2 = Err RuntimeError.
Proof.
  apply (LayerNorm_forward_gain_mismatch Ex.x_row Ex.v3 Ex.zeros2 1 2 3).
  - split; reflexivity.
  - reflexivity.
  - lia.
  - lia.
  - lia.
Defined.

(** *** The input gradient is the derivative *)

Section DerivativeRules.

Lemma D_const (a h : R) : derivable_pt_lim (fun _ => a) h 0.
Proof. exact (derivable_pt_lim_const a h). Qed.

Lemma D_id (h : R) : derivable_pt_lim (fun z => z) h 1.
Proof. exact (derivable_pt_lim_id h). Qed.

Lemma D_plus (f g : R -> R) (h l1 l2 : R) :
  derivable_pt_lim f h l1 -> derivable_pt_lim g h l2 ->
  derivable_pt_lim (fun z => f z + g z) h (l1 + l2).
Proof. exact (derivable_pt_lim_plus f g h l1 l2). Qed.

Lemma D_minus (f g : R -> R) (h l1 l2 : R) :
  derivable_pt_lim f h l1 -> derivable_pt_lim g h l2 ->
  derivable_pt_lim (fun z => f z - g z) h (l1 - l2).
Proof. exact (derivable_pt_lim_minus f g h l1 l2). Qed.

Lemma D_mult (f g : R -> R) (h l1 l2 : R) :
  derivable_pt_lim f h l1 -> derivable_pt_lim g h l2 ->
  derivable_pt_lim (fun z => f z * g z) h (l1 * g h + f h * l2).
Proof. exact (derivable_pt_lim_mult f g h l1 l2). Qed.

Lemma D_scal (f : R -> R) (a h l : R) :
  derivable_pt_lim f h l -> derivable_pt_lim (fun z => a * f z) h (a * l).
Proof. exact (derivable_pt_lim_scal f a h l). Qed.

Lemma D_div_const (f : R -> R) (a h l : R) :
  derivable_pt_lim f h l -> derivable_pt_lim (fun z => f z / a) h (l / a).
Proof.
  intros H. eapply derivable_pt_lim_eq.
  - apply (derivable_pt_lim_ext (fun z => / a * f z)).
    + intros z. unfold Rdiv. ring.
    + apply D_scal. exact H.
  - unfold Rdiv. ring.
Qed.

Lemma D_comp (f g : R -> R) (h l1 l2 : R) :
  derivable_pt_lim f h l1 -> derivable_pt_lim g (f h) l2 ->
  derivable_pt_lim (fun z => g (f z)) h (l2 * l1).
Proof. exact (derivable_pt_lim_comp f g h l1 l2). Qed.

Lemma D_sq (f : R -> R) (h l : R) :
  derivable_pt_lim f h l -> derivable_pt_lim (fun z => f z ^ 2) h (2 * f h * l).
Proof.
  intros H. eapply derivable_pt_lim_eq.
  - apply (derivable_pt_lim_ext (fun z => f z * f z)).
    + intros z. ring.
    + apply D_mult; exact H.
  - ring.
Qed.

Lemma D_rsqrt (f : R -> R) (h l : R) :
  0 < f h -> derivable_pt_lim f h l ->
  derivable_pt_lim (fun z => 1 / sqrt (f z)) h
    (- (l / 2) * (1 / sqrt (f h)) ^ 3).
Proof.
  intros Hpos H.
  assert (Hs : 0 < sqrt (f h)) by (apply sqrt_lt_R0; exact Hpos).
  eapply derivable_pt_lim_eq.
  - apply (derivable_pt_lim_ext
             (fct_cte 1 / (fun z => sqrt (f z)))%F); [intros z; reflexivity|].
    apply derivable_pt_lim_div.
    + apply derivable_pt_lim_const.
    + apply (D_comp f sqrt h l (/ (2 * sqrt (f h))) H).
      apply derivable_pt_lim_sqrt. exact Hpos.
    + lra.
  - unfold fct_cte, Rsqr. field. lra.
Qed.

Lemma D_Rsum (n : nat) (f : nat -> R -> R) (f' : nat -> R) (h : R) :
  (forall c, (c < n)%nat -> derivable_pt_lim (f c) h (f' c)) ->
  derivable_pt_lim (fun z => Rsum n (fun c => f c z)) h (Rsum n f').
Proof.
  induction n as [|n IH]; intros H.
  - apply (derivable_pt_lim_ext (fun _ => 0)); [intros; reflexivity|].
    rewrite Rsum_0. apply D_const.
  - apply (derivable_pt_lim_ext
             (fun z => Rsum n (fun c => f c z) + f n z)).
    + intros z. symmetry. apply (Rsum_S n (fun c => f c z)).
    + rewrite Rsum_S. apply D_plus.
      * apply IH. intros c Hc. apply H. lia.
      * apply H. lia.
Qed.

End DerivativeRules.

Section RowDerivative.

Variables (x : tensor) (C t0 c0 : nat).
Hypothesis Hc0 : (c0 < C)%nat.

Lemma row_var_of_nonneg (r : nat -> R) : 0 <= var_of C r.
Proof.
  unfold var_of. destruct C as [|n]; [lia|].
  apply Rmult_le_pos.
  - apply Rsum_nonneg. intros c _. apply pow2_ge_0.
  - apply Rlt_le, Rinv_0_lt_compat, lt_0_INR. lia.
Qed.

Lemma row_centered_sum (r : nat -> R) :
  Rsum C (fun c => r c - mean_of C r) = 0.
Proof.
  assert (HI : INR C <> 0) by (apply not_0_INR; lia).
  rewrite Rsum_minus, Rsum_const. unfold mean_of. field. exact HI.
Qed.

Lemma D_row (c : nat) (h : R) :
  derivable_pt_lim (fun z => row_with x t0 c0 z c) h
    (if (c0 =? c)%nat then 1 else 0).
Proof.
  unfold row_with. rewrite (Nat.eqb_sym c0 c).
  destruct (c =? c0)%nat; [apply D_id|apply D_const].
Qed.

Lemma D_mean (h : R) :
  derivable_pt_lim (fun z => mean_of C (row_with x t0 c0 z)) h (1 / INR C).
Proof.
  unfold mean_of. eapply derivable_pt_lim_eq.
  - apply D_div_const.
    apply (D_Rsum C (fun c z => row_with x t0 c0 z c)
             (fun c => if (c0 =? c)%nat then 1 else 0)).
    intros c _. apply D_row.
  - rewrite Rsum_indicator by exact Hc0. reflexivity.
Qed.

Lemma D_centered (c : nat) (h : R) :
  derivable_pt_lim
    (fun z => row_with x t0 c0 z c - mean_of C (row_with x t0 c0 z)) h
    ((if (c0 =? c)%nat then 1 else 0) - 1 / INR C).
Proof. apply D_minus; [apply D_row|apply D_mean]. Qed.

Lemma D_var (h : R) :
  derivable_pt_lim (fun z => var_of C (row_with x t0 c0 z)) h
    (2 * (row_with x t0 c0 h c0 - mean_of C (row_with x t0 c0 h)) / INR C).
Proof.
  assert (HI : INR C <> 0) by (apply not_0_INR; lia).
  unfold var_of. eapply derivable_pt_lim_eq.
  - apply D_div_const.
    apply (D_Rsum C
             (fun c z => (row_with x t0 c0 z c
                          - mean_of C (row_with x t0 c0 z)) ^ 2)
             (fun c => 2 * (row_with x t0 c0 h c
                            - mean_of C (row_with x t0 c0 h))
                       * ((if (c0 =? c)%nat then 1 else 0) - 1 / INR C))).
    intros c _.
    apply (D_sq (fun z => row_with x t0 c0 z c
                          - mean_of C (row_with x t0 c0 z))).
    apply D_centered.
  - f_equal.
    rewrite (Rsum_ext C _
               (fun c => 2 * ((if (c0 =? c)%nat then 1 else 0)
                              * (row_with x t0 c0 h c
                                 - mean_of C (row_with x t0 c0 h)))
                         - 2 / INR C
                           * (row_with x t0 c0 h c
                              - mean_of C (row_with x t0 c0 h)))).
    2: { intros c _. field. exact HI. }
    rewrite Rsum_minus, !Rsum_scal_l.
    rewrite (Rsum_indicator_mult C c0
               (fun c => row_with x t0 c0 h c
                         - mean_of C (row_with x t0 c0 h))) by exact Hc0.
    rewrite row_centered_sum. ring.
Qed.

Lemma D_sigma (h : R) :
  derivable_pt_lim
    (fun z => 1 / sqrt (var_of C (row_with x t0 c0 z) + LayerNormFn.eps)) h
    (- ((row_with x t0 c0 h c0 - mean_of C (row_with x t0 c0 h)) / INR C)
     * (1 / sqrt (var_of C (row_with x t0 c0 h) + LayerNormFn.eps)) ^ 3).
Proof.
  assert (HI : INR C <> 0) by (apply not_0_INR; lia).
  eapply derivable_pt_lim_eq.
  - apply (D_rsqrt (fun z => var_of C (row_with x t0 c0 z) + LayerNormFn.eps)).
    + pose proof (row_var_of_nonneg (row_with x t0 c0 h)). pose proof eps_pos.
      lra.
    + apply D_plus; [apply D_var|apply D_const].
  - cbn beta. f_equal. field. exact HI.
Qed.

Lemma D_normalize (c : nat) (h : R) :
  derivable_pt_lim (fun z => normalize_row C (row_with x t0 c0 z) c) h
    (((if (c0 =? c)%nat then 1 else 0) - 1 / INR C)
     * (1 / sqrt (var_of C (row_with x t0 c0 h) + LayerNormFn.eps))
     + (row_with x t0 c0 h c - mean_of C (row_with x t0 c0 h))
       * (- ((row_with x t0 c0 h c0 - mean_of C (row_with x t0 c0 h)) / INR C)
          * (1 / sqrt (var_of C (row_with x t0 c0 h) + LayerNormFn.eps)) ^ 3)).
Proof.
  unfold normalize_row.
  apply (D_mult
           (fun z => row_with x t0 c0 z c - mean_of C (row_with x t0 c0 z))
           (fun z => 1 / sqrt (var_of C (row_with x t0 c0 z) + LayerNormFn.eps))).
  - apply D_centered.
  - apply D_sigma.
Qed.

(** The derivative of a weighted sum of the normalised row, in the form
    [backward] computes it. *)
Lemma D_weighted_row (w b : nat -> R) (h : R) :
  derivable_pt_lim
    (fun z => Rsum C (fun c =>
       w c * (normalize_row C (row_with x t0 c0 z) c) + b c)) h
    (w c0 * (1 / sqrt (var_of C (row_with x t0 c0 h) + LayerNormFn.eps))
     - 1 / INR C
       * Rsum C (fun c =>
           w c * (1 / sqrt (var_of C (row_with x t0 c0 h) + LayerNormFn.eps)))
     - 1 / INR C
       * (row_with x t0 c0 h c0 - mean_of C (row_with x t0 c0 h))
       * Rsum C (fun c =>
           w c * (row_with x t0 c0 h c - mean_of C (row_with x t0 c0 h))
           * (1 / sqrt (var_of C (row_with x t0 c0 h) + LayerNormFn.eps)) ^ 3)).
Proof.
  assert (HI : INR C <> 0) by (apply not_0_INR; lia).
  set (s := 1 / sqrt (var_of C (row_with x t0 c0 h) + LayerNormFn.eps)).
  set (mu := fun c => row_with x t0 c0 h c - mean_of C (row_with x t0 c0 h)).
  eapply derivable_pt_lim_eq.
  - apply (D_Rsum C
             (fun c z => w c * normalize_row C (row_with x t0 c0 z) c + b c)
             (fun c => w c * (((if (c0 =? c)%nat then 1 else 0) - 1 / INR C) * s
                              + mu c * (- (mu c0 / INR C) * s ^ 3)) + 0)).
    intros c _. apply D_plus; [|apply D_const].
    apply D_scal. apply D_normalize.
  - rewrite (Rsum_ext C _
               (fun c => s * ((if (c0 =? c)%nat then 1 else 0) * w c)
                         - (1 / INR C * (w c * s)
                            + 1 / INR C * mu c0 * (w c * mu c * s ^ 3)))).
    2: { intros c _. field. exact HI. }
    rewrite Rsum_minus, Rsum_plus, !Rsum_scal_l.
    rewrite (Rsum_indicator_mult C c0 w) by exact Hc0.
    subst s mu. cbn beta. ring.
Qed.

End RowDerivative.

Section LayerNormGradient.

Variables (x gamma beta y_grad : tensor) (T C t0 c0 : nat).
Hypothesis Hx : matrix x T C.
Hypothesis Hgamma : vector gamma C.
Hypothesis Hbeta : vector beta C.
Hypothesis Hg : matrix y_grad T C.
Hypothesis Ht0 : (t0 < T)%nat.
Hypothesis Hc0 : (c0 < C)%nat.

Lemma row_with_self (c : nat) :
  row_with x t0 c0 (get x [t0; c0]) c = get x [t0; c].
Proof.
  unfold row_with. destruct (Nat.eqb_spec c c0) as [->|_]; reflexivity.
Qed.

Lemma normalize_row_ext (r r' : nat -> R) :
  (forall c, (c < C)%nat -> r c = r' c) ->
  forall c, (c < C)%nat -> normalize_row C r c = normalize_row C r' c.
Proof.
  intros H c Hc. unfold normalize_row.
  rewrite (mean_of_ext C r r' H), (var_of_ext C r r' H), (H c Hc). reflexivity.
Qed.

Lemma normalized_tset_row (h : R) (c : nat) :
  (c < C)%nat ->
  normalized (tset x [t0; c0] h) C t0 c
  = normalize_row C (row_with x t0 c0 h) c.
Proof.
  intros Hc.
  change (normalized (tset x [t0; c0] h) C t0 c)
    with (normalize_row C (fun c' => get (tset x [t0; c0] h) [t0; c']) c).
  apply normalize_row_ext; [|exact Hc].
  intros c' Hc'. rewrite (get_tset x T C) by (try apply (proj1 Hx); assumption).
  rewrite Nat.eqb_refl. reflexivity.
Qed.

Lemma normalized_tset_other (h : R) (t c : nat) :
  (t < T)%nat -> t <> t0 -> (c < C)%nat ->
  normalized (tset x [t0; c0] h) C t c = normalized x C t c.
Proof.
  intros Ht Hne Hc. apply normalized_ext; [|exact Hc].
  intros c' Hc'. rewrite (get_tset x T C) by (try apply (proj1 Hx); assumption).
  destruct (Nat.eqb_spec t t0); [contradiction|reflexivity].
Qed.

Lemma paired_tset (h : R) :
  paired T C y_grad
    (LayerNorm.forward {| LayerNorm.gamma := gamma; LayerNorm.beta := beta |}
       (tset x [t0; c0] h))
  = Rsum T (fun t =>
      if (t =? t0)%nat then 0
      else Rsum C (fun c =>
             get y_grad [t; c]
             * (normalized x C t c * get gamma [c] + get beta [c])))
    + Rsum C (fun c =>
        get y_grad [t0; c] * get gamma [c]
        * normalize_row C (row_with x t0 c0 h) c
        + get y_grad [t0; c] * get beta [c]).
Proof.
  destruct (LayerNorm_forward_spec (tset x [t0; c0] h) gamma beta T C
              (matrix_tset x T C _ h (proj1 Hx)) Hgamma Hbeta)
    as (y & m & mu & v & sigma & E & _ & _ & Sy).
  unfold LayerNorm.forward, apply. cbn [LayerNorm.gamma LayerNorm.beta].
  rewrite E. cbn [bind paired].
  rewrite (inner2_ext T C (entries2 y_grad) (entries2 y_grad) (entries2 y)
             (fun t c => normalized (tset x [t0; c0] h) C t c * get gamma [c]
                         + get beta [c])).
  2: { intros; reflexivity. }
  2: { intros t c Ht Hc. exact (is_mat_get _ _ _ _ _ _ Sy Ht Hc). }
  unfold inner2, entries2. rewrite (Rsum_split T t0) by exact Ht0.
  rewrite Rplus_comm. f_equal.
  - apply Rsum_ext. intros t Ht.
    destruct (Nat.eqb_spec t t0) as [->|Hne]; [reflexivity|].
    apply Rsum_ext. intros c Hc.
    rewrite (normalized_tset_other h t c Ht Hne Hc). reflexivity.
  - apply Rsum_ext. intros c Hc.
    rewrite (normalized_tset_row h c Hc). ring.
Qed.

End LayerNormGradient.

(** X20.  The entry of the input gradient is the partial derivative, with respect
    to that entry of the input, of the inner product of the upstream
    gradient with the output of the module. *)
Theorem LayerNorm_backward_is_input_gradient
    (x gamma beta y_grad : tensor) (T C t0 c0 : nat) :
  matrix x T C -> vector gamma C -> vector beta C -> matrix y_grad T C ->
  (t0 < T)%nat -> (c0 < C)%nat ->
  exists y k dx dgamma dbeta,
    LayerNormFn.forward x gamma beta = Ok (y, k)
    /\ LayerNormFn.backward k y_grad = Ok (dx, dgamma, dbeta)
    /\ derivable_pt_lim
         (fun h =>
            paired T C y_grad
              (LayerNorm.forward
                 {| LayerNorm.gamma := gamma; LayerNorm.beta := beta |}
                 (tset x [t0; c0] h)))
         (get x [t0; c0]) (get dx [t0; c0]).
Proof.
  intros Hx Hgamma Hbeta Hg Ht0 Hc0.
  assert (HC : (0 < C)%nat) by lia.
  destruct (LayerNorm_forward_spec x gamma beta T C Hx Hgamma Hbeta)
    as (y & m & mu & v & sigma & E & Smu & Ssig & _).
  destruct (LayerNorm_backward_spec x gamma beta m mu v sigma y y_grad T C
              _ _ HC (proj1 Hx) Hgamma Smu Ssig Hg)
    as (dx & dgamma & dbeta & Eb & _ & _ & Sdx).
  do 5 eexists. split; [exact E|]. split; [exact Eb|].
  eapply derivable_pt_lim_ext.
  { intros h. symmetry.
    apply (paired_tset x gamma beta y_grad T C t0 c0 Hx Hgamma Hbeta Ht0). }
  eapply derivable_pt_lim_eq.
  - apply D_plus; [apply D_const|].
    apply (D_weighted_row x C t0 c0 Hc0
             (fun c => get y_grad [t0; c] * get gamma [c])
             (fun c => get y_grad [t0; c] * get beta [c])).
  - rewrite (is_mat_get _ _ _ _ _ _ Sdx Ht0 Hc0).
    assert (Hm : mean_of C (row_with x t0 c0 (get x [t0; c0]))
                 = row_mean x C t0).
    { apply (mean_of_ext C _ (fun c => get x [t0; c])).
      intros c _. apply row_with_self. }
    assert (Hv : var_of C (row_with x t0 c0 (get x [t0; c0]))
                 = row_var x C t0).
    { apply (var_of_ext C _ (fun c => get x [t0; c])).
      intros c _. apply row_with_self. }
    rewrite Hm, Hv. fold (inv_std x C t0).
    rewrite (Rsum_ext C
               (fun c => get y_grad [t0; c] * get gamma [c]
                         * (row_with x t0 c0 (get x [t0; c0]) c
                            - row_mean x C t0)
                         * inv_std x C t0 ^ 3)
               (fun c => get y_grad [t0; c] * get gamma [c]
                         * centered x C t0 c * inv_std x C t0 ^ 3)).
    2: { intros c _. rewrite row_with_self. reflexivity. }
    rewrite row_with_self. fold (centered x C t0 c0). ring.
Qed.

Lemma LayerNorm_backward_is_input_gradient_witness :
  exists y k dx dgamma dbeta,
    LayerNormFn.forward Ex.x_row Ex.ones2 Ex.zeros2 = Ok (y, k)
    /\ LayerNormFn.backward k Ex.g_row = Ok (dx, dgamma, dbeta)
    /\ derivable_pt_lim
         (fun h =>
            paired 1 2 Ex.g_row
              (LayerNorm.forward
                 {| LayerNorm.gamma := Ex.ones2; LayerNorm.beta := Ex.zeros2 |}
                 (tset Ex.x_row [0; 1]%nat h)))
         (get Ex.x_row [0; 1]%nat) (get dx [0; 1]%nat).
Proof.
  apply (LayerNorm_backward_is_input_gradient
           Ex.x_row Ex.ones2 Ex.zeros2 Ex.g_row 1 2 0 1).
  - split; reflexivity.
  - split; reflexivity.
  - split; reflexivity.
  - split; reflexivity.
  - lia.
  - lia.
Defined.

(** ** The unfinished attention operator *)

Lemma matmul_batched_inner_mismatch (a b : tensor) (H H' T C Ca Cb : nat) :
  shape a = [H; T; Ca] -> shape b = [H'; C; Cb] -> Ca <> C ->
  matmul a b = Err RuntimeError.
Proof.
  intros Ha Hb Hne. unfold matmul. rewrite Ha, Hb.
  cbn [length Nat.eqb orb negb Nat.sub firstn nth app].
  destruct (Nat.eqb_spec Ca C); [contradiction|reflexivity].
Qed.

(** X21.  With four weights, a query weight of shape (H, C, Ca) and a
    two-dimensional input, the operator stops with a runtime error whenever
    C differs from Ca: either the input cannot be reshaped to (H, T, Ca), or
    the product of the reshaped input with the query weight does not fit. *)
Theorem MHAttention_forward_needs_square_heads
    (x w_q w_k w_v w_o : tensor) (H C Ca T Cx : nat) :
  shape w_q = [H; C; Ca] -> shape x = [T; Cx] -> C <> Ca ->
  MHAttentionFn.forward x [w_q; w_k; w_v; w_o] = Err RuntimeError.
Proof.
  intros Hq Hx Hne. unfold MHAttentionFn.forward.
  rewrite Hq, Hx. cbn [unpack3 unpack2 bind].
  unfold reshape. destruct (numel (shape x) =? numel [H; T; Ca])%nat;
    [|reflexivity].
  cbn [bind].
  rewrite (matmul_batched_inner_mismatch (mkT [H; T; Ca] (data x)) w_q
             H H T C Ca Ca eq_refl Hq);
    [reflexivity|].
  intros Heq. apply Hne. symmetry. exact Heq.
Qed.

Lemma MHAttention_forward_needs_square_heads_witness :
  MHAttentionFn.forward Ex.g_rows
    [mkT [3; 2; 1]%nat [1; 2; 3; 4; 5; 6]; Ex.table; Ex.table; Ex.table]
  = Err RuntimeError.
Proof.
  apply (MHAttention_forward_needs_square_heads
           Ex.g_rows (mkT [3; 2; 1]%nat [1; 2; 3; 4; 5; 6])
           Ex.table Ex.table Ex.table 3 2 1 3 2).
  - reflexivity.
  - reflexivity.
  - lia.
Defined.
